(** * Peak detection of spikeinterface: a shallow embedding

    The development follows
    [src/spikeinterface/sortingcomponents/peak_detection.py]: the three
    detection methods ([DetectPeakByChannel], [DetectPeakLocallyExclusive],
    [DetectPeakLocallyExclusiveOpenCL]), the per-chunk worker
    [_detect_peaks_chunk] and the driver [detect_peaks].

    Conventions.
    - A trace block (numpy array of shape samples x channels) is a list of
      rows, each row the list of the channel values of one sample.
    - Sample values, noise levels and thresholds are rationals: the code
      only compares them, and comparison of (non-NaN) floats is exact.
    - Python integers are [Z]; [range n] enumerates naturals.
    - The two parallel index arrays returned by [np.nonzero] are kept
      zipped, as one list of (sample, channel) pairs.
    - Exceptions are values of [exn], fallible code returns [result]. *)

From Stdlib Require Import ZArith QArith Qround Qabs Lia String.
From stdpp Require Import base list sets sorting.

Local Open Scope Z_scope.
Local Open Scope list_scope.

(** ** Exceptions *)

Inductive exn : Type :=
  | AssertionError
  | ModuleNotFoundError
  | ImportError
  | KeyError
  | ValueError
  | UnboundLocalError
  | IndexError
  | GraphError.

Inductive result (A : Type) : Type :=
  | Ok (a : A)
  | Raise (e : exn).
Arguments Ok {A} a.
Arguments Raise {A} e.

#[global] Instance result_ret : MRet result := fun A a => Ok a.
#[global] Instance result_bind : MBind result := fun A B k m =>
  match m with
  | Ok a => k a
  | Raise e => Raise e
  end.

Definition is_ok {A} (m : result A) : bool :=
  match m with Ok _ => true | Raise _ => false end.

(** ** Python and numpy primitives *)

(** [l[start:stop]]: a negative bound counts from the end, then both are
    clipped to [0, len(l)].  Note that [-0] is [0]. *)
Definition py_slice {A} (start stop : Z) (l : list A) : list A :=
  let n := Z.of_nat (length l) in
  let norm := fun i : Z => if i <? 0 then Z.max 0 (i + n) else Z.min i n in
  let lo := norm start in
  let hi := norm stop in
  take (Z.to_nat (hi - lo)) (drop (Z.to_nat lo) l).

(** [range(n)] *)
Definition range (n : Z) : list nat := seq 0 (Z.to_nat n).

(** [int(x)] on a float: truncation toward zero. *)
Definition py_int (x : Q) : Z := Z.quot (Qnum x) (Zpos (Qden x)).

(** [s in (a, b, ...)] on strings. *)
Definition str_in (s : string) (l : list string) : bool :=
  existsb (String.eqb s) l.

Definition Qgtb (x y : Q) : bool := negb (Qle_bool x y).
Definition Qgeb (x y : Q) : bool := Qle_bool y x.
Definition Qltb (x y : Q) : bool := negb (Qle_bool y x).
Definition Qleb (x y : Q) : bool := Qle_bool x y.

Abbreviation block := (list (list Q)).
Abbreviation mask := (list (list bool)).

(** [a op b] on two arrays of the same shape. *)
Definition np_cmp (op : Q -> Q -> bool) (a b : block) : mask :=
  zip_with (zip_with op) a b.

(** [a op v[None, :]]: the vector is broadcast over the rows. *)
Definition np_cmp_row (op : Q -> Q -> bool) (a : block) (v : list Q) : mask :=
  map (fun row => zip_with op row v) a.

Definition np_and (m1 m2 : mask) : mask := zip_with (zip_with andb) m1 m2.
Definition np_or (m1 m2 : mask) : mask := zip_with (zip_with orb) m1 m2.

(** [-v] *)
Definition np_neg (v : list Q) : list Q := map Qopp v.

Fixpoint nonzero_row (c : nat) (row : list bool) : list nat :=
  match row with
  | [] => []
  | b :: row' => (if b then [c] else []) ++ nonzero_row (S c) row'
  end.

Fixpoint nonzero_from (s : nat) (m : mask) : list (nat * nat) :=
  match m with
  | [] => []
  | row :: m' => map (pair s) (nonzero_row 0 row) ++ nonzero_from (S s) m'
  end.

(** [np.nonzero(m)] of a 2D boolean array: the coordinates of the true
    entries in row-major order. *)
Definition np_nonzero (m : mask) : list (nat * nat) := nonzero_from 0 m.

(** [peak_sample_ind += k] *)
Definition shift_samples (k : Z) (p : list (nat * nat)) : list (Z * nat) :=
  map (fun sc => (Z.of_nat sc.1 + k, sc.2)) p.

(** ** DetectPeakByChannel *)

Module DetectPeakByChannel.

Definition name : string := "by_channel".

Definition detect_peaks (traces : block) (peak_sign : string)
      (abs_threholds : list Q) (exclude_sweep_size : Z)
      : result (list (Z * nat)) :=
    let traces_center := py_slice exclude_sweep_size (- exclude_sweep_size) traces in
    let length := Z.of_nat (List.length traces_center) in
    let peak_mask : option mask := None in
    let peak_mask :=
      if str_in peak_sign ["pos"; "both"]%string then
        Some (foldl (fun peak_mask (i : nat) =>
                let peak_mask :=
                  np_and peak_mask
                    (np_cmp Qgtb traces_center
                       (py_slice (Z.of_nat i) (Z.of_nat i + length) traces)) in
                np_and peak_mask
                  (np_cmp Qgeb traces_center
                     (py_slice (exclude_sweep_size + Z.of_nat i + 1)
                        (exclude_sweep_size + Z.of_nat i + 1 + length) traces)))
              (np_cmp_row Qgtb traces_center abs_threholds)
              (range exclude_sweep_size))
      else peak_mask in
    let peak_mask :=
      if str_in peak_sign ["neg"; "both"]%string then
        let peak_mask_pos := peak_mask in
        let peak_mask :=
          foldl (fun peak_mask (i : nat) =>
                let peak_mask :=
                  np_and peak_mask
                    (np_cmp Qltb traces_center
                       (py_slice (Z.of_nat i) (Z.of_nat i + length) traces)) in
                np_and peak_mask
                  (np_cmp Qleb traces_center
                     (py_slice (exclude_sweep_size + Z.of_nat i + 1)
                        (exclude_sweep_size + Z.of_nat i + 1 + length) traces)))
              (np_cmp_row Qltb traces_center (np_neg abs_threholds))
              (range exclude_sweep_size) in
        if String.eqb peak_sign "both" then
          match peak_mask_pos with
          | Some peak_mask_pos => Some (np_or peak_mask peak_mask_pos)
          | None => None
          end
        else Some peak_mask
      else peak_mask in
    match peak_mask with
    | None => Raise UnboundLocalError
    | Some peak_mask => Ok (shift_samples exclude_sweep_size (np_nonzero peak_mask))
    end.

End DetectPeakByChannel.

(** ** DetectPeakLocallyExclusive *)

(** [a[s, c]] read and [m[s, c] &= b] update on 2D arrays.  The compiled
    loops do no bounds check; the indices they form are in range whenever
    the arrays have the shapes [detect_peaks] gives them.  Out of range
    the read gives the default value and the update does nothing. *)
Definition get2 {A} (d : A) (a : list (list A)) (s c : nat) : A :=
  default d (a !! s ≫= fun row => row !! c).

Definition at2 (a : block) (s c : nat) : Q := get2 0%Q a s c.

Definition mask_get (m : mask) (s c : nat) : bool := get2 false m s c.

Definition mask_set (m : mask) (s c : nat) (b : bool) : mask :=
  alter (fun row => <[c := b]> row) s m.

Definition mask_and_set (m : mask) (s c : nat) (b : bool) : mask :=
  mask_set m s c (mask_get m s c && b).

(** [a.shape[1]] *)
Definition shape1 {A} (a : list (list A)) : nat :=
  match a with
  | [] => 0%nat
  | row :: _ => length row
  end.

(** The two compiled kernels [_numba_detect_peak_pos] and
    [_numba_detect_peak_neg] are the same text up to the three comparison
    operators, which are the parameters [same], [before] and [after]. *)
Section numba_kernel.
Variables same before after : Q -> Q -> bool.
Variables traces traces_center : block.
Variable exclude_sweep_size : Z.
Variable neighbours_mask : mask.

  (** [for i in range(exclude_sweep_size)], with its [break]. *)
Fixpoint sweep_loop (chan_ind s neighbour : nat) (sweep : list nat)
      (peak_mask : mask) : mask :=
    match sweep with
    | [] => peak_mask
    | i :: sweep' =>
        let peak_mask :=
          if negb (chan_ind =? neighbour)%nat then
            mask_and_set peak_mask s chan_ind
              (same (at2 traces_center s chan_ind) (at2 traces_center s neighbour))
          else peak_mask in
        let peak_mask :=
          mask_and_set peak_mask s chan_ind
            (before (at2 traces_center s chan_ind)
               (at2 traces (s + i) neighbour)) in
        let peak_mask :=
          mask_and_set peak_mask s chan_ind
            (after (at2 traces_center s chan_ind)
               (at2 traces
                  (Z.to_nat (exclude_sweep_size + Z.of_nat s + Z.of_nat i + 1))
                  neighbour)) in
        if negb (mask_get peak_mask s chan_ind) then peak_mask
        else sweep_loop chan_ind s neighbour sweep' peak_mask
    end.

  (** [for neighbour in range(num_chans)], with its [continue] and [break]. *)
Fixpoint neighbour_loop (chan_ind s : nat) (ns : list nat)
      (peak_mask : mask) : mask :=
    match ns with
    | [] => peak_mask
    | neighbour :: ns' =>
        if negb (mask_get neighbours_mask chan_ind neighbour) then
          neighbour_loop chan_ind s ns' peak_mask
        else
          let peak_mask :=
            sweep_loop chan_ind s neighbour (range exclude_sweep_size) peak_mask in
          if negb (mask_get peak_mask s chan_ind) then peak_mask
          else neighbour_loop chan_ind s ns' peak_mask
    end.

Definition numba_detect_peak (peak_mask : mask) : mask :=
    let num_chans := shape1 traces_center in
    foldl (fun peak_mask chan_ind =>
        foldl (fun peak_mask s =>
            if negb (mask_get peak_mask s chan_ind) then peak_mask
            else neighbour_loop chan_ind s (seq 0 num_chans) peak_mask)
          peak_mask (seq 0 (length peak_mask)))
      peak_mask (seq 0 num_chans).

End numba_kernel.

Definition _numba_detect_peak_pos (traces traces_center : block)
    (peak_mask : mask) (exclude_sweep_size : Z) (neighbours_mask : mask) : mask :=
  numba_detect_peak Qgeb Qgtb Qgeb traces traces_center exclude_sweep_size
    neighbours_mask peak_mask.

Definition _numba_detect_peak_neg (traces traces_center : block)
    (peak_mask : mask) (exclude_sweep_size : Z) (neighbours_mask : mask) : mask :=
  numba_detect_peak Qleb Qltb Qleb traces traces_center exclude_sweep_size
    neighbours_mask peak_mask.

Module DetectPeakLocallyExclusive.

Definition name : string := "locally_exclusive".

Definition detect_peaks (HAVE_NUMBA : bool) (traces : block)
      (peak_sign : string) (abs_threholds : list Q) (exclude_sweep_size : Z)
      (neighbours_mask : mask) : result (list (Z * nat)) :=
    if negb HAVE_NUMBA then Raise AssertionError else
    let traces_center := py_slice exclude_sweep_size (- exclude_sweep_size) traces in
    let peak_mask : option mask := None in
    let peak_mask :=
      if str_in peak_sign ["pos"; "both"]%string then
        let peak_mask := np_cmp_row Qgtb traces_center abs_threholds in
        Some (_numba_detect_peak_pos traces traces_center peak_mask
                exclude_sweep_size neighbours_mask)
      else peak_mask in
    let peak_mask :=
      if str_in peak_sign ["neg"; "both"]%string then
        let peak_mask_pos := peak_mask in
        let peak_mask := np_cmp_row Qltb traces_center (np_neg abs_threholds) in
        let peak_mask :=
          _numba_detect_peak_neg traces traces_center peak_mask
            exclude_sweep_size neighbours_mask in
        if String.eqb peak_sign "both" then
          match peak_mask_pos with
          | Some peak_mask_pos => Some (np_or peak_mask peak_mask_pos)
          | None => None
          end
        else Some peak_mask
      else peak_mask in
    match peak_mask with
    | None => Raise UnboundLocalError
    | Some peak_mask => Ok (shift_samples exclude_sweep_size (np_nonzero peak_mask))
    end.

End DetectPeakLocallyExclusive.

(** ** The recording and the external collaborators *)

Record Recording : Type := {
  sampling_frequency : Q;
  _recording_segments : list block
}.

Record Peak : Type := {
  sample_ind : Z;
  channel_ind : nat;
  amplitude : Q;
  segment_ind : nat
}.

Record PipelineNode : Type := {
  get_trace_margin : Z
}.

(** What the module imports and does not define: whether [numba] and
    [pyopencl] can be imported, [get_noise_levels] and
    [get_channel_distances] of [spikeinterface.core.recording_tools],
    [check_graph] and [run_nodes] of [peak_pipeline], the chunks that
    [ChunkRecordingExecutor] cuts the recording into, and the order in
    which the OpenCL device runs the work-items of one kernel launch. *)
Record Env : Type := {
  HAVE_NUMBA : bool;
  HAVE_PYOPENCL : bool;
  get_noise_levels : Recording -> list Q;
  get_channel_distances : Recording -> block;
  check_graph : list PipelineNode -> result unit;
  run_nodes : block -> list Peak -> list PipelineNode -> list (list Q);
  executor_chunks : Recording -> list (nat * Z * Z);
  work_item_order : nat -> list nat
}.

(** The keyword arguments of [check_params], with their defaults. *)
Record method_kwargs : Type := {
  peak_sign : string;
  detect_threshold : Q;
  exclude_sweep_ms : Q;
  local_radius_um : Q;
  noise_levels : option (list Q)
}.

Definition default_kwargs : method_kwargs :=
  {| peak_sign := "neg"; detect_threshold := 5; exclude_sweep_ms := 1 # 10;
     local_radius_um := 50; noise_levels := None |}.

(** ** check_params and get_method_margin *)

Definition ByChannel_args : Type := string * list Q * Z.

Definition ByChannel_check_params (env : Env) (recording : Recording)
    (kw : method_kwargs) : result ByChannel_args :=
  if negb (str_in (peak_sign kw) ["both"; "neg"; "pos"]%string) then
    Raise AssertionError
  else
    let noise_levels :=
      match noise_levels kw with
      | None => get_noise_levels env recording
      | Some noise_levels => noise_levels
      end in
    let abs_threholds := map (fun n => n * detect_threshold kw)%Q noise_levels in
    let exclude_sweep_size :=
      py_int (exclude_sweep_ms kw * sampling_frequency recording / 1000)%Q in
    Ok (peak_sign kw, abs_threholds, exclude_sweep_size).

Definition ByChannel_get_method_margin (args : ByChannel_args) : Z := args.2.

Definition LocallyExclusive_args : Type := string * list Q * Z * mask.

(** [channel_distance < local_radius_um] *)
Definition np_lt_scalar (a : block) (x : Q) : mask :=
  map (map (fun d => Qltb d x)) a.

Definition LocallyExclusive_check_params (env : Env) (recording : Recording)
    (kw : method_kwargs) : result LocallyExclusive_args :=
  if negb (HAVE_NUMBA env) then Raise ModuleNotFoundError else
  args ← ByChannel_check_params env recording kw;
  let channel_distance := get_channel_distances env recording in
  let neighbours_mask := np_lt_scalar channel_distance (local_radius_um kw) in
  Ok (args, neighbours_mask).

Definition LocallyExclusive_get_method_margin (args : LocallyExclusive_args) : Z :=
  args.1.2.

(** ** The OpenCL executor *)

(** Device memory written by the kernel: the counter [num_peaks] and the
    buffer [peaks] of [st_peak] records. *)
Record device : Type := {
  num_peaks : Z;
  peaks : list (Z * nat)
}.

(** The fields of [OpenCLDetectPeakExecutor] that the detection uses.
    [kernel_peak_sign] and [global_size] are fixed by
    [create_buffers_and_compile]; [dev] stands for [num_peaks_cl] and
    [peaks_cl].  The casts to float32 are the identity on rationals. *)
Record OpenCLDetectPeakExecutor : Type := {
  cl_chunk_size : option nat;
  cl_abs_threholds : list Q;
  cl_exclude_sweep_size : Z;
  cl_neighbours_mask : mask;
  cl_peak_sign : string;
  cl_x : nat;
  kernel_peak_sign : Z;
  global_size : Z;
  dev : device
}.

Definition OpenCLDetectPeakExecutor_init (env : Env) (abs_threholds : list Q)
    (exclude_sweep_size : Z) (neighbours_mask : mask) (peak_sign : string)
    : result OpenCLDetectPeakExecutor :=
  if negb (HAVE_PYOPENCL env) then Raise ImportError else
  Ok {| cl_chunk_size := None;
        cl_abs_threholds := abs_threholds;
        cl_exclude_sweep_size := exclude_sweep_size;
        cl_neighbours_mask := neighbours_mask;
        cl_peak_sign := peak_sign;
        cl_x := 0;
        kernel_peak_sign := 0;
        global_size := 0;
        dev := {| num_peaks := 0; peaks := [] |} |}.

Definition OpenCL_check_params (env : Env) (recording : Recording)
    (kw : method_kwargs) : result OpenCLDetectPeakExecutor :=
  if negb (str_in (peak_sign kw) ["both"; "neg"; "pos"]%string) then
    Raise AssertionError
  else
    let noise_levels :=
      match noise_levels kw with
      | None => get_noise_levels env recording
      | Some noise_levels => noise_levels
      end in
    let abs_threholds := map (fun n => n * detect_threshold kw)%Q noise_levels in
    let exclude_sweep_size :=
      py_int (exclude_sweep_ms kw * sampling_frequency recording / 1000)%Q in
    let channel_distance := get_channel_distances env recording in
    let neighbours_mask := np_lt_scalar channel_distance (local_radius_um kw) in
    OpenCLDetectPeakExecutor_init env abs_threholds exclude_sweep_size
      neighbours_mask (peak_sign kw).

Definition OpenCL_get_method_margin (executor : OpenCLDetectPeakExecutor) : Z :=
  cl_exclude_sweep_size executor.

(** [{'pos': 1, 'neg': -1}[peak_sign]] *)
Definition kernel_sign_of (peak_sign : string) : result Z :=
  if String.eqb peak_sign "pos" then Ok 1
  else if String.eqb peak_sign "neg" then Ok (-1)
  else Raise KeyError.

Definition create_buffers_and_compile (env : Env)
    (self : OpenCLDetectPeakExecutor) (chunk_size : nat)
    : result OpenCLDetectPeakExecutor :=
  if negb (HAVE_PYOPENCL env) then Raise ImportError else
  let num_channels := length (cl_neighbours_mask self) in
  let nb_max_spike_in_chunk := (num_channels * chunk_size)%nat in
  sign ← kernel_sign_of (cl_peak_sign self);
  Ok {| cl_chunk_size := Some chunk_size;
        cl_abs_threholds := cl_abs_threholds self;
        cl_exclude_sweep_size := cl_exclude_sweep_size self;
        cl_neighbours_mask := cl_neighbours_mask self;
        cl_peak_sign := cl_peak_sign self;
        cl_x := cl_x self;
        kernel_peak_sign := sign;
        global_size := Z.of_nat chunk_size - 2 * cl_exclude_sweep_size self;
        dev := {| num_peaks := 0;
                  peaks := replicate nb_max_spike_in_chunk (0, 0%nat) |} |}.

(** ** The OpenCL kernel [processor_kernel]

    The [#define]s of the kernel text are the section variables
    [chunk_size], [exclude_sweep_size], [peak_sign], [num_channels]; the
    three input buffers are flat, row-major arrays. *)
Section processor_kernel.
Variables chunk_size exclude_sweep_size peak_sign : Z.
Variable num_channels : nat.
Variable traces : list Q.
Variable neighbours_mask : list bool.
Variable abs_threholds : list Q.

Definition traces_at (index : Z) : Q := default 0%Q (traces !! Z.to_nat index).

  (** [for (int i=1; i<=exclude_sweep_size; i++)], with its [break]. *)
Fixpoint cl_sweep (before after : Q -> Q -> bool) (v : Q)
      (pos chan_neigh : nat) (sweep : list nat) (peak : bool) : bool :=
    match sweep with
    | [] => peak
    | i :: sweep' =>
        let peak :=
          peak
          && before v (traces_at ((Z.of_nat pos + exclude_sweep_size - Z.of_nat i)
                                  * Z.of_nat num_channels + Z.of_nat chan_neigh))
          && after v (traces_at ((Z.of_nat pos + exclude_sweep_size + Z.of_nat i)
                                 * Z.of_nat num_channels + Z.of_nat chan_neigh)) in
        if negb peak then peak
        else cl_sweep before after v pos chan_neigh sweep' peak
    end.

  (** [for (int chan_neigh=0; chan_neigh<num_channels; chan_neigh++)] *)
Fixpoint cl_neighbours (v : Q) (pos chan : nat) (ns : list nat)
      (peak : bool) : bool :=
    match ns with
    | [] => peak
    | chan_neigh :: ns' =>
        let is_neighbour :=
          default false (neighbours_mask !! (chan * num_channels + chan_neigh)%nat) in
        if negb is_neighbour then cl_neighbours v pos chan ns' peak
        else
          let index :=
            (Z.of_nat pos + exclude_sweep_size) * Z.of_nat num_channels
            + Z.of_nat chan_neigh in
          let peak :=
            if peak_sign =? 1 then peak && Qgeb v (traces_at index)
            else if peak_sign =? -1 then peak && Qleb v (traces_at index)
            else peak in
          if negb peak then peak
          else
            let sweep := seq 1 (Z.to_nat exclude_sweep_size) in
            let peak :=
              if peak_sign =? 1 then cl_sweep Qgtb Qgeb v pos chan_neigh sweep peak
              else if peak_sign =? -1 then cl_sweep Qltb Qleb v pos chan_neigh sweep peak
              else peak in
            cl_neighbours v pos chan ns' peak
    end.

  (** The body of [for (int chan=0; chan<num_channels; chan++)]: the
      local [peak] and the device memory are the loop state. *)
Definition cl_chan_body (pos : nat) (st : bool * device) (chan : nat)
      : bool * device :=
    let '(peak, d) := st in
    let index :=
      (Z.of_nat pos + exclude_sweep_size) * Z.of_nat num_channels + Z.of_nat chan in
    let v := traces_at index in
    let thr := default 0%Q (abs_threholds !! chan) in
    let peak :=
      if peak_sign =? 1 then Qgtb v thr
      else if peak_sign =? -1 then Qltb v (- thr)%Q
      else peak in
    let peak :=
      if peak then cl_neighbours v pos chan (seq 0 num_channels) peak else peak in
    if peak then
      let i_peak := num_peaks d in
      (peak,
       {| num_peaks := i_peak + 1;
          peaks := <[Z.to_nat i_peak := (Z.of_nat pos + exclude_sweep_size, chan)]>
                     (peaks d) |})
    else (peak, d).

  (** What one work-item does before the barrier ... *)
Definition work_item_reset (d : device) (pos : nat) : device :=
    if (pos =? 0)%nat then {| num_peaks := 0; peaks := peaks d |} else d.

  (** ... and after it. *)
Definition work_item_body (d : device) (pos : nat) : device :=
    if Z.of_nat pos >=? chunk_size - 2 * exclude_sweep_size then d
    else (foldl (cl_chan_body pos) (false, d) (seq 0 num_channels)).2.

  (** One launch of the kernel.  The work-items run in the order [order];
      as the comment at the barrier assumes, the reset of the counter by
      work-item 0 is seen by every work-item before it appends. *)
Definition run_kernel (order : list nat) (d : device) : device :=
    foldl work_item_body (foldl work_item_reset d order) order.

End processor_kernel.

Definition OpenCLDetectPeakExecutor_detect_peak (env : Env)
    (self : OpenCLDetectPeakExecutor) (traces : block)
    : result (OpenCLDetectPeakExecutor * list (Z * nat)) :=
  let self :=
    {| cl_chunk_size := cl_chunk_size self;
       cl_abs_threholds := cl_abs_threholds self;
       cl_exclude_sweep_size := cl_exclude_sweep_size self;
       cl_neighbours_mask := cl_neighbours_mask self;
       cl_peak_sign := cl_peak_sign self;
       cl_x := S (cl_x self);
       kernel_peak_sign := kernel_peak_sign self;
       global_size := global_size self;
       dev := dev self |} in
  self ← (if bool_decide (cl_chunk_size self = Some (length traces)) then Ok self
          else create_buffers_and_compile env self (length traces));
  let chunk_size := Z.of_nat (default 0%nat (cl_chunk_size self)) in
  let d :=
    run_kernel chunk_size (cl_exclude_sweep_size self) (kernel_peak_sign self)
      (length (cl_neighbours_mask self)) (concat traces)
      (concat (cl_neighbours_mask self)) (cl_abs_threholds self)
      (work_item_order env (Z.to_nat (global_size self))) (dev self) in
  let n := num_peaks d in
  let peaks := py_slice 0 n (peaks d) in
  Ok ({| cl_chunk_size := cl_chunk_size self;
         cl_abs_threholds := cl_abs_threholds self;
         cl_exclude_sweep_size := cl_exclude_sweep_size self;
         cl_neighbours_mask := cl_neighbours_mask self;
         cl_peak_sign := cl_peak_sign self;
         cl_x := cl_x self;
         kernel_peak_sign := kernel_peak_sign self;
         global_size := global_size self;
         dev := d |},
      peaks).

(** ** The interface of the detection methods and the registry *)

(** The three classes share the class methods [check_params],
    [get_method_margin] and [detect_peaks]; [args] is the tuple that
    [check_params] returns and that the other two receive unpacked.
    [detect_peaks] also returns the tuple, whose executor the OpenCL
    method updates in place. *)
Record DetectPeakMethod : Type := {
  name : string;
  args : Type;
  check_params : Env -> Recording -> method_kwargs -> result args;
  get_method_margin : args -> Z;
  detect_peaks_of : Env -> block -> args -> result (args * list (Z * nat))
}.

Definition ByChannel : DetectPeakMethod :=
  {| name := DetectPeakByChannel.name;
     args := ByChannel_args;
     check_params := ByChannel_check_params;
     get_method_margin := ByChannel_get_method_margin;
     detect_peaks_of := fun _ traces a =>
       p ← DetectPeakByChannel.detect_peaks traces a.1.1 a.1.2 a.2;
       Ok (a, p) |}.

Definition LocallyExclusive : DetectPeakMethod :=
  {| name := DetectPeakLocallyExclusive.name;
     args := LocallyExclusive_args;
     check_params := LocallyExclusive_check_params;
     get_method_margin := LocallyExclusive_get_method_margin;
     detect_peaks_of := fun env traces a =>
       p ← DetectPeakLocallyExclusive.detect_peaks (HAVE_NUMBA env) traces
             a.1.1.1 a.1.1.2 a.1.2 a.2;
       Ok (a, p) |}.

Definition LocallyExclusiveOpenCL : DetectPeakMethod :=
  {| name := "locally_exclusive_cl";
     args := OpenCLDetectPeakExecutor;
     check_params := OpenCL_check_params;
     get_method_margin := OpenCL_get_method_margin;
     detect_peaks_of := fun env traces executor =>
       OpenCLDetectPeakExecutor_detect_peak env executor traces |}.

Definition _methods_list : list DetectPeakMethod :=
  [ByChannel; LocallyExclusive; LocallyExclusiveOpenCL].

(** [detect_peak_methods[method]] ([None] when the key is absent). *)
Definition detect_peak_methods (method : string) : option DetectPeakMethod :=
  List.find (fun m => String.eqb (name m) method) _methods_list.

(** ** The chunk worker *)

(** Modelled from the spec: [get_chunk_with_margin] of [spikeinterface.core]
    is not part of the sources at hand.  Section 4.2 of the specification,
    step 2: the block covers [start_frame - margin, end_frame + margin),
    clipped at the true segment boundaries, "with zero-padding for the
    missing portion ([add_zeros=True] semantics)".  The block therefore
    always starts [margin] samples before [start_frame], and the margins it
    reports are [margin] on both sides. *)
Definition segment_row (segment : block) (t : Z) : list Q :=
  if (0 <=? t) && (t <? Z.of_nat (length segment)) then
    default [] (segment !! Z.to_nat t)
  else replicate (shape1 segment) 0%Q.

Definition get_chunk_with_margin (segment : block)
    (start_frame end_frame margin : Z) : block * Z * Z :=
  let first := start_frame - margin in
  let size := Z.to_nat (end_frame + margin - first) in
  (map (fun k => segment_row segment (first + Z.of_nat k)) (seq 0 size),
   margin, margin).

(** [traces[peak_sample_ind, peak_chan_ind]] for one peak: a negative
    sample index counts from the end, an index out of range raises. *)
Definition fancy_index (traces : block) (s : Z) (c : nat) : result Q :=
  let n := Z.of_nat (length traces) in
  let s := if s <? 0 then s + n else s in
  if (s <? 0) || (n <=? s) then Raise IndexError else
  match traces !! Z.to_nat s ≫= fun row => row !! c with
  | Some v => Ok v
  | None => Raise IndexError
  end.

Fixpoint result_map {A B} (f : A -> result B) (l : list A) : result (list B) :=
  match l with
  | [] => Ok []
  | a :: l' => b ← f a; bs ← result_map f l'; Ok (b :: bs)
  end.

Record worker_ctx (M : DetectPeakMethod) : Type := {
  ctx_recording : Recording;
  ctx_method_args : args M;
  ctx_extra_margin : Z;
  ctx_pipeline_nodes : option (list PipelineNode)
}.
Arguments ctx_recording {M}.
Arguments ctx_method_args {M}.
Arguments ctx_extra_margin {M}.
Arguments ctx_pipeline_nodes {M}.

Definition _init_worker_detect_peaks (M : DetectPeakMethod)
    (recording : Recording) (method_args : args M) (extra_margin : Z)
    (pipeline_nodes : option (list PipelineNode)) : worker_ctx M :=
  {| ctx_recording := recording;
     ctx_method_args := method_args;
     ctx_extra_margin := extra_margin;
     ctx_pipeline_nodes := pipeline_nodes |}.

(** What a chunk returns: the peaks alone, or the peaks with the outputs
    of the pipeline nodes. *)
Definition chunk_output : Type := list Peak * option (list (list Q)).

Definition _detect_peaks_chunk (env : Env) (M : DetectPeakMethod)
    (segment_index : nat) (start_frame end_frame : Z) (ctx : worker_ctx M)
    : result (worker_ctx M * chunk_output) :=
  let recording := ctx_recording ctx in
  let method_args := ctx_method_args ctx in
  let extra_margin := ctx_extra_margin ctx in
  let pipeline_nodes := ctx_pipeline_nodes ctx in
  let margin := get_method_margin M method_args + extra_margin in
  match _recording_segments recording !! segment_index with
  | None => Raise IndexError
  | Some recording_segment =>
      let '(traces, left_margin, right_margin) :=
        get_chunk_with_margin recording_segment start_frame end_frame margin in
      let trace_detection :=
        if extra_margin >? 0 then py_slice extra_margin (- extra_margin) traces
        else traces in
      '(method_args, found) ← detect_peaks_of M env trace_detection method_args;
      let found :=
        if extra_margin >? 0 then map (fun sc => (sc.1 + extra_margin, sc.2)) found
        else found in
      peak_amplitude ← result_map (fun sc => fancy_index traces sc.1 sc.2) found;
      let peaks :=
        zip_with (fun sc a =>
            {| sample_ind := sc.1; channel_ind := sc.2; amplitude := a;
               segment_ind := segment_index |})
          found peak_amplitude in
      let outs :=
        match pipeline_nodes with
        | None => None
        | Some nodes => Some (run_nodes env traces peaks nodes)
        end in
      let peaks :=
        map (fun p =>
            {| sample_ind := sample_ind p + (start_frame - left_margin);
               channel_ind := channel_ind p; amplitude := amplitude p;
               segment_ind := segment_ind p |})
          peaks in
      Ok ({| ctx_recording := recording;
             ctx_method_args := method_args;
             ctx_extra_margin := extra_margin;
             ctx_pipeline_nodes := pipeline_nodes |},
          (peaks, outs))
  end.

(** ** The driver *)

(** [processor.run()]: the worker is called on each chunk in turn.  The
    first component counts the calls of the worker. *)
Fixpoint run_chunks (env : Env) (M : DetectPeakMethod) (ctx : worker_ctx M)
    (chunks : list (nat * Z * Z)) : nat * result (list chunk_output) :=
  match chunks with
  | [] => (0%nat, Ok [])
  | (segment_index, start_frame, end_frame) :: chunks' =>
      match _detect_peaks_chunk env M segment_index start_frame end_frame ctx with
      | Raise e => (1%nat, Raise e)
      | Ok (ctx, out) =>
          let '(n, r) := run_chunks env M ctx chunks' in
          (S n, outs ← r; Ok (out :: outs))
      end
  end.

(** [max(...)] of a generator: raises on an empty one. *)
Definition py_max (l : list Z) : result Z :=
  match l with
  | [] => Raise ValueError
  | x :: l' => Ok (foldl Z.max x l')
  end.

(** [np.concatenate(outputs)]: raises on an empty list of arrays. *)
Definition np_concatenate {A} (l : list (list A)) : result (list A) :=
  match l with
  | [] => Raise ValueError
  | _ => Ok (concat l)
  end.

(** The transposition of [outputs] by [zip] followed by the concatenation
    of each component:
    the peaks of all chunks, then the outputs of each node over all
    chunks.  With no chunk at all the tuple is empty. *)
Definition zip_outputs (num_nodes : nat) (outputs : list chunk_output)
    : chunk_output :=
  match outputs with
  | [] => ([], Some [])
  | _ =>
      (concat (map fst outputs),
       Some (map (fun j =>
                concat (map (fun o : chunk_output =>
                          default [] (default [] o.2 !! j)) outputs))
              (seq 0 num_nodes)))
  end.

Definition detect_peaks (env : Env) (recording : Recording) (method : string)
    (pipeline_nodes : option (list PipelineNode)) (kwargs : method_kwargs)
    : nat * result chunk_output :=
  match detect_peak_methods method with
  | None => (0%nat, Raise AssertionError)
  | Some method_class =>
      match
        (method_args ← check_params method_class env recording kwargs;
         extra_margin ←
           match pipeline_nodes with
           | None => Ok 0
           | Some nodes =>
               _ ← check_graph env nodes;
               py_max (map get_trace_margin nodes)
           end;
         Ok (method_args, extra_margin))
      with
      | Raise e => (0%nat, Raise e)
      | Ok (method_args, extra_margin) =>
          let ctx :=
            _init_worker_detect_peaks method_class recording method_args
              extra_margin pipeline_nodes in
          let '(n, outputs) :=
            run_chunks env method_class ctx (executor_chunks env recording) in
          (n,
           outputs ← outputs;
           match pipeline_nodes with
           | None =>
               peaks ← np_concatenate (map fst outputs);
               Ok (peaks, None)
           | Some nodes =>
               Ok (zip_outputs (length nodes) outputs)
           end)
      end
  end.

(** ** Vocabulary of the statements *)

(** The three values of [peak_sign] that [check_params] accepts. *)
Inductive sign : Type := Pos | Neg | Both.

Definition sign_name (sg : sign) : string :=
  match sg with
  | Pos => "pos"
  | Neg => "neg"
  | Both => "both"
  end.

(** A list of rows is a 2D array when all rows have the same width. *)
Definition rectangular {A} (C : nat) (a : list (list A)) : bool :=
  forallb (fun row => (length row =? C)%nat) a.

(** The array of shape [L x C] whose entry [(j, c)] is [f j c]. *)
Definition tabulate2 {A} (f : nat -> nat -> A) (L C : nat) : list (list A) :=
  map (fun j => map (f j) (seq 0 C)) (seq 0 L).

(** The pairs [(s, c)], [s] in [ss] and [c] in [cs], in row-major order. *)
Definition pairs (ss cs : list nat) : list (nat * nat) :=
  flat_map (fun s => map (pair s) cs) ss.

(** A signal gives the value of every channel at every time. *)
Definition signal : Type := Z -> nat -> Q.

Definition block_signal (traces : block) : signal :=
  fun t c => if t <? 0 then 0%Q else at2 traces (Z.to_nat t) c.

(** The value at [(t, c)] compared with the samples of channel [nb] in
    the window [t - n .. t + n], [t] excluded: [before] against the [n]
    earlier samples, [after] against the [n] later ones. *)
Definition window_extremum (before after : Q -> Q -> bool) (sig : signal)
    (n : nat) (t : Z) (c nb : nat) : bool :=
  forallb (fun i =>
      before (sig t c) (sig (t - Z.of_nat i) nb)
      && after (sig t c) (sig (t + Z.of_nat i) nb))
    (seq 1 n).

Definition threshold_at (thr : list Q) (c : nat) : Q := default 0%Q (thr !! c).

(** The by-channel rule for one polarity and for [peak_sign]. *)
Definition by_channel_pos (sig : signal) (thr : list Q) (n : nat)
    (t : Z) (c : nat) : bool :=
  Qgtb (sig t c) (threshold_at thr c) && window_extremum Qgtb Qgeb sig n t c c.

Definition by_channel_neg (sig : signal) (thr : list Q) (n : nat)
    (t : Z) (c : nat) : bool :=
  Qltb (sig t c) (- threshold_at thr c)%Q && window_extremum Qltb Qleb sig n t c c.

Definition by_channel_peak (sg : sign) (sig : signal) (thr : list Q) (n : nat)
    (t : Z) (c : nat) : bool :=
  match sg with
  | Pos => by_channel_pos sig thr n t c
  | Neg => by_channel_neg sig thr n t c
  | Both => by_channel_neg sig thr n t c || by_channel_pos sig thr n t c
  end.

(** The spatial rule of the locally-exclusive method against the channels
    [nb < C] that the mask declares neighbours of [c]. *)
Definition spatial_extremum (same before after : Q -> Q -> bool) (sig : signal)
    (neighbours : mask) (C n : nat) (t : Z) (c : nat) : bool :=
  forallb (fun nb =>
      negb (mask_get neighbours c nb)
      || ((c =? nb)%nat || same (sig t c) (sig t nb))
         && window_extremum before after sig n t c nb)
    (seq 0 C).

Definition locally_exclusive_pos (sig : signal) (thr : list Q)
    (neighbours : mask) (C n : nat) (t : Z) (c : nat) : bool :=
  Qgtb (sig t c) (threshold_at thr c)
  && spatial_extremum Qgeb Qgtb Qgeb sig neighbours C n t c.

Definition locally_exclusive_neg (sig : signal) (thr : list Q)
    (neighbours : mask) (C n : nat) (t : Z) (c : nat) : bool :=
  Qltb (sig t c) (- threshold_at thr c)%Q
  && spatial_extremum Qleb Qltb Qleb sig neighbours C n t c.

Definition locally_exclusive_peak (sg : sign) (sig : signal) (thr : list Q)
    (neighbours : mask) (C n : nat) (t : Z) (c : nat) : bool :=
  match sg with
  | Pos => locally_exclusive_pos sig thr neighbours C n t c
  | Neg => locally_exclusive_neg sig thr neighbours C n t c
  | Both => locally_exclusive_neg sig thr neighbours C n t c
            || locally_exclusive_pos sig thr neighbours C n t c
  end.

(** The samples that [traces[n:-n]] keeps of a block of [N] samples; none
    when [n] is [0], since [-0] is [0]. *)
Definition interior (n N : nat) : list nat :=
  if (n =? 0)%nat then [] else seq n (N - 2 * n).

(** Lexicographic order on (sample, channel). *)
Definition peak_lt (p q : Z * nat) : Prop :=
  p.1 < q.1 \/ (p.1 = q.1 /\ (p.2 < q.2)%nat).

Definition peak_key (p : Peak) : Z * nat := (sample_ind p, channel_ind p).

(** ** Auxiliary definitions of the proofs and of the examples *)

(** The loop of [DetectPeakByChannel.detect_peaks] for one polarity. *)
Definition temporal_fold (before after : Q -> Q -> bool) (traces : block)
    (exclude_sweep_size : Z) (init : mask) : mask :=
  let traces_center := py_slice exclude_sweep_size (- exclude_sweep_size) traces in
  let length := Z.of_nat (List.length traces_center) in
  foldl (fun peak_mask (i : nat) =>
      let peak_mask :=
        np_and peak_mask
          (np_cmp before traces_center
             (py_slice (Z.of_nat i) (Z.of_nat i + length) traces)) in
      np_and peak_mask
        (np_cmp after traces_center
           (py_slice (exclude_sweep_size + Z.of_nat i + 1)
              (exclude_sweep_size + Z.of_nat i + 1 + length) traces)))
    init (range exclude_sweep_size).

Definition by_channel_mask_pos (traces : block) (thr : list Q) (ess : Z) : mask :=
  temporal_fold Qgtb Qgeb traces ess
    (np_cmp_row Qgtb (py_slice ess (- ess) traces) thr).

Definition by_channel_mask_neg (traces : block) (thr : list Q) (ess : Z) : mask :=
  temporal_fold Qltb Qleb traces ess
    (np_cmp_row Qltb (py_slice ess (- ess) traces) (np_neg thr)).

Section temporal_fold_closed_form_definitions.
Variables before after : Q -> Q -> bool.
Variable T : nat -> nat -> Q.
Variables N C n : nat.
Local Abbreviation L := (N - 2 * n)%nat.
Local Abbreviation traces := (tabulate2 T N C).
Local Abbreviation center := (tabulate2 (fun j c => T (j + n)%nat c) L C).

Definition temporal_step (peak_mask : mask) (i : nat) : mask :=
    np_and
      (np_and peak_mask
         (np_cmp before center
            (py_slice (Z.of_nat i) (Z.of_nat i + Z.of_nat L) traces)))
      (np_cmp after center
         (py_slice (Z.of_nat n + Z.of_nat i + 1)
            (Z.of_nat n + Z.of_nat i + 1 + Z.of_nat L) traces)).

End temporal_fold_closed_form_definitions.

Definition shaped {A} (L C : nat) (a : list (list A)) : Prop :=
  length a = L /\ rectangular C a = true.

Section numba_kernel_closed_form_definitions.
Variables same before after : Q -> Q -> bool.
Variables traces traces_center : block.
Variable exclude_sweep_size : Z.
Variable neighbours_mask : mask.
Variables L C : nat.

(** What one turn of the sweep loop tests ... *)
Definition sweep_test (chan_ind s neighbour i : nat) : bool :=
  ((chan_ind =? neighbour)%nat
   || same (at2 traces_center s chan_ind) (at2 traces_center s neighbour))
  && before (at2 traces_center s chan_ind) (at2 traces (s + i) neighbour)
  && after (at2 traces_center s chan_ind)
       (at2 traces
          (Z.to_nat (exclude_sweep_size + Z.of_nat s + Z.of_nat i + 1)) neighbour).

(** ... and what the neighbour loop tests for one cell. *)
Definition cell_test (num_chans chan_ind s : nat) : bool :=
  forallb (fun neighbour =>
      negb (mask_get neighbours_mask chan_ind neighbour)
      || forallb (sweep_test chan_ind s neighbour) (range exclude_sweep_size))
    (seq 0 num_chans).

(** One cell of the two outer loops. *)
Definition cell_step (num_chans chan_ind : nat) (peak_mask : mask) (s : nat) : mask :=
  if negb (mask_get peak_mask s chan_ind) then peak_mask
  else neighbour_loop same before after traces traces_center exclude_sweep_size
         neighbours_mask chan_ind s (seq 0 num_chans) peak_mask.

End numba_kernel_closed_form_definitions.

Definition locally_exclusive_mask_pos (traces : block) (thr : list Q) (ess : Z)
    (neighbours : mask) : mask :=
  _numba_detect_peak_pos traces (py_slice ess (- ess) traces)
    (np_cmp_row Qgtb (py_slice ess (- ess) traces) thr) ess neighbours.

Definition locally_exclusive_mask_neg (traces : block) (thr : list Q) (ess : Z)
    (neighbours : mask) : mask :=
  _numba_detect_peak_neg traces (py_slice ess (- ess) traces)
    (np_cmp_row Qltb (py_slice ess (- ess) traces) (np_neg thr)) ess neighbours.

Definition locally_exclusive_mask (sg : sign) (traces : block) (thr : list Q)
    (ess : Z) (neighbours : mask) : mask :=
  match sg with
  | Pos => locally_exclusive_mask_pos traces thr ess neighbours
  | Neg => locally_exclusive_mask_neg traces thr ess neighbours
  | Both => np_or (locally_exclusive_mask_neg traces thr ess neighbours)
              (locally_exclusive_mask_pos traces thr ess neighbours)
  end.

Definition pair_lt (p q : nat * nat) : Prop :=
  (p.1 < q.1)%nat \/ (p.1 = q.1 /\ (p.2 < q.2)%nat).







(** A recording, an environment and keyword arguments to evaluate the
    code on: one segment of 8 samples on 2 channels 100 um apart, sampled
    at 10 kHz, unit noise levels, cut into the chunks [0, 4) and [4, 8);
    the work-items of the device run in the order [order]. *)
Definition example_recording : Recording :=
  {| sampling_frequency := 10000;
     _recording_segments :=
       [[[0; 0]; [9; 0]; [0; 0]; [0; 0]; [0; 8]; [0; 0]; [0; 0]; [7; 0]]%Q] |}.

Definition example_env (order : nat -> list nat) : Env :=
  {| HAVE_NUMBA := true;
     HAVE_PYOPENCL := true;
     get_noise_levels := fun _ => [1; 1]%Q;
     get_channel_distances := fun _ => [[0; 100]; [100; 0]]%Q;
     check_graph := fun _ => Ok tt;
     run_nodes := fun _ _ _ => [];
     executor_chunks := fun _ => [(0%nat, 0, 4); (0%nat, 4, 8)];
     work_item_order := order |}.

Definition in_order (n : nat) : list nat := seq 0 n.
Definition reversed (n : nat) : list nat := rev (seq 0 n).

Definition example_kwargs (peak_sign : string) : method_kwargs :=
  {| peak_sign := peak_sign; detect_threshold := 5; exclude_sweep_ms := 1 # 10;
     local_radius_um := 50; noise_levels := None |}.

Definition peak_le (p q : Z * nat) : Prop :=
  p.1 < q.1 \/ (p.1 = q.1 /\ (p.2 <= q.2)%nat).

(** The recording segment extended by zeros on both sides, as
    [get_chunk_with_margin] pads it. *)
Definition segment_signal (segment : block) : signal :=
  fun t c => default 0%Q (segment_row segment t !! c).

(** The peak records of the samples [a, a + len) that satisfy [rule], in
    row-major order. *)
Definition chunk_peaks (rule : Z -> nat -> bool) (sig : signal) (k : nat)
    (a : Z) (len C : nat) : list Peak :=
  map (fun sc : nat * nat =>
      {| sample_ind := a + Z.of_nat sc.1; channel_ind := sc.2;
         amplitude := sig (a + Z.of_nat sc.1) sc.2; segment_ind := k |})
    (List.filter (fun sc => rule (a + Z.of_nat sc.1) sc.2)
       (pairs (seq 0 len) (seq 0 C))).

(** The chunks of consecutive lengths [lens], from [start] on. *)
Fixpoint chunks_from (k : nat) (start : Z) (lens : list nat)
    : list (nat * Z * Z) :=
  match lens with
  | [] => []
  | len :: lens' =>
      (k, start, start + Z.of_nat len)
      :: chunks_from k (start + Z.of_nat len) lens'
  end.

(** A method implements a rule with a window of [n] samples when its
    margin is [n], when on every block it returns the interior samples
    that satisfy the rule, and when the rule at [(t, c)] reads the signal
    at the times [t - n .. t + n] only. *)
Record implements_rule (env : Env) (M : DetectPeakMethod) (a : args M)
    (n C : nat) (rule : signal -> Z -> nat -> bool) : Prop := {
  rule_margin : get_method_margin M a = Z.of_nat n;
  rule_detect : forall traces,
    rectangular C traces = true ->
    detect_peaks_of M env traces a
    = Ok (a, map (fun sc : nat * nat => (Z.of_nat sc.1, sc.2))
               (List.filter (fun sc => rule (block_signal traces)
                                         (Z.of_nat sc.1) sc.2)
                  (pairs (interior n (length traces)) (seq 0 C))));
  rule_local : forall sig1 sig2 t1 t2 c,
    (forall d c', - Z.of_nat n <= d <= Z.of_nat n ->
                  sig1 (t1 + d) c' = sig2 (t2 + d) c') ->
    rule sig1 t1 c = rule sig2 t2 c
}.

(** The block on which the worker runs the method for the chunk [a, b):
    the samples [a - n, b + n) of the zero-extended segment. *)
Definition detection_block (segment : block) (n : nat) (a b : Z) : block :=
  tabulate2 (fun j c => segment_signal segment (a - Z.of_nat n + Z.of_nat j) c)
    (Z.to_nat (b - a) + 2 * n) (shape1 segment).

(** The peak record that the worker makes of the pair [sc] found in the
    detection block. *)
Definition rebased_peak (segment : block) (k n : nat) (a : Z) (sc : Z * nat)
    : Peak :=
  {| sample_ind := a - Z.of_nat n + sc.1; channel_ind := sc.2;
     amplitude := segment_signal segment (a - Z.of_nat n + sc.1) sc.2;
     segment_ind := k |}.

(** The peaks that the worker returns for the chunk [a, b) with a CPU
    method: none when the window is empty. *)
Definition worker_peaks (rule : signal -> Z -> nat -> bool) (segment : block)
    (k n : nat) (a b : Z) : list Peak :=
  if (n =? 0)%nat then []
  else chunk_peaks (rule (segment_signal segment)) (segment_signal segment)
         k a (Z.to_nat (b - a)) (shape1 segment).

Section processor_kernel_closed_form_definitions.
Variable ess : nat.
Variable num_channels : nat.
Variable traces : list Q.
Variable neighbours_mask : list bool.
Variable abs_threholds : list Q.

(** [traces[(pos + exclude_sweep_size + d) * num_channels + chan]] *)
Definition cl_value (pos : nat) (d : Z) (chan : nat) : Q :=
  traces_at traces
    ((Z.of_nat pos + Z.of_nat ess + d) * Z.of_nat num_channels + Z.of_nat chan).

Definition cl_window (before after : Q -> Q -> bool) (v : Q) (pos nb : nat)
    : bool :=
  forallb (fun i => before v (cl_value pos (- Z.of_nat i) nb)
                    && after v (cl_value pos (Z.of_nat i) nb))
    (seq 1 ess).

Definition cl_neighbour_test (same before after : Q -> Q -> bool) (v : Q)
    (pos chan nb : nat) : bool :=
  negb (default false (neighbours_mask !! (chan * num_channels + nb)%nat))
  || same v (cl_value pos 0 nb) && cl_window before after v pos nb.

(** What the kernel decides for the channel [chan] of the work-item
    [pos], for a comparison triple and a threshold test. *)
Definition cl_peak_test (sg : sign) (pos chan : nat) : bool :=
  let v := cl_value pos 0 chan in
  let thr := default 0%Q (abs_threholds !! chan) in
  match sg with
  | Pos => Qgtb v thr
           && forallb (cl_neighbour_test Qgeb Qgtb Qgeb v pos chan)
                (seq 0 num_channels)
  | Neg => Qltb v (- thr)%Q
           && forallb (cl_neighbour_test Qleb Qltb Qleb v pos chan)
                (seq 0 num_channels)
  | Both => false
  end.

(** The code of [peak_sign] in the kernel text. *)
Definition sign_code (sg : sign) : Z :=
  match sg with Pos => 1 | Neg => -1 | Both => 0 end.

(** [atomic_inc] and the two stores that follow it. *)
Definition cl_append (d : device) (p : Z * nat) : device :=
  {| num_peaks := num_peaks d + 1;
     peaks := <[Z.to_nat (num_peaks d) := p]> (peaks d) |}.

(** The pairs that the work-item [pos] appends, in channel order. *)
Definition cl_items (sg : sign) (pos : nat) : list (Z * nat) :=
  map (pair (Z.of_nat pos + Z.of_nat ess))
    (List.filter (cl_peak_test sg pos) (seq 0 num_channels)).

End processor_kernel_closed_form_definitions.

(** What stays true of the executor from one chunk to the next: the
    parameters do not change and, once the kernel is compiled for a chunk
    size, the buffer has room for every (sample, channel) pair; a kernel
    without work-items leaves the counter at zero. *)
Definition cl_inv (sg : sign) (thr : list Q) (n : nat) (neighbours : mask)
    (ex : OpenCLDetectPeakExecutor) : Prop :=
  cl_peak_sign ex = sign_name sg
  /\ cl_abs_threholds ex = thr
  /\ cl_exclude_sweep_size ex = Z.of_nat n
  /\ cl_neighbours_mask ex = neighbours
  /\ match cl_chunk_size ex with
     | None => True
     | Some cs =>
         kernel_peak_sign ex = sign_code sg
         /\ global_size ex = Z.of_nat cs - 2 * Z.of_nat n
         /\ length (peaks (dev ex)) = (length neighbours * cs)%nat
         /\ (global_size ex <= 0 -> num_peaks (dev ex) = 0)
     end.

(** Every work-item of the launch runs once. *)
Definition complete_schedule (env : Env) : Prop :=
  forall g, Permutation (work_item_order env g) (seq 0 g).

(** ** Vocabulary of the further properties *)

(** [f(traces)] applied entry by entry, as [-traces] or [k * traces]. *)
Definition block_map (f : Q -> Q) (traces : block) : block := map (map f) traces.

(** The opposite polarity. *)
Definition flip (sg : sign) : sign :=
  match sg with Pos => Neg | Neg => Pos | Both => Both end.

(** The value [x] is beyond the threshold [t] for the sign [sg]. *)
Definition crosses (sg : sign) (x t : Q) : Prop :=
  match sg with
  | Pos => (t < x)%Q
  | Neg => (x < - t)%Q
  | Both => (x < - t)%Q \/ (t < x)%Q
  end.

(** What a peak record of the chunk [a, b) of the segment [k] must be:
    inside the chunk, on a channel of the segment, tagged with the
    segment, carrying the value of the recording at its place, and that
    value beyond the threshold of its channel. *)
Definition peak_record_ok (sg : sign) (segment : block) (thr : list Q)
    (k : nat) (a b : Z) (p : Peak) : Prop :=
  a <= sample_ind p < b
  /\ (channel_ind p < shape1 segment)%nat
  /\ segment_ind p = k
  /\ amplitude p = at2 segment (Z.to_nat (sample_ind p)) (channel_ind p)
  /\ crosses sg (amplitude p) (threshold_at thr (channel_ind p)).

(** The chunks of a whole recording: segment after segment, each segment
    cut into consecutive chunks of the given lengths. *)
Fixpoint chunks_of_segments (k : nat) (lengths : list (list nat))
    : list (nat * Z * Z) :=
  match lengths with
  | [] => []
  | lens :: lengths' => chunks_from k 0 lens ++ chunks_of_segments (S k) lengths'
  end.

(** A chunking covers the recording when the chunks of each segment add
    up to the segment. *)
Definition covers (recording : Recording) (lengths : list (list nat)) : Prop :=
  Forall2 (fun segment lens => sum_list lens = length segment)
    (_recording_segments recording) lengths.

(** Every segment has at least one sample and [C] channels. *)
Definition segments_of_width (recording : Recording) (C : nat) : Prop :=
  Forall (fun segment => rectangular C segment = true /\ shape1 segment = C)
    (_recording_segments recording).

(** Order on peak records: by segment, then by sample, then by channel. *)
Definition record_lt (p q : Peak) : Prop :=
  (segment_ind p < segment_ind q)%nat
  \/ (segment_ind p = segment_ind q /\ peak_lt (peak_key p) (peak_key q)).

(** The peaks of the segments [k, k + 1, ...] for a rule, each segment
    taken as a single chunk. *)
Fixpoint recording_peaks (rule : signal -> Z -> nat -> bool) (n k : nat)
    (segments : list block) : list Peak :=
  match segments with
  | [] => []
  | segment :: segments' =>
      worker_peaks rule segment k n 0 (Z.of_nat (length segment))
      ++ recording_peaks rule n (S k) segments'
  end.

(** A recording of two segments and an executor that cuts it as the
    lengths say, for the examples of the driver. *)
Definition two_segments : Recording :=
  {| sampling_frequency := 10000;
     _recording_segments :=
       [[[0; 0]; [9; 0]; [0; 0]; [0; 0]; [0; 8]; [0; 0]; [0; 0]; [7; 0]];
        [[0; -6]; [0; 0]]]%Q |}.

Definition cutting (lengths : list (list nat)) : Env :=
  {| HAVE_NUMBA := true;
     HAVE_PYOPENCL := true;
     get_noise_levels := fun _ => [1; 1]%Q;
     get_channel_distances := fun _ => [[0; 100]; [100; 0]]%Q;
     check_graph := fun _ => Ok tt;
     run_nodes := fun _ _ _ => [];
     executor_chunks := fun _ => chunks_of_segments 0 lengths;
     work_item_order := fun n => seq 0 n |}.

(** * Properties *)

(** ** Lists and 2D arrays *)

Lemma map_fmap {A B} (f : A -> B) (l : list A) : map f l = f <$> l.
Proof. reflexivity. Qed.

Lemma lookup_map_seq {A} (f : nat -> A) (k n i : nat) :
  map f (seq k n) !! i = if decide (i < n)%nat then Some (f (k + i)%nat) else None.
Proof.
  rewrite map_fmap, list_lookup_fmap.
  case_decide as Hi.
  - by rewrite lookup_seq_lt.
  - rewrite lookup_seq_ge; [done | lia].
Qed.

Lemma tabulate2_lookup {A} (f : nat -> nat -> A) L C j :
  (j < L)%nat -> tabulate2 f L C !! j = Some (map (f j) (seq 0 C)).
Proof.
  intros Hj. unfold tabulate2. rewrite lookup_map_seq.
  case_decide; [done | lia].
Qed.

Lemma get2_tabulate2 {A} (d : A) f L C j c :
  (j < L)%nat -> (c < C)%nat -> get2 d (tabulate2 f L C) j c = f j c.
Proof.
  intros Hj Hc. unfold get2. rewrite tabulate2_lookup by done. simpl.
  rewrite lookup_map_seq. case_decide; [done | lia].
Qed.

Lemma length_tabulate2 {A} (f : nat -> nat -> A) L C :
  length (tabulate2 f L C) = L.
Proof. unfold tabulate2. by rewrite length_map, length_seq. Qed.

Lemma tabulate2_ext {A} (f g : nat -> nat -> A) L C :
  (forall j c, (j < L)%nat -> (c < C)%nat -> f j c = g j c) ->
  tabulate2 f L C = tabulate2 g L C.
Proof.
  intros H. unfold tabulate2. apply map_ext_in. intros j Hj.
  apply in_seq in Hj. apply map_ext_in. intros c Hc. apply in_seq in Hc.
  apply H; lia.
Qed.

Lemma rectangular_lookup {A} C (a : list (list A)) j row :
  rectangular C a = true -> a !! j = Some row -> length row = C.
Proof.
  unfold rectangular. rewrite forallb_forall. intros H Hj.
  apply list_elem_of_lookup_2, list_elem_of_In in Hj.
  apply H in Hj. by apply Nat.eqb_eq in Hj.
Qed.

Lemma rectangular_tabulate2 {A} d C (a : list (list A)) :
  rectangular C a = true -> a = tabulate2 (get2 d a) (length a) C.
Proof.
  intros Hr. apply list_eq. intros j.
  destruct (decide (j < length a)%nat) as [Hj|Hj].
  - rewrite tabulate2_lookup by done.
    destruct (lookup_lt_is_Some_2 a j Hj) as [row Hrow]. rewrite Hrow. f_equal.
    pose proof (rectangular_lookup C a j row Hr Hrow) as Hlen.
    apply list_eq. intros c. rewrite lookup_map_seq. case_decide as Hc.
    + unfold get2. rewrite Hrow. simpl.
      destruct (lookup_lt_is_Some_2 row c) as [x Hx]; [lia|]. by rewrite Hx.
    + apply lookup_ge_None_2. lia.
  - rewrite lookup_ge_None_2 by lia. symmetry. apply lookup_ge_None_2.
    rewrite length_tabulate2. lia.
Qed.

Lemma tabulate2_rectangular {A} (f : nat -> nat -> A) L C :
  rectangular C (tabulate2 f L C) = true.
Proof.
  unfold rectangular, tabulate2. rewrite forallb_forall. intros row Hrow.
  apply in_map_iff in Hrow as (j & <- & _).
  rewrite length_map, length_seq. apply Nat.eqb_refl.
Qed.

Lemma zip_with_map_same {A B D E} (h : B -> D -> E) (f : A -> B) (g : A -> D) l :
  zip_with h (map f l) (map g l) = map (fun x => h (f x) (g x)) l.
Proof. induction l as [|x l IH]; simpl; [done | by rewrite IH]. Qed.

Lemma zip_with2_tabulate2 {A B D} (h : A -> B -> D) f g L C :
  zip_with (zip_with h) (tabulate2 f L C) (tabulate2 g L C)
  = tabulate2 (fun j c => h (f j c) (g j c)) L C.
Proof.
  unfold tabulate2. rewrite zip_with_map_same. apply map_ext. intros j.
  apply zip_with_map_same.
Qed.

Lemma vector_tabulate {A} (d : A) (v : list A) :
  v = map (fun c => default d (v !! c)) (seq 0 (length v)).
Proof.
  apply list_eq. intros c. rewrite lookup_map_seq. case_decide as Hc.
  - destruct (lookup_lt_is_Some_2 v c Hc) as [x Hx]. simpl. by rewrite Hx.
  - apply lookup_ge_None_2. lia.
Qed.

Lemma np_cmp_row_tabulate2 op f L C thr :
  length thr = C ->
  np_cmp_row op (tabulate2 f L C) thr
  = tabulate2 (fun j c => op (f j c) (threshold_at thr c)) L C.
Proof.
  intros Hlen. unfold np_cmp_row, tabulate2. rewrite map_map.
  apply map_ext. intros j.
  rewrite (vector_tabulate 0%Q thr) at 1. rewrite Hlen.
  apply zip_with_map_same.
Qed.

Lemma drop_map_seq {A} (F : nat -> A) k n m :
  drop m (map F (seq k n)) = map F (seq (k + m) (n - m)).
Proof.
  apply list_eq. intros i. rewrite lookup_drop, !lookup_map_seq.
  repeat case_decide; try lia; [f_equal; f_equal; lia | done].
Qed.

Lemma take_map_seq {A} (F : nat -> A) k n m :
  take m (map F (seq k n)) = map F (seq k (min m n)).
Proof.
  apply list_eq. intros i. rewrite lookup_map_seq.
  destruct (decide (i < m)%nat) as [Him|Him].
  - rewrite lookup_take_lt by done. rewrite lookup_map_seq.
    repeat case_decide; try lia; done.
  - rewrite lookup_take_ge by lia. case_decide; [lia | done].
Qed.

Lemma map_seq_shift {A} (F : nat -> A) k n :
  map F (seq k n) = map (fun j => F (j + k)%nat) (seq 0 n).
Proof.
  apply list_eq. intros i. rewrite !lookup_map_seq.
  case_decide; [f_equal; f_equal; lia | done].
Qed.

(** A slice with bounds inside the array. *)
Lemma py_slice_tabulate2 {A} (f : nat -> nat -> A) N C (lo L : nat) :
  (lo + L <= N)%nat ->
  py_slice (Z.of_nat lo) (Z.of_nat lo + Z.of_nat L) (tabulate2 f N C)
  = tabulate2 (fun j c => f (j + lo)%nat c) L C.
Proof.
  intros Hle. unfold py_slice. rewrite length_tabulate2.
  destruct (Z.ltb_spec (Z.of_nat lo) 0) as [?|_]; [lia|].
  destruct (Z.ltb_spec (Z.of_nat lo + Z.of_nat L) 0) as [?|_]; [lia|].
  replace (Z.to_nat (Z.min (Z.of_nat lo + Z.of_nat L) (Z.of_nat N)
                     - Z.min (Z.of_nat lo) (Z.of_nat N))) with L by lia.
  replace (Z.to_nat (Z.min (Z.of_nat lo) (Z.of_nat N))) with lo by lia.
  unfold tabulate2. rewrite drop_map_seq, take_map_seq, map_seq_shift.
  simpl. replace (min L (N - lo)) with L by lia. done.
Qed.

(** An empty slice. *)
Lemma py_slice_empty {A} (a : Z) (l : list A) : 0 <= a -> py_slice a (a + 0) l = [].
Proof.
  intros Ha. unfold py_slice.
  destruct (Z.ltb_spec a 0) as [?|_]; [lia|].
  destruct (Z.ltb_spec (a + 0) 0) as [?|_]; [lia|].
  replace (Z.to_nat _) with 0%nat by lia. done.
Qed.

(** [traces[n:-n]] for [n >= 1]. *)
Lemma py_slice_center {A} (f : nat -> nat -> A) N C (n : nat) :
  (1 <= n)%nat ->
  py_slice (Z.of_nat n) (- Z.of_nat n) (tabulate2 f N C)
  = tabulate2 (fun j c => f (j + n)%nat c) (N - 2 * n) C.
Proof.
  intros Hn. unfold py_slice. rewrite length_tabulate2.
  destruct (Z.ltb_spec (Z.of_nat n) 0) as [?|_]; [lia|].
  destruct (Z.ltb_spec (- Z.of_nat n) 0) as [_|?]; [|lia].
  match goal with
  | |- take ?len (drop ?lo _) = _ =>
      assert (Hlen : len = (N - 2 * n)%nat) by lia;
      assert (Hlo : (n <= N)%nat -> lo = n) by lia;
      generalize dependent len; generalize dependent lo
  end.
  intros lo Hlo len ->.
  unfold tabulate2. rewrite drop_map_seq, take_map_seq, map_seq_shift.
  replace (min (N - 2 * n) (N - lo)) with (N - 2 * n)%nat by lia.
  apply map_ext_in. intros j Hj. apply in_seq in Hj.
  rewrite Hlo by lia. apply map_ext. intros c. f_equal.
Qed.

(** [traces[0:-0]] is empty. *)
Lemma py_slice_center_0 {A} (l : list A) : py_slice 0 (- 0) l = [].
Proof.
  unfold py_slice. change (- 0) with 0. change (0 <? 0) with false. cbv beta iota.
  by rewrite Z.sub_diag.
Qed.

Lemma filter_map_swap {A B} (P : B -> bool) (g : A -> B) l :
  List.filter P (map g l) = map g (List.filter (fun x => P (g x)) l).
Proof.
  induction l as [|x l IH]; simpl; [done|].
  destruct (P (g x)); simpl; by rewrite IH.
Qed.

Lemma nonzero_row_map (g : nat -> bool) k n :
  nonzero_row k (map g (seq k n)) = List.filter g (seq k n).
Proof.
  revert k. induction n as [|n IH]; intros k; simpl; [done|].
  rewrite IH. by destruct (g k).
Qed.

Lemma nonzero_from_tabulate (f : nat -> nat -> bool) s L C :
  nonzero_from s (map (fun j => map (f j) (seq 0 C)) (seq s L))
  = List.filter (fun sc => f sc.1 sc.2) (pairs (seq s L) (seq 0 C)).
Proof.
  revert s. induction L as [|L IH]; intros s; simpl; [done|].
  unfold pairs in *. simpl. rewrite List.filter_app, IH, nonzero_row_map.
  f_equal. by rewrite filter_map_swap.
Qed.

Lemma np_nonzero_tabulate2 (f : nat -> nat -> bool) L C :
  np_nonzero (tabulate2 f L C)
  = List.filter (fun sc => f sc.1 sc.2) (pairs (seq 0 L) (seq 0 C)).
Proof. apply nonzero_from_tabulate. Qed.

Lemma seq_shift_map n L : seq n L = map (fun j => (j + n)%nat) (seq 0 L).
Proof.
  rewrite <- (map_id (seq n L)) at 1. apply (map_seq_shift (fun s => s)).
Qed.

Lemma pairs_map h ss cs :
  pairs (map h ss) cs = map (fun sc => (h sc.1, sc.2)) (pairs ss cs).
Proof.
  unfold pairs. induction ss as [|s ss IH]; simpl; [done|].
  rewrite map_app, IH, map_map. done.
Qed.

Lemma pairs_shift n L cs :
  pairs (seq n L) cs = map (fun sc => (sc.1 + n, sc.2)%nat) (pairs (seq 0 L) cs).
Proof. rewrite seq_shift_map. apply pairs_map. Qed.

(** ** The by-channel mask in closed form *)

Lemma by_channel_detect_pos traces thr ess :
  DetectPeakByChannel.detect_peaks traces "pos" thr ess
  = Ok (shift_samples ess (np_nonzero (by_channel_mask_pos traces thr ess))).
Proof. reflexivity. Qed.

Lemma by_channel_detect_neg traces thr ess :
  DetectPeakByChannel.detect_peaks traces "neg" thr ess
  = Ok (shift_samples ess (np_nonzero (by_channel_mask_neg traces thr ess))).
Proof. reflexivity. Qed.

Lemma by_channel_detect_both traces thr ess :
  DetectPeakByChannel.detect_peaks traces "both" thr ess
  = Ok (shift_samples ess
          (np_nonzero (np_or (by_channel_mask_neg traces thr ess)
                         (by_channel_mask_pos traces thr ess)))).
Proof. reflexivity. Qed.

Section temporal_fold_closed_form.
Variables before after : Q -> Q -> bool.
Variable T : nat -> nat -> Q.
Variables N C n : nat.
Hypothesis n_pos : (1 <= n)%nat.

Local Abbreviation L := (N - 2 * n)%nat.
Local Abbreviation traces := (tabulate2 T N C).
Local Abbreviation center := (tabulate2 (fun j c => T (j + n)%nat c) L C).

Lemma temporal_step_tabulate2 (f : nat -> nat -> bool) i :
    (i < n)%nat ->
    (temporal_step before after T N C n) (tabulate2 f L C) i
    = tabulate2 (fun j c =>
          f j c && before (T (j + n)%nat c) (T (j + i)%nat c)
          && after (T (j + n)%nat c) (T (j + (n + i + 1))%nat c)) L C.
  Proof using n_pos.
    intros Hi. unfold temporal_step, np_and, np_cmp.
    destruct (decide (L = 0)%nat) as [HL|HL].
    - rewrite HL. reflexivity.
    - replace (Z.of_nat n + Z.of_nat i + 1) with (Z.of_nat (n + i + 1)) by lia.
      rewrite !py_slice_tabulate2 by lia.
      rewrite !zip_with2_tabulate2. reflexivity.
  Qed.

Lemma temporal_fold_tabulate2 (f : nat -> nat -> bool) idx :
    Forall (fun i => i < n)%nat idx ->
    foldl (temporal_step before after T N C n) (tabulate2 f L C) idx
    = tabulate2 (fun j c =>
          f j c
          && forallb (fun i =>
                 before (T (j + n)%nat c) (T (j + i)%nat c)
                 && after (T (j + n)%nat c) (T (j + (n + i + 1))%nat c)) idx)
        L C.
  Proof using n_pos.
    intros Hidx. revert f. induction Hidx as [|i idx Hi _ IH]; intros f; simpl.
    - apply tabulate2_ext. intros j c _ _. by rewrite andb_true_r.
    - rewrite temporal_step_tabulate2 by done. rewrite IH.
      apply tabulate2_ext. intros j c _ _. by rewrite !andb_assoc.
  Qed.

Lemma temporal_fold_closed (f : nat -> nat -> bool) :
    temporal_fold before after traces (Z.of_nat n) (tabulate2 f L C)
    = tabulate2 (fun j c =>
          f j c
          && forallb (fun i =>
                 before (T (j + n)%nat c) (T (j + i)%nat c)
                 && after (T (j + n)%nat c) (T (j + (n + i + 1))%nat c))
               (seq 0 n))
        L C.
  Proof using n_pos.
    unfold temporal_fold. rewrite py_slice_center by done.
    rewrite length_tabulate2. unfold range. rewrite Nat2Z.id.
    apply (temporal_fold_tabulate2 f (seq 0 n)).
    apply Forall_forall. intros i Hi. apply list_elem_of_In, in_seq in Hi. lia.
  Qed.

End temporal_fold_closed_form.

(** The two ways of walking the exclusion window agree. *)
Lemma window_extremum_block before after (traces : block) n j c nb :
  forallb (fun i =>
      before (at2 traces (j + n) c) (at2 traces (j + i) nb)
      && after (at2 traces (j + n) c) (at2 traces (j + (n + i + 1)) nb))
    (seq 0 n)
  = window_extremum before after (block_signal traces) n
      (Z.of_nat (j + n)) c nb.
Proof.
  assert (Hsig : forall s : nat, forall k, block_signal traces (Z.of_nat s) k
                                       = at2 traces s k).
  { intros s k. unfold block_signal.
    destruct (Z.ltb_spec (Z.of_nat s) 0); [lia|]. by rewrite Nat2Z.id. }
  unfold window_extremum. apply eq_true_iff_eq.
  rewrite !forallb_forall. split; intros H i Hi; apply in_seq in Hi.
  - rewrite Hsig.
    replace (Z.of_nat (j + n) - Z.of_nat i) with (Z.of_nat (j + (n - i))) by lia.
    replace (Z.of_nat (j + n) + Z.of_nat i)
      with (Z.of_nat (j + (n + (i - 1) + 1))) by lia.
    rewrite !Hsig. apply andb_true_iff. split.
    + assert (Hin : In (n - i)%nat (seq 0 n)) by (apply in_seq; lia).
      apply H in Hin. by apply andb_true_iff in Hin as [? _].
    + assert (Hin : In (i - 1)%nat (seq 0 n)) by (apply in_seq; lia).
      apply H in Hin. by apply andb_true_iff in Hin as [_ ?].
  - apply andb_true_iff. split.
    + assert (Hin : In (n - i)%nat (seq 1 n)) by (apply in_seq; lia).
      apply H in Hin. apply andb_true_iff in Hin as [Hb _].
      rewrite Hsig in Hb.
      replace (Z.of_nat (j + n) - Z.of_nat (n - i)) with (Z.of_nat (j + i)) in Hb
        by lia.
      by rewrite Hsig in Hb.
    + assert (Hin : In (i + 1)%nat (seq 1 n)) by (apply in_seq; lia).
      apply H in Hin. apply andb_true_iff in Hin as [_ Ha].
      rewrite Hsig in Ha.
      replace (Z.of_nat (j + n) + Z.of_nat (i + 1))
        with (Z.of_nat (j + (n + i + 1))) in Ha by lia.
      by rewrite Hsig in Ha.
Qed.

Lemma threshold_at_neg thr c :
  threshold_at (np_neg thr) c = (- threshold_at thr c)%Q.
Proof.
  unfold threshold_at, np_neg. rewrite map_fmap, list_lookup_fmap.
  by destruct (thr !! c).
Qed.

Lemma temporal_mask_closed before after traces thr (n C : nat) :
  (1 <= n)%nat -> rectangular C traces = true -> length thr = C ->
  temporal_fold before after traces (Z.of_nat n)
    (np_cmp_row before (py_slice (Z.of_nat n) (- Z.of_nat n) traces) thr)
  = tabulate2 (fun j c =>
        before (block_signal traces (Z.of_nat (j + n)) c) (threshold_at thr c)
        && window_extremum before after (block_signal traces) n
             (Z.of_nat (j + n)) c c)
      (length traces - 2 * n) C.
Proof.
  intros Hn Hrect Hthr.
  transitivity (tabulate2 (fun j c =>
      before (at2 traces (j + n) c) (threshold_at thr c)
      && forallb (fun i =>
             before (at2 traces (j + n) c) (at2 traces (j + i) c)
             && after (at2 traces (j + n) c) (at2 traces (j + (n + i + 1)) c))
           (seq 0 n)) (length traces - 2 * n) C).
  - pose proof (rectangular_tabulate2 0%Q C traces Hrect) as Htr.
    change (get2 0%Q traces) with (at2 traces) in Htr.
    remember (at2 traces) as T eqn:HT. remember (length traces) as N eqn:HN.
    rewrite Htr. rewrite py_slice_center by done.
    rewrite np_cmp_row_tabulate2 by done.
    by rewrite temporal_fold_closed.
  - apply tabulate2_ext. intros j c _ _.
    rewrite window_extremum_block. unfold block_signal.
    destruct (Z.ltb_spec (Z.of_nat (j + n)) 0); [lia|]. by rewrite Nat2Z.id.
Qed.

Lemma by_channel_mask_closed (sg : sign) traces thr (n C : nat) :
  (1 <= n)%nat -> rectangular C traces = true -> length thr = C ->
  match sg with
  | Pos => by_channel_mask_pos traces thr (Z.of_nat n)
  | Neg => by_channel_mask_neg traces thr (Z.of_nat n)
  | Both => np_or (by_channel_mask_neg traces thr (Z.of_nat n))
              (by_channel_mask_pos traces thr (Z.of_nat n))
  end
  = tabulate2 (fun j c =>
        by_channel_peak sg (block_signal traces) thr n (Z.of_nat (j + n)) c)
      (length traces - 2 * n) C.
Proof.
  intros Hn Hrect Hthr.
  assert (Hpos : by_channel_mask_pos traces thr (Z.of_nat n)
    = tabulate2 (fun j c =>
          by_channel_pos (block_signal traces) thr n (Z.of_nat (j + n)) c)
        (length traces - 2 * n) C).
  { unfold by_channel_mask_pos. by apply temporal_mask_closed. }
  assert (Hneg : by_channel_mask_neg traces thr (Z.of_nat n)
    = tabulate2 (fun j c =>
          by_channel_neg (block_signal traces) thr n (Z.of_nat (j + n)) c)
        (length traces - 2 * n) C).
  { unfold by_channel_mask_neg. rewrite (temporal_mask_closed _ _ _ _ n C);
      [|done|done|by unfold np_neg; rewrite length_map].
    apply tabulate2_ext. intros j c _ _. unfold by_channel_neg.
    by rewrite threshold_at_neg. }
  destruct sg; [done | done |].
  rewrite Hpos, Hneg. unfold np_or. by rewrite zip_with2_tabulate2.
Qed.

Lemma by_channel_detect (sg : sign) traces thr ess :
  DetectPeakByChannel.detect_peaks traces (sign_name sg) thr ess
  = Ok (shift_samples ess (np_nonzero
      match sg with
      | Pos => by_channel_mask_pos traces thr ess
      | Neg => by_channel_mask_neg traces thr ess
      | Both => np_or (by_channel_mask_neg traces thr ess)
                  (by_channel_mask_pos traces thr ess)
      end)).
Proof. by destruct sg. Qed.

Lemma shift_nonzero_tabulate2 (P : Z -> nat -> bool) (n L C : nat) :
  shift_samples (Z.of_nat n)
    (np_nonzero (tabulate2 (fun j c => P (Z.of_nat (j + n)) c) L C))
  = map (fun sc => (Z.of_nat sc.1, sc.2))
      (List.filter (fun sc => P (Z.of_nat sc.1) sc.2) (pairs (seq n L) (seq 0 C))).
Proof.
  rewrite np_nonzero_tabulate2, (pairs_shift n), filter_map_swap, map_map.
  unfold shift_samples. simpl. apply map_ext. intros [s c]. simpl.
  f_equal. lia.
Qed.

(** The by-channel detection in closed form: the interior samples that
    satisfy the rule, in row-major order. *)
Lemma by_channel_closed_form (sg : sign) traces thr (n C : nat) :
  rectangular C traces = true -> length thr = C ->
  DetectPeakByChannel.detect_peaks traces (sign_name sg) thr (Z.of_nat n)
  = Ok (map (fun sc => (Z.of_nat sc.1, sc.2))
          (List.filter
             (fun sc => by_channel_peak sg (block_signal traces) thr n
                          (Z.of_nat sc.1) sc.2)
             (pairs (interior n (length traces)) (seq 0 C)))).
Proof.
  intros Hrect Hthr. rewrite by_channel_detect. f_equal.
  destruct (decide (n = 0)%nat) as [->|Hn].
  - unfold interior, by_channel_mask_pos, by_channel_mask_neg, temporal_fold.
    simpl. rewrite py_slice_center_0. by destruct sg.
  - rewrite (by_channel_mask_closed sg traces thr n C) by (done || lia).
    unfold interior. destruct (Nat.eqb_spec n 0); [lia|].
    apply (shift_nonzero_tabulate2
             (fun t c => by_channel_peak sg (block_signal traces) thr n t c)).
Qed.

(** ** In-place updates of a 2D mask *)

Lemma rectangular_intro {A} C (a : list (list A)) :
  (forall j row, a !! j = Some row -> length row = C) -> rectangular C a = true.
Proof.
  intros H. unfold rectangular. apply forallb_forall. intros row Hrow.
  apply list_elem_of_In, list_elem_of_lookup_1 in Hrow as [j Hj].
  apply Nat.eqb_eq. by apply (H j).
Qed.

Lemma shaped_ext {A} (d : A) L C (a b : list (list A)) :
  shaped L C a -> shaped L C b ->
  (forall j c, (j < L)%nat -> (c < C)%nat -> get2 d a j c = get2 d b j c) ->
  a = b.
Proof.
  intros [Hla Hra] [Hlb Hrb] H.
  rewrite (rectangular_tabulate2 d C a Hra), (rectangular_tabulate2 d C b Hrb).
  rewrite Hla, Hlb. by apply tabulate2_ext.
Qed.

Lemma shaped_tabulate2 {A} (f : nat -> nat -> A) L C : shaped L C (tabulate2 f L C).
Proof. split; [apply length_tabulate2 | apply tabulate2_rectangular]. Qed.

Lemma mask_set_shaped L C m s c b : shaped L C m -> shaped L C (mask_set m s c b).
Proof.
  intros [Hl Hr]. unfold mask_set. split; [by rewrite length_alter|].
  apply rectangular_intro. intros j row. rewrite list_lookup_alter.
  case_decide as Hj.
  - subst j. destruct (m !! s) as [row0|] eqn:E; simpl; [|done].
    intros [= <-]. rewrite length_insert. by apply (rectangular_lookup C m s).
  - by apply rectangular_lookup.
Qed.

Lemma mask_get_set_eq L C m s c b :
  shaped L C m -> (s < L)%nat -> (c < C)%nat ->
  mask_get (mask_set m s c b) s c = b.
Proof.
  intros [Hl Hr] Hs Hc. unfold mask_get, get2, mask_set.
  rewrite list_lookup_alter. case_decide; [|done].
  destruct (lookup_lt_is_Some_2 m s) as [row Hrow]; [lia|]. rewrite Hrow. simpl.
  rewrite list_lookup_insert_eq; [done|].
  by rewrite (rectangular_lookup C m s row).
Qed.

Lemma mask_get_set_ne m s c b s' c' :
  (s, c) <> (s', c') -> mask_get (mask_set m s c b) s' c' = mask_get m s' c'.
Proof.
  intros Hne. unfold mask_get, get2, mask_set. rewrite list_lookup_alter.
  case_decide as Hs; [|done]. subst s'.
  destruct (m !! s) as [row|]; simpl; [|done].
  rewrite list_lookup_insert_ne; [done | congruence].
Qed.

Lemma mask_set_set L C m s c b b' :
  shaped L C m -> (s < L)%nat -> (c < C)%nat ->
  mask_set (mask_set m s c b) s c b' = mask_set m s c b'.
Proof.
  intros Hm Hs Hc. apply (shaped_ext false L C); auto using mask_set_shaped.
  intros j k _ _. fold (mask_get (mask_set (mask_set m s c b) s c b') j k).
  fold (mask_get (mask_set m s c b') j k).
  destruct (decide ((s, c) = (j, k))) as [[= <- <-]|Hne].
  - by rewrite !(mask_get_set_eq L C) by auto using mask_set_shaped.
  - by rewrite !mask_get_set_ne by done.
Qed.

Lemma mask_set_get L C m s c :
  shaped L C m -> mask_set m s c (mask_get m s c) = m.
Proof.
  intros Hm. apply (shaped_ext false L C); auto using mask_set_shaped.
  intros j k Hj Hk. fold (mask_get (mask_set m s c (mask_get m s c)) j k).
  fold (mask_get m j k).
  destruct (decide ((s, c) = (j, k))) as [[= <- <-]|Hne].
  - by rewrite (mask_get_set_eq L C).
  - by rewrite mask_get_set_ne.
Qed.

Lemma mask_and_set_set L C m s c v b :
  shaped L C m -> (s < L)%nat -> (c < C)%nat ->
  mask_and_set (mask_set m s c v) s c b = mask_set m s c (v && b).
Proof.
  intros Hm Hs Hc. unfold mask_and_set.
  by rewrite (mask_get_set_eq L C), (mask_set_set L C).
Qed.

Lemma foldl_fixed {A B} (f : A -> B -> A) a l :
  (forall b, f a b = a) -> foldl f a l = a.
Proof. intros H. induction l as [|b l IH]; simpl; [done | by rewrite H]. Qed.

(** ** The compiled kernel in closed form *)

Section numba_kernel_closed_form.
Variables same before after : Q -> Q -> bool.
Variables traces traces_center : block.
Variable exclude_sweep_size : Z.
Variable neighbours_mask : mask.
Variables L C : nat.

Lemma sweep_loop_closed chan_ind s neighbour sweep peak_mask :
  shaped L C peak_mask -> (s < L)%nat -> (chan_ind < C)%nat ->
  sweep_loop same before after traces traces_center exclude_sweep_size
    chan_ind s neighbour sweep peak_mask
  = mask_set peak_mask s chan_ind
      (mask_get peak_mask s chan_ind
       && forallb ((sweep_test same before after traces traces_center exclude_sweep_size) chan_ind s neighbour) sweep).
Proof using Type.
  intros Hm Hs Hc. revert peak_mask Hm.
  induction sweep as [|i sweep IH]; intros pm Hm; simpl.
  - by rewrite andb_true_r, (mask_set_get L C).
  - set (v := mask_get pm s chan_ind).
    set (a := same (at2 traces_center s chan_ind) (at2 traces_center s neighbour)).
    set (b := before (at2 traces_center s chan_ind) (at2 traces (s + i) neighbour)).
    set (d := after (at2 traces_center s chan_ind) _).
    assert (H1 : (if negb (chan_ind =? neighbour)%nat
                  then mask_and_set pm s chan_ind a else pm)
                 = mask_set pm s chan_ind (v && ((chan_ind =? neighbour)%nat || a))).
    { destruct (chan_ind =? neighbour)%nat; simpl.
      - by rewrite andb_true_r, (mask_set_get L C).
      - done. }
    rewrite H1, !(mask_and_set_set L C) by done.
    rewrite (mask_get_set_eq L C) by done.
    unfold sweep_test at 1. fold a b d.
    destruct (v && ((chan_ind =? neighbour)%nat || a) && b && d) eqn:E; simpl.
    + rewrite IH by (by apply mask_set_shaped).
      rewrite (mask_get_set_eq L C), (mask_set_set L C) by done.
      f_equal. simpl.
      destruct v; [|done]. simpl in *. by rewrite E.
    + f_equal. destruct v; [|done]. simpl in *. by rewrite E.
Qed.

Lemma neighbour_loop_closed chan_ind s ns peak_mask :
  shaped L C peak_mask -> (s < L)%nat -> (chan_ind < C)%nat ->
  neighbour_loop same before after traces traces_center exclude_sweep_size
    neighbours_mask chan_ind s ns peak_mask
  = mask_set peak_mask s chan_ind
      (mask_get peak_mask s chan_ind
       && forallb (fun neighbour =>
              negb (mask_get neighbours_mask chan_ind neighbour)
              || forallb ((sweep_test same before after traces traces_center exclude_sweep_size) chan_ind s neighbour)
                   (range exclude_sweep_size)) ns).
Proof using Type.
  intros Hm Hs Hc. revert peak_mask Hm.
  induction ns as [|nb ns IH]; intros pm Hm; simpl.
  - by rewrite andb_true_r, (mask_set_get L C).
  - destruct (mask_get neighbours_mask chan_ind nb); simpl.
    + rewrite sweep_loop_closed by done.
      rewrite (mask_get_set_eq L C) by done.
      destruct (mask_get pm s chan_ind
                && forallb ((sweep_test same before after traces traces_center exclude_sweep_size) chan_ind s nb) (range exclude_sweep_size))
        eqn:E; simpl.
      * rewrite IH by (by apply mask_set_shaped).
        rewrite (mask_get_set_eq L C), (mask_set_set L C) by done.
        f_equal. apply andb_true_iff in E as [-> ->]. done.
      * f_equal. destruct (mask_get pm s chan_ind); [|done].
        simpl in *. by rewrite E.
    + by apply IH.
Qed.

Lemma cell_step_closed num_chans chan_ind s peak_mask :
  shaped L C peak_mask -> (s < L)%nat -> (chan_ind < C)%nat ->
  (cell_step same before after traces traces_center exclude_sweep_size neighbours_mask) num_chans chan_ind peak_mask s
  = mask_set peak_mask s chan_ind
      (mask_get peak_mask s chan_ind && (cell_test same before after traces traces_center exclude_sweep_size neighbours_mask) num_chans chan_ind s).
Proof using Type.
  intros Hm Hs Hc. unfold cell_step.
  destruct (mask_get peak_mask s chan_ind) eqn:E; simpl.
  - rewrite neighbour_loop_closed by done. by rewrite E.
  - by rewrite <- E, (mask_set_get L C).
Qed.

Lemma sample_loop_closed num_chans chan_ind ss peak_mask :
  shaped L C peak_mask -> (chan_ind < C)%nat -> Forall (fun s => s < L)%nat ss ->
  let peak_mask' := foldl ((cell_step same before after traces traces_center exclude_sweep_size neighbours_mask) num_chans chan_ind) peak_mask ss in
  shaped L C peak_mask'
  /\ forall j c,
       mask_get peak_mask' j c
       = if decide (c = chan_ind /\ j ∈ ss)
         then mask_get peak_mask j c && (cell_test same before after traces traces_center exclude_sweep_size neighbours_mask) num_chans chan_ind j
         else mask_get peak_mask j c.
Proof using Type.
  intros Hm Hc Hss. revert peak_mask Hm.
  induction Hss as [|s ss Hs _ IH]; intros pm Hm; simpl.
  - split; [done|]. intros j c. case_decide as H; [|done].
    destruct H as [_ H]. by apply elem_of_nil in H.
  - rewrite cell_step_closed by done.
    destruct (IH (mask_set pm s chan_ind
                    (mask_get pm s chan_ind && (cell_test same before after traces traces_center exclude_sweep_size neighbours_mask) num_chans chan_ind s)))
      as [Hsh Hget]; [by apply mask_set_shaped|].
    split; [done|]. intros j c. rewrite Hget.
    destruct (decide ((s, chan_ind) = (j, c))) as [[= <- <-]|Hne].
    + rewrite (mask_get_set_eq L C) by done.
      rewrite (decide_True (P := chan_ind = chan_ind /\ s ∈ s :: ss))
        by (split; [done | apply list_elem_of_here]).
      case_decide; [by rewrite <- andb_assoc, andb_diag | done].
    + rewrite mask_get_set_ne by done.
      apply decide_ext. rewrite elem_of_cons. split; [tauto|].
      intros [-> [->|?]]; [congruence | done].
Qed.

Lemma channel_loop_closed num_chans chans peak_mask :
  shaped L C peak_mask -> Forall (fun c => c < C)%nat chans ->
  let peak_mask' :=
    foldl (fun peak_mask chan_ind =>
        foldl ((cell_step same before after traces traces_center exclude_sweep_size neighbours_mask) num_chans chan_ind) peak_mask (seq 0 (length peak_mask)))
      peak_mask chans in
  shaped L C peak_mask'
  /\ forall j c, (j < L)%nat ->
       mask_get peak_mask' j c
       = if decide (c ∈ chans)
         then mask_get peak_mask j c && (cell_test same before after traces traces_center exclude_sweep_size neighbours_mask) num_chans c j
         else mask_get peak_mask j c.
Proof using Type.
  intros Hm Hch. revert peak_mask Hm.
  induction Hch as [|chan chans Hc _ IH]; intros pm Hm; simpl.
  - split; [done | by intros].
  - destruct (sample_loop_closed num_chans chan (seq 0 (length pm)) pm)
      as [Hsh Hget]; [done | done | |].
    { apply Forall_forall. intros s Hin. apply list_elem_of_In, in_seq in Hin.
      destruct Hm as [Hl _]. lia. }
    destruct (IH _ Hsh) as [Hsh' Hget']. split; [done|].
    intros j c Hj. rewrite Hget' by done. rewrite Hget.
    assert (Hin : j ∈ seq 0 (length pm)).
    { apply list_elem_of_In, in_seq. destruct Hm as [Hl _]. lia. }
    destruct (decide (c = chan)) as [->|Hne].
    + rewrite (decide_True (P := chan = chan /\ j ∈ seq 0 (length pm))) by done.
      rewrite (decide_True (P := chan ∈ chan :: chans))
        by apply list_elem_of_here.
      case_decide; [by rewrite <- andb_assoc, andb_diag | done].
    + rewrite (decide_False (P := c = chan /\ j ∈ seq 0 (length pm))) by tauto.
      apply decide_ext. rewrite elem_of_cons. tauto.
Qed.

Lemma numba_detect_peak_closed peak_mask :
  shaped L C peak_mask -> (L = 0%nat \/ shape1 traces_center = C) ->
  numba_detect_peak same before after traces traces_center exclude_sweep_size
    neighbours_mask peak_mask
  = tabulate2 (fun j c => mask_get peak_mask j c && (cell_test same before after traces traces_center exclude_sweep_size neighbours_mask) C c j) L C.
Proof using Type.
  intros Hm [->|HC].
  - destruct Hm as [Hl _]. apply nil_length_inv in Hl. subst peak_mask.
    unfold numba_detect_peak. by apply foldl_fixed.
  - unfold numba_detect_peak. rewrite HC.
    destruct (channel_loop_closed C (seq 0 C) peak_mask) as [Hsh Hget]; [done| |].
    { apply Forall_forall. intros c Hin. apply list_elem_of_In, in_seq in Hin. lia. }
    fold ((cell_step same before after traces traces_center exclude_sweep_size neighbours_mask) C) in Hsh, Hget |- *.
    apply (shaped_ext false L C); [done | apply shaped_tabulate2 |].
    intros j c Hj Hc. rewrite get2_tabulate2 by done.
    change (get2 false ?m j c) with (mask_get m j c). rewrite Hget by done.
    case_decide as H; [done|]. exfalso. apply H, list_elem_of_In, in_seq. lia.
Qed.

End numba_kernel_closed_form.

Lemma forallb_ext_in {A} (f g : A -> bool) l :
  (forall x, In x l -> f x = g x) -> forallb f l = forallb g l.
Proof.
  intros H. induction l as [|x l IH]; simpl; [done|].
  rewrite H by (by left). rewrite IH; [done|]. intros y Hy. apply H. by right.
Qed.

Lemma forallb_and_const {A} (x : bool) (f : A -> bool) l :
  l <> [] -> forallb (fun i => x && f i) l = x && forallb f l.
Proof.
  intros Hl. destruct x; simpl; [done|].
  destruct l as [|a l]; [done | reflexivity].
Qed.

Lemma shape1_tabulate2 {A} (f : nat -> nat -> A) L C :
  (L = 0)%nat \/ shape1 (tabulate2 f L C) = C.
Proof.
  destruct L as [|L]; [by left | right]. simpl.
  by rewrite length_map, length_seq.
Qed.

(** The test of one cell is the spatial rule of the specification. *)
Lemma cell_test_spatial same before after traces neighbours (N C n j c : nat) :
  (1 <= n)%nat -> (j < N - 2 * n)%nat -> (c < C)%nat ->
  cell_test same before after traces
    (tabulate2 (fun j c => at2 traces (j + n) c) (N - 2 * n) C)
    (Z.of_nat n) neighbours C c j
  = spatial_extremum same before after (block_signal traces) neighbours C n
      (Z.of_nat (j + n)) c.
Proof.
  intros Hn Hj Hc. unfold cell_test, spatial_extremum.
  assert (Hsig : block_signal traces (Z.of_nat (j + n)) = at2 traces (j + n)).
  { unfold block_signal. destruct (Z.ltb_spec (Z.of_nat (j + n)) 0); [lia|].
    by rewrite Nat2Z.id. }
  apply forallb_ext_in. intros nb Hnb. apply in_seq in Hnb. f_equal.
  rewrite <- window_extremum_block, Hsig.
  unfold range. rewrite Nat2Z.id.
  rewrite <- forallb_and_const by (destruct n; [lia | done]).
  apply forallb_ext_in. intros i Hi. unfold sweep_test, at2.
  rewrite !get2_tabulate2 by lia.
  replace (Z.to_nat (Z.of_nat n + Z.of_nat j + Z.of_nat i + 1))
    with (j + (n + i + 1))%nat by lia.
  by rewrite !andb_assoc.
Qed.

Lemma locally_exclusive_detect (sg : sign) traces thr ess neighbours :
  DetectPeakLocallyExclusive.detect_peaks true traces (sign_name sg) thr ess
    neighbours
  = Ok (shift_samples ess
          (np_nonzero (locally_exclusive_mask sg traces thr ess neighbours))).
Proof. by destruct sg. Qed.

Lemma spatial_mask_closed same before after traces thr neighbours (n C : nat) :
  (1 <= n)%nat -> rectangular C traces = true -> length thr = C ->
  numba_detect_peak same before after traces
    (py_slice (Z.of_nat n) (- Z.of_nat n) traces) (Z.of_nat n) neighbours
    (np_cmp_row before (py_slice (Z.of_nat n) (- Z.of_nat n) traces) thr)
  = tabulate2 (fun j c =>
        before (block_signal traces (Z.of_nat (j + n)) c) (threshold_at thr c)
        && spatial_extremum same before after (block_signal traces) neighbours
             C n (Z.of_nat (j + n)) c)
      (length traces - 2 * n) C.
Proof.
  intros Hn Hrect Hthr.
  pose proof (rectangular_tabulate2 0%Q C traces Hrect) as Htr.
  change (get2 0%Q traces) with (at2 traces) in Htr.
  assert (Hc : py_slice (Z.of_nat n) (- Z.of_nat n) traces
               = tabulate2 (fun j c => at2 traces (j + n) c)
                   (length traces - 2 * n) C).
  { rewrite Htr at 1. by rewrite py_slice_center. }
  rewrite Hc, np_cmp_row_tabulate2 by done.
  rewrite (numba_detect_peak_closed _ _ _ _ _ _ _ (length traces - 2 * n) C);
    [|apply shaped_tabulate2 | apply shape1_tabulate2].
  apply tabulate2_ext. intros j c Hj Hcc.
  unfold mask_get. rewrite get2_tabulate2 by done.
  rewrite cell_test_spatial by done. f_equal.
  unfold block_signal. destruct (Z.ltb_spec (Z.of_nat (j + n)) 0); [lia|].
  by rewrite Nat2Z.id.
Qed.

Lemma locally_exclusive_mask_closed (sg : sign) traces thr neighbours (n C : nat) :
  (1 <= n)%nat -> rectangular C traces = true -> length thr = C ->
  locally_exclusive_mask sg traces thr (Z.of_nat n) neighbours
  = tabulate2 (fun j c =>
        locally_exclusive_peak sg (block_signal traces) thr neighbours C n
          (Z.of_nat (j + n)) c)
      (length traces - 2 * n) C.
Proof.
  intros Hn Hrect Hthr.
  assert (Hpos : locally_exclusive_mask_pos traces thr (Z.of_nat n) neighbours
    = tabulate2 (fun j c =>
          locally_exclusive_pos (block_signal traces) thr neighbours C n
            (Z.of_nat (j + n)) c) (length traces - 2 * n) C).
  { unfold locally_exclusive_mask_pos, _numba_detect_peak_pos.
    by apply spatial_mask_closed. }
  assert (Hneg : locally_exclusive_mask_neg traces thr (Z.of_nat n) neighbours
    = tabulate2 (fun j c =>
          locally_exclusive_neg (block_signal traces) thr neighbours C n
            (Z.of_nat (j + n)) c) (length traces - 2 * n) C).
  { unfold locally_exclusive_mask_neg, _numba_detect_peak_neg.
    rewrite (spatial_mask_closed _ _ _ _ _ _ n C);
      [|done|done|by unfold np_neg; rewrite length_map].
    apply tabulate2_ext. intros j c _ _. unfold locally_exclusive_neg.
    by rewrite threshold_at_neg. }
  destruct sg; [done | done |]. simpl.
  rewrite Hpos, Hneg. unfold np_or. by rewrite zip_with2_tabulate2.
Qed.

(** The locally-exclusive detection in closed form. *)
Lemma locally_exclusive_closed_form (sg : sign) traces thr neighbours (n C : nat) :
  rectangular C traces = true -> length thr = C ->
  DetectPeakLocallyExclusive.detect_peaks true traces (sign_name sg) thr
    (Z.of_nat n) neighbours
  = Ok (map (fun sc => (Z.of_nat sc.1, sc.2))
          (List.filter
             (fun sc => locally_exclusive_peak sg (block_signal traces) thr
                          neighbours C n (Z.of_nat sc.1) sc.2)
             (pairs (interior n (length traces)) (seq 0 C)))).
Proof.
  intros Hrect Hthr. rewrite locally_exclusive_detect. f_equal.
  destruct (decide (n = 0)%nat) as [->|Hn].
  - unfold interior, locally_exclusive_mask, locally_exclusive_mask_pos,
      locally_exclusive_mask_neg, _numba_detect_peak_pos, _numba_detect_peak_neg,
      numba_detect_peak.
    simpl. rewrite py_slice_center_0. by destruct sg.
  - rewrite (locally_exclusive_mask_closed sg traces thr neighbours n C)
      by (done || lia).
    unfold interior. destruct (Nat.eqb_spec n 0); [lia|].
    apply (shift_nonzero_tabulate2
             (fun t c => locally_exclusive_peak sg (block_signal traces) thr
                           neighbours C n t c)).
Qed.

(** ** Comparisons *)

Lemma Qgtb_lt x y : Qgtb x y = true <-> (y < x)%Q.
Proof.
  unfold Qgtb. rewrite negb_true_iff, <- not_true_iff_false, Qle_bool_iff.
  split; [apply Qnot_le_lt | apply Qlt_not_le].
Qed.

Lemma Qltb_lt x y : Qltb x y = true <-> (x < y)%Q.
Proof.
  unfold Qltb. rewrite negb_true_iff, <- not_true_iff_false, Qle_bool_iff.
  split; [apply Qnot_le_lt | apply Qlt_not_le].
Qed.

Lemma Qgeb_le x y : Qgeb x y = true <-> (y <= x)%Q.
Proof. apply Qle_bool_iff. Qed.

Lemma Qleb_le x y : Qleb x y = true <-> (x <= y)%Q.
Proof. apply Qle_bool_iff. Qed.

(** A sample cannot be strictly above a later one that is at least as
    high, nor strictly below a later one that is at least as low. *)
Lemma Qgtb_Qgeb_absurd x y : Qgtb y x = true -> Qgeb x y = true -> False.
Proof. unfold Qgtb, Qgeb. intros H1 H2. rewrite H2 in H1. discriminate. Qed.

Lemma Qltb_Qleb_absurd x y : Qltb y x = true -> Qleb x y = true -> False.
Proof. unfold Qltb, Qleb. intros H1 H2. rewrite H2 in H1. discriminate. Qed.

Lemma window_extremum_spec before after sig n t c nb :
  window_extremum before after sig n t c nb = true
  <-> forall i, (1 <= i <= n)%nat ->
        before (sig t c) (sig (t - Z.of_nat i) nb) = true
        /\ after (sig t c) (sig (t + Z.of_nat i) nb) = true.
Proof.
  unfold window_extremum. rewrite forallb_forall. split.
  - intros H i Hi. apply andb_true_iff, H, in_seq. lia.
  - intros H i Hi. apply andb_true_iff, H. apply in_seq in Hi. lia.
Qed.

Lemma In_closed_form (P : Z -> nat -> bool) n N C (s : Z) (c : nat) :
  In (s, c)
    (map (fun sc : nat * nat => (Z.of_nat sc.1, sc.2))
       (List.filter (fun sc => P (Z.of_nat sc.1) sc.2)
          (pairs (interior n N) (seq 0 C))))
  <-> (exists j, s = Z.of_nat j /\ In j (interior n N)) /\ (c < C)%nat
      /\ P s c = true.
Proof.
  rewrite in_map_iff. split.
  - intros ([j c'] & [= <- <-] & Hin). apply filter_In in Hin as [Hin HP].
    unfold pairs in Hin. apply in_flat_map in Hin as (j' & Hj' & Hin).
    apply in_map_iff in Hin as (c'' & [= <- <-] & Hc). apply in_seq in Hc.
    simpl in *. split; [by exists j'|]. split; [lia | done].
  - intros ((j & -> & Hj) & Hc & HP). exists (j, c). split; [done|].
    apply filter_In. split; [|done]. unfold pairs. apply in_flat_map.
    exists j. split; [done|]. apply in_map, in_seq. lia.
Qed.

Lemma In_interior n N j :
  In j (interior n N) <-> (1 <= n)%nat /\ (n <= j < N - n)%nat.
Proof.
  unfold interior. destruct (Nat.eqb_spec n 0) as [->|Hn]; simpl.
  - split; [done | lia].
  - rewrite in_seq. lia.
Qed.

(** ** Order of the output of [np.nonzero] *)

Lemma nonzero_row_sorted k row :
  StronglySorted lt (nonzero_row k row)
  /\ Forall (fun c => k <= c)%nat (nonzero_row k row).
Proof.
  revert k. induction row as [|b row IH]; intros k; simpl.
  - split; constructor.
  - destruct (IH (S k)) as [Hs Hf]. destruct b; simpl.
    + split.
      * constructor; [done|]. eapply Forall_impl; [exact Hf|]. simpl. lia.
      * constructor; [lia|]. eapply Forall_impl; [exact Hf|]. simpl. lia.
    + split; [done|]. eapply Forall_impl; [exact Hf|]. simpl. lia.
Qed.

Lemma nonzero_from_sorted s m :
  StronglySorted pair_lt (nonzero_from s m)
  /\ Forall (fun p => s <= p.1)%nat (nonzero_from s m).
Proof.
  revert s. induction m as [|row m IH]; intros s; simpl.
  - split; constructor.
  - destruct (IH (S s)) as [Hs Hf]. destruct (nonzero_row_sorted 0 row) as [Hr _].
    split.
    + apply StronglySorted_app_2.
      * intros p q Hp Hq. apply list_elem_of_In, in_map_iff in Hp as (c & <- & _).
        rewrite Forall_forall in Hf. apply Hf in Hq. left. simpl. lia.
      * rewrite map_fmap. eapply StronglySorted_fmap; [|exact Hr].
        intros c c' Hc. right. simpl. done.
      * done.
    + apply Forall_app. split.
      * apply Forall_forall. intros p Hp.
        apply list_elem_of_In, in_map_iff in Hp as (c & <- & _). simpl. lia.
      * eapply Forall_impl; [exact Hf|]. simpl. lia.
Qed.

Lemma np_nonzero_sorted m : StronglySorted pair_lt (np_nonzero m).
Proof. apply nonzero_from_sorted. Qed.

Lemma shift_samples_sorted k l :
  StronglySorted pair_lt l -> StronglySorted peak_lt (shift_samples k l).
Proof.
  intros H. unfold shift_samples. rewrite map_fmap.
  eapply StronglySorted_fmap; [|exact H].
  intros [s c] [s' c'] [Hlt|[Heq Hlt]]; simpl in *; [left | right]; simpl; lia.
Qed.

Lemma peak_lt_irrefl p : ~ peak_lt p p.
Proof. unfold peak_lt. lia. Qed.

Lemma StronglySorted_NoDup {A} (R : relation A) (l : list A) :
  (forall x, ~ R x x) -> StronglySorted R l -> NoDup l.
Proof.
  intros Hirr. induction 1 as [|x l _ IH Hf]; constructor; [|done].
  intros Hin. rewrite Forall_forall in Hf. by apply Hf, Hirr in Hin.
Qed.

(** The output of both CPU methods is some mask read by [np.nonzero],
    shifted. *)
Lemma by_channel_sorted traces sg thr ess found :
  DetectPeakByChannel.detect_peaks traces sg thr ess = Ok found ->
  StronglySorted peak_lt found.
Proof.
  unfold DetectPeakByChannel.detect_peaks.
  repeat match goal with
         | |- context [if ?b then _ else _] => destruct b
         | |- context [match ?o with Some _ => _ | None => _ end] => destruct o
         end; intros [= <-] || discriminate;
    apply shift_samples_sorted, np_nonzero_sorted.
Qed.

Lemma locally_exclusive_sorted have traces sg thr ess neighbours found :
  DetectPeakLocallyExclusive.detect_peaks have traces sg thr ess neighbours
  = Ok found ->
  StronglySorted peak_lt found.
Proof.
  unfold DetectPeakLocallyExclusive.detect_peaks.
  repeat match goal with
         | |- context [if ?b then _ else _] => destruct b
         | |- context [match ?o with Some _ => _ | None => _ end] => destruct o
         end; intros [= <-] || discriminate;
    apply shift_samples_sorted, np_nonzero_sorted.
Qed.

(** ** Sign symmetry *)

(** The [both] rule is the disjunction of the two polarities, for either
    CPU method; the proof goes through the closed forms. *)
Lemma closed_form_union (P Q : Z -> nat -> bool) n N C p :
  In p (map (fun sc : nat * nat => (Z.of_nat sc.1, sc.2))
          (List.filter (fun sc => Q (Z.of_nat sc.1) sc.2 || P (Z.of_nat sc.1) sc.2)
             (pairs (interior n N) (seq 0 C))))
  <-> In p (map (fun sc : nat * nat => (Z.of_nat sc.1, sc.2))
             (List.filter (fun sc => P (Z.of_nat sc.1) sc.2)
                (pairs (interior n N) (seq 0 C))))
      \/ In p (map (fun sc : nat * nat => (Z.of_nat sc.1, sc.2))
               (List.filter (fun sc => Q (Z.of_nat sc.1) sc.2)
                  (pairs (interior n N) (seq 0 C)))).
Proof.
  destruct p as [s c].
  rewrite (In_closed_form (fun t c => Q t c || P t c)), !In_closed_form.
  rewrite orb_true_iff. tauto.
Qed.

(** C7. Sign symmetry: on one trace block, with the same thresholds and
    exclusion window, the peaks returned with [peak_sign = 'both'] are
    exactly those returned with ['pos'] together with those returned with
    ['neg'], none of them twice; for the by-channel method and for the
    CPU locally-exclusive method. *)
Theorem sign_symmetry (traces : block) (thr : list Q) (neighbours : mask)
    (n C : nat) :
  rectangular C traces = true -> length thr = C ->
  (exists pos neg both,
      DetectPeakByChannel.detect_peaks traces "pos" thr (Z.of_nat n) = Ok pos
      /\ DetectPeakByChannel.detect_peaks traces "neg" thr (Z.of_nat n) = Ok neg
      /\ DetectPeakByChannel.detect_peaks traces "both" thr (Z.of_nat n) = Ok both
      /\ (forall p, In p both <-> In p pos \/ In p neg)
      /\ NoDup both)
  /\ (exists pos neg both,
        DetectPeakLocallyExclusive.detect_peaks true traces "pos" thr
          (Z.of_nat n) neighbours = Ok pos
        /\ DetectPeakLocallyExclusive.detect_peaks true traces "neg" thr
             (Z.of_nat n) neighbours = Ok neg
        /\ DetectPeakLocallyExclusive.detect_peaks true traces "both" thr
             (Z.of_nat n) neighbours = Ok both
        /\ (forall p, In p both <-> In p pos \/ In p neg)
        /\ NoDup both).
Proof.
  intros Hrect Hthr. split.
  - pose proof (by_channel_closed_form Pos traces thr n C Hrect Hthr) as Hp.
    pose proof (by_channel_closed_form Neg traces thr n C Hrect Hthr) as Hn.
    pose proof (by_channel_closed_form Both traces thr n C Hrect Hthr) as Hb.
    simpl sign_name in *.
    eexists _, _, _. split; [exact Hp|]. split; [exact Hn|]. split; [exact Hb|].
    split.
    + intros p. apply (closed_form_union
        (fun t c => by_channel_pos (block_signal traces) thr n t c)
        (fun t c => by_channel_neg (block_signal traces) thr n t c)).
    + apply (StronglySorted_NoDup peak_lt); [apply peak_lt_irrefl|].
      eapply by_channel_sorted, Hb.
  - pose proof (locally_exclusive_closed_form Pos traces thr neighbours n C
                  Hrect Hthr) as Hp.
    pose proof (locally_exclusive_closed_form Neg traces thr neighbours n C
                  Hrect Hthr) as Hn.
    pose proof (locally_exclusive_closed_form Both traces thr neighbours n C
                  Hrect Hthr) as Hb.
    simpl sign_name in *.
    eexists _, _, _. split; [exact Hp|]. split; [exact Hn|]. split; [exact Hb|].
    split.
    + intros p. apply (closed_form_union
        (fun t c => locally_exclusive_pos (block_signal traces) thr neighbours
                      C n t c)
        (fun t c => locally_exclusive_neg (block_signal traces) thr neighbours
                      C n t c)).
    + apply (StronglySorted_NoDup peak_lt); [apply peak_lt_irrefl|].
      eapply locally_exclusive_sorted, Hb.
Qed.

Lemma sign_symmetry_witness :
  rectangular 1 [[0]; [0]; [10]; [-10]; [0]; [0]]%Q = true
  /\ length [1%Q] = 1%nat
  /\ exists pos neg both,
      DetectPeakByChannel.detect_peaks [[0]; [0]; [10]; [-10]; [0]; [0]]%Q
        "pos" [1%Q] (Z.of_nat 2) = Ok pos
      /\ DetectPeakByChannel.detect_peaks [[0]; [0]; [10]; [-10]; [0]; [0]]%Q
           "neg" [1%Q] (Z.of_nat 2) = Ok neg
      /\ DetectPeakByChannel.detect_peaks [[0]; [0]; [10]; [-10]; [0]; [0]]%Q
           "both" [1%Q] (Z.of_nat 2) = Ok both
      /\ (forall p, In p both <-> In p pos \/ In p neg)
      /\ NoDup both.
Proof.
  split; [reflexivity|]. split; [reflexivity|].
  apply (sign_symmetry [[0]; [0]; [10]; [-10]; [0]; [0]]%Q [1%Q] [[true]] 2 1);
    reflexivity.
Defined.

(** ** Temporal exclusivity *)







(** ** The rules, read as propositions *)


Lemma spatial_extremum_spec same before after sig neighbours C n t c :
  spatial_extremum same before after sig neighbours C n t c = true
  <-> forall nb, (nb < C)%nat -> mask_get neighbours c nb = true ->
        (forall i, (1 <= i <= n)%nat ->
           before (sig t c) (sig (t - Z.of_nat i) nb) = true
           /\ after (sig t c) (sig (t + Z.of_nat i) nb) = true)
        /\ (nb <> c -> same (sig t c) (sig t nb) = true).
Proof.
  unfold spatial_extremum. rewrite forallb_forall. split.
  - intros H nb Hnb Hmask.
    assert (Hin : In nb (seq 0 C)) by (apply in_seq; lia).
    apply H in Hin. rewrite Hmask in Hin. simpl in Hin.
    apply andb_true_iff in Hin as [Hsame Hwin]. split.
    + by apply window_extremum_spec.
    + intros Hne. apply orb_true_iff in Hsame as [Heq|?]; [|done].
      apply Nat.eqb_eq in Heq. congruence.
  - intros H nb Hnb. apply in_seq in Hnb.
    destruct (mask_get neighbours c nb) eqn:Hmask; [|done]. simpl.
    destruct (H nb) as [Hwin Hsame]; [lia | done |].
    apply andb_true_iff. split.
    + destruct (Nat.eqb_spec c nb) as [?|Hne]; [done|]. simpl.
      apply Hsame. congruence.
    + by apply window_extremum_spec.
Qed.

Lemma block_signal_nat traces (s : nat) c :
  block_signal traces (Z.of_nat s) c = at2 traces s c.
Proof.
  unfold block_signal. destruct (Z.ltb_spec (Z.of_nat s) 0); [lia|].
  by rewrite Nat2Z.id.
Qed.



(** ** The by-channel predicate *)

(** For an exclusion window of at least one sample the by-channel method
    reports exactly the interior samples that satisfy the rule. *)
Lemma by_channel_predicate (sg : sign) (traces : block) (thr : list Q)
    (n C s c : nat) (found : list (Z * nat)) :
  (1 <= n)%nat -> rectangular C traces = true -> length thr = C ->
  DetectPeakByChannel.detect_peaks traces (sign_name sg) thr (Z.of_nat n)
  = Ok found ->
  (In (Z.of_nat s, c) found
   <-> (n <= s < length traces - n)%nat /\ (c < C)%nat
       /\ by_channel_peak sg (block_signal traces) thr n (Z.of_nat s) c = true).
Proof.
  intros Hn Hrect Hthr Hdet.
  rewrite (by_channel_closed_form sg traces thr n C Hrect Hthr) in Hdet.
  injection Hdet as <-.
  rewrite (In_closed_form (fun t c => by_channel_peak sg (block_signal traces)
                                        thr n t c)).
  split.
  - intros ((j & Hj & Hin) & Hc & HP). apply Nat2Z.inj in Hj as <-.
    apply In_interior in Hin. tauto.
  - intros (Hs & Hc & HP). split; [|done]. exists s. split; [done|].
    apply In_interior. lia.
Qed.

Lemma by_channel_pos_spec traces thr n (s c : nat) :
  (n <= s)%nat ->
  by_channel_pos (block_signal traces) thr n (Z.of_nat s) c = true
  <-> (threshold_at thr c < at2 traces s c)%Q
      /\ forall i, (1 <= i <= n)%nat ->
           (at2 traces (s - i) c < at2 traces s c)%Q
           /\ (at2 traces (s + i) c <= at2 traces s c)%Q.
Proof.
  intros Hs. unfold by_channel_pos.
  rewrite andb_true_iff, window_extremum_spec, block_signal_nat, Qgtb_lt.
  apply and_iff_compat_l. split; intros H i Hi; destruct (H i Hi) as [Hb Ha].
  - replace (Z.of_nat s - Z.of_nat i) with (Z.of_nat (s - i)) in Hb by lia.
    replace (Z.of_nat s + Z.of_nat i) with (Z.of_nat (s + i)) in Ha by lia.
    rewrite !block_signal_nat in *. by rewrite <- Qgtb_lt, <- Qgeb_le.
  - replace (Z.of_nat s - Z.of_nat i) with (Z.of_nat (s - i)) by lia.
    replace (Z.of_nat s + Z.of_nat i) with (Z.of_nat (s + i)) by lia.
    rewrite !block_signal_nat. by rewrite Qgtb_lt, Qgeb_le.
Qed.

Lemma by_channel_neg_spec traces thr n (s c : nat) :
  (n <= s)%nat ->
  by_channel_neg (block_signal traces) thr n (Z.of_nat s) c = true
  <-> (at2 traces s c < - threshold_at thr c)%Q
      /\ forall i, (1 <= i <= n)%nat ->
           (at2 traces s c < at2 traces (s - i) c)%Q
           /\ (at2 traces s c <= at2 traces (s + i) c)%Q.
Proof.
  intros Hs. unfold by_channel_neg.
  rewrite andb_true_iff, window_extremum_spec, block_signal_nat, Qltb_lt.
  apply and_iff_compat_l. split; intros H i Hi; destruct (H i Hi) as [Hb Ha].
  - replace (Z.of_nat s - Z.of_nat i) with (Z.of_nat (s - i)) in Hb by lia.
    replace (Z.of_nat s + Z.of_nat i) with (Z.of_nat (s + i)) in Ha by lia.
    rewrite !block_signal_nat in *. by rewrite <- Qltb_lt, <- Qleb_le.
  - replace (Z.of_nat s - Z.of_nat i) with (Z.of_nat (s - i)) by lia.
    replace (Z.of_nat s + Z.of_nat i) with (Z.of_nat (s + i)) by lia.
    rewrite !block_signal_nat. by rewrite Qltb_lt, Qleb_le.
Qed.



(** ** Parameter derivation in [check_params] *)




(** ** Errors during setup *)

(** C10. Empty pipeline-node list: [detect_peaks] called with
    [pipeline_nodes = []] raises during setup, before any chunk is
    processed, whatever the recording, the method and the parameters;
    when the rest of the setup succeeds the error is that of [max] on an
    empty sequence, whereas the same call with [None] returns peaks. *)
Theorem empty_pipeline_nodes_raise :
  (forall env recording method kwargs,
      exists e, detect_peaks env recording method (Some []) kwargs
                = (0%nat, Raise e))
  /\ detect_peaks (example_env in_order) example_recording "by_channel"
       (Some []) (example_kwargs "pos") = (0%nat, Raise ValueError)
  /\ exists peaks,
       detect_peaks (example_env in_order) example_recording "by_channel"
         None (example_kwargs "pos") = (2%nat, Ok (peaks, None)).
Proof.
  split; [|split].
  - intros env recording method kwargs. unfold detect_peaks.
    destruct (detect_peak_methods method) as [M|]; [|by eexists].
    destruct (check_params M env recording kwargs) as [a|e]; simpl; [|by eexists].
    destruct (check_graph env []) as [[]|e]; simpl; by eexists.
  - vm_compute. reflexivity.
  - eexists. vm_compute. reflexivity.
Qed.

Lemma empty_pipeline_nodes_value_error env recording method M kwargs a :
  detect_peak_methods method = Some M ->
  check_params M env recording kwargs = Ok a ->
  check_graph env [] = Ok tt ->
  detect_peaks env recording method (Some []) kwargs = (0%nat, Raise ValueError).
Proof.
  intros HM Ha Hg. unfold detect_peaks. rewrite HM, Ha. simpl. by rewrite Hg.
Qed.

(** What does fail during setup: an invalid [peak_sign], whatever the
    method, and a missing backend. *)
Lemma registered_method method M :
  detect_peak_methods method = Some M -> In M _methods_list.
Proof. intros H. by apply find_some in H as [? _]. Qed.

Lemma check_params_invalid_sign M env recording kwargs :
  In M _methods_list ->
  str_in (peak_sign kwargs) ["both"; "neg"; "pos"]%string = false ->
  exists e, check_params M env recording kwargs = Raise e.
Proof.
  intros HM Hs. simpl in HM. destruct HM as [<-|[<-|[<-|[]]]]; simpl.
  - unfold ByChannel_check_params. rewrite Hs. by eexists.
  - unfold LocallyExclusive_check_params, ByChannel_check_params. rewrite Hs.
    destruct (HAVE_NUMBA env); by eexists.
  - unfold OpenCL_check_params. rewrite Hs. by eexists.
Qed.

Lemma invalid_sign_fails_in_setup env recording method nodes kwargs :
  str_in (peak_sign kwargs) ["both"; "neg"; "pos"]%string = false ->
  exists e, detect_peaks env recording method nodes kwargs = (0%nat, Raise e).
Proof.
  intros Hs. unfold detect_peaks.
  destruct (detect_peak_methods method) as [M|] eqn:HM; [|by eexists].
  destruct (check_params_invalid_sign M env recording kwargs) as [e He];
    [by eapply registered_method | done |].
  rewrite He. by eexists.
Qed.

Lemma missing_numba_fails_in_setup env recording nodes kwargs :
  HAVE_NUMBA env = false ->
  detect_peaks env recording "locally_exclusive" nodes kwargs
  = (0%nat, Raise ModuleNotFoundError).
Proof.
  intros Hn. unfold detect_peaks. simpl.
  unfold LocallyExclusive_check_params. by rewrite Hn.
Qed.

Lemma missing_pyopencl_fails_in_setup env recording nodes kwargs :
  HAVE_PYOPENCL env = false ->
  exists e, detect_peaks env recording "locally_exclusive_cl" nodes kwargs
            = (0%nat, Raise e).
Proof.
  intros Hn. unfold detect_peaks. simpl.
  unfold OpenCL_check_params, OpenCLDetectPeakExecutor_init. rewrite Hn.
  destruct (str_in _ _); simpl; by eexists.
Qed.

(** When [check_params] of the OpenCL method has accepted ['both'], the
    first chunk raises [KeyError] while compiling the kernel. *)
Lemma opencl_both_fails_in_first_chunk env recording kwargs k a b rest segment :
  HAVE_PYOPENCL env = true -> peak_sign kwargs = "both"%string ->
  executor_chunks env recording = (k, a, b) :: rest ->
  _recording_segments recording !! k = Some segment ->
  detect_peaks env recording "locally_exclusive_cl" None kwargs
  = (1%nat, Raise KeyError).
Proof.
  intros Hcl Hsign Hchunks Hseg. unfold detect_peaks. simpl.
  unfold OpenCL_check_params, OpenCLDetectPeakExecutor_init.
  rewrite Hsign, Hcl, Hchunks. simpl.
  unfold _detect_peaks_chunk. simpl. rewrite Hseg. simpl.
  unfold OpenCLDetectPeakExecutor_detect_peak, create_buffers_and_compile.
  simpl. by rewrite Hcl.
Qed.

(** C8 on the OpenCL method with [peak_sign = 'both']: [check_params]
    accepts the parameters and the run fails with [KeyError] inside the
    first call of the chunk worker, not during setup. *)
Theorem opencl_both_fails_after_setup :
  (exists executor,
      check_params LocallyExclusiveOpenCL (example_env in_order)
        example_recording (example_kwargs "both") = Ok executor)
  /\ detect_peaks (example_env in_order) example_recording
       "locally_exclusive_cl" None (example_kwargs "both")
     = (1%nat, Raise KeyError).
Proof.
  split; [eexists; vm_compute; reflexivity|].
  by eapply opencl_both_fails_in_first_chunk.
Qed.

(** C3 on [peak_sign = 'both']: the value passes the validation of the
    OpenCL method, whose executor then raises [KeyError] on the block on
    which the CPU method returns the peaks (1, 0) and (4, 1); with ['pos']
    the two agree. *)
Theorem opencl_rejects_both_sign :
  let traces := [[0; 0]; [9; 0]; [0; 0]; [0; 0]; [0; 8]; [0; 0]; [0; 0]; [7; 0]]%Q in
  let neighbours := [[true; false]; [false; true]] in
  (exists executor,
      OpenCL_check_params (example_env in_order) example_recording
        (example_kwargs "both") = Ok executor
      /\ OpenCLDetectPeakExecutor_detect_peak (example_env in_order) executor
           traces = Raise KeyError)
  /\ DetectPeakLocallyExclusive.detect_peaks true traces "both" [5; 5]%Q 1
       neighbours = Ok [(1, 0%nat); (4, 1%nat)]
  /\ (exists executor executor',
        OpenCL_check_params (example_env in_order) example_recording
          (example_kwargs "pos") = Ok executor
        /\ OpenCLDetectPeakExecutor_detect_peak (example_env in_order) executor
             traces = Ok (executor', [(1, 0%nat); (4, 1%nat)]))
  /\ DetectPeakLocallyExclusive.detect_peaks true traces "pos" [5; 5]%Q 1
       neighbours = Ok [(1, 0%nat); (4, 1%nat)].
Proof.
  intros traces neighbours. split; [|split; [|split]].
  - eexists. split; [vm_compute; reflexivity|]. vm_compute. reflexivity.
  - vm_compute. reflexivity.
  - eexists _, _. split; [vm_compute; reflexivity|]. vm_compute. reflexivity.
  - vm_compute. reflexivity.
Qed.

(** ** Order of the peaks of one chunk *)

Lemma result_map_length {A B} (f : A -> result B) l bs :
  result_map f l = Ok bs -> length bs = length l.
Proof.
  revert bs. induction l as [|a l IH]; intros bs; simpl.
  - by intros [= <-].
  - destruct (f a) as [b|]; simpl; [|done].
    destruct (result_map f l) as [bs'|]; simpl; [|done].
    intros [= <-]. simpl. by rewrite (IH bs').
Qed.

Lemma chunk_peak_keys (k : nat) (off : Z) (found : list (Z * nat)) (amps : list Q) :
  length amps = length found ->
  map peak_key
    (map (fun p =>
        {| sample_ind := sample_ind p + off; channel_ind := channel_ind p;
           amplitude := amplitude p; segment_ind := segment_ind p |})
       (zip_with (fun (sc : Z * nat) a =>
            {| sample_ind := sc.1; channel_ind := sc.2; amplitude := a;
               segment_ind := k |})
          found amps))
  = map (fun sc => (sc.1 + off, sc.2)) found.
Proof.
  revert amps. induction found as [|sc found IH]; intros [|a amps] Hlen;
    simpl in *; try done.
  rewrite IH by lia. done.
Qed.

Lemma peak_lt_shift off l :
  StronglySorted peak_lt l ->
  StronglySorted peak_lt (map (fun sc : Z * nat => (sc.1 + off, sc.2)) l).
Proof.
  intros H. rewrite map_fmap. eapply StronglySorted_fmap; [|exact H].
  intros [s c] [s' c'] [Hlt|[Heq Hlt]]; [left | right]; simpl in *; lia.
Qed.

(** The worker keeps the order in which the method returns the peaks. *)
Lemma worker_sorted env M k a b ctx ctx' peaks outs :
  (forall traces args args' found,
      detect_peaks_of M env traces args = Ok (args', found) ->
      StronglySorted peak_lt found) ->
  _detect_peaks_chunk env M k a b ctx = Ok (ctx', (peaks, outs)) ->
  StronglySorted peak_lt (map peak_key peaks).
Proof.
  intros HM. unfold _detect_peaks_chunk, get_chunk_with_margin.
  destruct (_recording_segments (ctx_recording ctx) !! k) as [seg|]; [|done].
  destruct (detect_peaks_of M env _ _) as [[args' found]|e] eqn:Hdet; [|done].
  apply HM in Hdet. simpl.
  destruct (result_map _ _) as [amps|e] eqn:Hamps; [|done]. simpl.
  intros [= <- <- <-]. apply result_map_length in Hamps.
  rewrite chunk_peak_keys by done. apply peak_lt_shift.
  destruct (ctx_extra_margin ctx >? 0); [|done]. by apply peak_lt_shift.
Qed.

(** C9, as amended. Intra-chunk output order for the two CPU methods:
    the peak records that the chunk worker returns for [by_channel] and
    for [locally_exclusive] are in ascending [sample_ind] order and,
    among equal [sample_ind], in ascending [channel_ind] order (strictly:
    no (sample, channel) pair occurs twice). *)
Theorem cpu_chunk_output_sorted (env : Env) (k : nat) (a b : Z) :
  (forall ctx ctx' peaks outs,
      _detect_peaks_chunk env ByChannel k a b ctx = Ok (ctx', (peaks, outs)) ->
      StronglySorted peak_lt (map peak_key peaks))
  /\ (forall ctx ctx' peaks outs,
        _detect_peaks_chunk env LocallyExclusive k a b ctx
        = Ok (ctx', (peaks, outs)) ->
        StronglySorted peak_lt (map peak_key peaks)).
Proof.
  split; intros ctx ctx' peaks outs; apply worker_sorted;
    intros traces args args' found; simpl.
  - destruct (DetectPeakByChannel.detect_peaks _ _ _ _) as [p|] eqn:E; [|done].
    intros [= _ <-]. by eapply by_channel_sorted.
  - destruct (DetectPeakLocallyExclusive.detect_peaks _ _ _ _ _ _) as [p|] eqn:E;
      [|done].
    intros [= _ <-]. by eapply locally_exclusive_sorted.
Qed.

(** C9, as stated, fails for the OpenCL method: the kernel appends the
    peaks in the order in which the work-items reach the atomic counter,
    and the host does not sort them.  When the device runs the work-items
    from the last to the first, the chunk [0, 8) of the example recording
    yields the peaks of samples 7, 4 and 1 in this order; the executor is
    the one that [check_params] builds for the example. *)
Lemma opencl_chunk_output_unsorted :
  ~ (forall (env : Env) (M : DetectPeakMethod) (k : nat) (a b : Z)
       (ctx ctx' : worker_ctx M) (peaks : list Peak)
       (outs : option (list (list Q))),
       _detect_peaks_chunk env M k a b ctx = Ok (ctx', (peaks, outs)) ->
       StronglySorted peak_le (map peak_key peaks)).
Proof.
  intros H.
  pose (executor :=
          {| cl_chunk_size := None; cl_abs_threholds := [5; 5]%Q;
             cl_exclude_sweep_size := 1;
             cl_neighbours_mask := [[true; false]; [false; true]];
             cl_peak_sign := "pos"; cl_x := 0; kernel_peak_sign := 0;
             global_size := 0; dev := {| num_peaks := 0; peaks := [] |} |}).
  pose (ctx := _init_worker_detect_peaks LocallyExclusiveOpenCL
                 example_recording executor 0 None).
  assert (Hkeys :
    match _detect_peaks_chunk (example_env reversed) LocallyExclusiveOpenCL
            0 0 8 ctx with
    | Ok (_, (peaks, _)) => map peak_key peaks
    | Raise _ => []
    end = [(7, 0%nat); (4, 1%nat); (1, 0%nat)]) by (vm_compute; reflexivity).
  destruct (_detect_peaks_chunk (example_env reversed) LocallyExclusiveOpenCL
              0 0 8 ctx) as [[ctx' [peaks outs]]|] eqn:Hrun; [|discriminate].
  specialize (H _ _ _ _ _ _ _ _ _ Hrun). rewrite Hkeys in H.
  apply StronglySorted_inv in H as [_ H].
  apply Forall_inv in H. unfold peak_le in H. simpl in H. lia.
Qed.

Lemma cpu_chunk_output_sorted_witness :
  let ctx := _init_worker_detect_peaks ByChannel example_recording
               ("pos"%string, [5; 5]%Q, 1) 0 None in
  let peaks :=
    [{| sample_ind := 1; channel_ind := 0; amplitude := 9; segment_ind := 0 |};
     {| sample_ind := 4; channel_ind := 1; amplitude := 8; segment_ind := 0 |};
     {| sample_ind := 7; channel_ind := 0; amplitude := 7; segment_ind := 0 |}] in
  _detect_peaks_chunk (example_env in_order) ByChannel 0 0 8 ctx
  = Ok (ctx, (peaks, None))
  /\ StronglySorted peak_lt (map peak_key peaks).
Proof.
  intros ctx peaks.
  assert (H : _detect_peaks_chunk (example_env in_order) ByChannel 0 0 8 ctx
              = Ok (ctx, (peaks, None))) by reflexivity.
  split; [exact H|].
  exact (proj1 (cpu_chunk_output_sorted (example_env in_order) 0 0 8)
           ctx ctx peaks None H).
Defined.

(** ** Chunk invariance *)

Lemma window_extremum_local before after sig1 sig2 n t1 t2 c nb :
  (forall d c', - Z.of_nat n <= d <= Z.of_nat n ->
                sig1 (t1 + d) c' = sig2 (t2 + d) c') ->
  window_extremum before after sig1 n t1 c nb
  = window_extremum before after sig2 n t2 c nb.
Proof.
  intros H. unfold window_extremum. apply forallb_ext_in. intros i Hi.
  apply in_seq in Hi.
  pose proof (H 0 c) as H0. rewrite !Z.add_0_r in H0. rewrite H0 by lia.
  pose proof (H (- Z.of_nat i) nb) as Hm. pose proof (H (Z.of_nat i) nb) as Hp.
  rewrite !Z.add_opp_r in Hm. by rewrite Hm, Hp by lia.
Qed.

Lemma by_channel_peak_local sg thr n sig1 sig2 t1 t2 c :
  (forall d c', - Z.of_nat n <= d <= Z.of_nat n ->
                sig1 (t1 + d) c' = sig2 (t2 + d) c') ->
  by_channel_peak sg sig1 thr n t1 c = by_channel_peak sg sig2 thr n t2 c.
Proof.
  intros H. pose proof (H 0 c) as H0. rewrite !Z.add_0_r in H0.
  unfold by_channel_peak, by_channel_pos, by_channel_neg.
  rewrite !(window_extremum_local _ _ sig1 sig2 n t1 t2) by done.
  by rewrite H0 by lia.
Qed.

Lemma spatial_extremum_local same before after neighbours C n sig1 sig2 t1 t2 c :
  (forall d c', - Z.of_nat n <= d <= Z.of_nat n ->
                sig1 (t1 + d) c' = sig2 (t2 + d) c') ->
  spatial_extremum same before after sig1 neighbours C n t1 c
  = spatial_extremum same before after sig2 neighbours C n t2 c.
Proof.
  intros H. unfold spatial_extremum. apply forallb_ext_in. intros nb _.
  rewrite (window_extremum_local _ _ sig1 sig2 n t1 t2) by done.
  pose proof (H 0) as H0. setoid_rewrite Z.add_0_r in H0.
  by rewrite !H0 by lia.
Qed.

Lemma locally_exclusive_peak_local sg thr neighbours C n sig1 sig2 t1 t2 c :
  (forall d c', - Z.of_nat n <= d <= Z.of_nat n ->
                sig1 (t1 + d) c' = sig2 (t2 + d) c') ->
  locally_exclusive_peak sg sig1 thr neighbours C n t1 c
  = locally_exclusive_peak sg sig2 thr neighbours C n t2 c.
Proof.
  intros H. pose proof (H 0 c) as H0. rewrite !Z.add_0_r in H0.
  unfold locally_exclusive_peak, locally_exclusive_pos, locally_exclusive_neg.
  rewrite !(spatial_extremum_local _ _ _ _ _ _ sig1 sig2 t1 t2) by done.
  by rewrite H0 by lia.
Qed.

Lemma by_channel_implements env sg thr n C :
  length thr = C ->
  implements_rule env ByChannel (sign_name sg, thr, Z.of_nat n) n C
    (fun sig => by_channel_peak sg sig thr n).
Proof.
  intros Hthr. split.
  - done.
  - intros traces Hrect. simpl.
    by rewrite (by_channel_closed_form sg traces thr n C).
  - intros. by apply by_channel_peak_local.
Qed.

Lemma locally_exclusive_implements env sg thr neighbours n C :
  HAVE_NUMBA env = true -> length thr = C ->
  implements_rule env LocallyExclusive
    (sign_name sg, thr, Z.of_nat n, neighbours) n C
    (fun sig => locally_exclusive_peak sg sig thr neighbours C n).
Proof.
  intros Hnumba Hthr. split.
  - done.
  - intros traces Hrect. simpl. rewrite Hnumba.
    by rewrite (locally_exclusive_closed_form sg traces thr neighbours n C).
  - intros. by apply locally_exclusive_peak_local.
Qed.

Lemma segment_row_tabulate segment t :
  rectangular (shape1 segment) segment = true ->
  segment_row segment t
  = map (segment_signal segment t) (seq 0 (shape1 segment)).
Proof.
  intros Hrect. unfold segment_signal.
  assert (Hlen : length (segment_row segment t) = shape1 segment).
  { unfold segment_row.
    destruct ((0 <=? t) && (t <? Z.of_nat (length segment))) eqn:Hin.
    - apply andb_true_iff in Hin as [H0 H1].
      apply Z.leb_le in H0. apply Z.ltb_lt in H1.
      destruct (lookup_lt_is_Some_2 segment (Z.to_nat t)) as [row Hrow]; [lia|].
      rewrite Hrow. simpl. by eapply rectangular_lookup.
    - by rewrite length_replicate. }
  rewrite <- Hlen. apply vector_tabulate.
Qed.

Lemma get_chunk_with_margin_tabulate segment a b m :
  rectangular (shape1 segment) segment = true ->
  get_chunk_with_margin segment a b m
  = (tabulate2 (fun j c => segment_signal segment (a - m + Z.of_nat j) c)
       (Z.to_nat (b + m - (a - m))) (shape1 segment), m, m).
Proof.
  intros Hrect. unfold get_chunk_with_margin, tabulate2. do 2 f_equal.
  apply map_ext. intros j. by apply segment_row_tabulate.
Qed.

Lemma result_map_ok {A B} (f : A -> result B) (g : A -> B) l :
  (forall x, In x l -> f x = Ok (g x)) -> result_map f l = Ok (map g l).
Proof.
  induction l as [|x l IH]; intros H; simpl; [done|].
  rewrite (H x) by (by left). simpl. rewrite IH; [done|].
  intros y Hy. apply H. by right.
Qed.

Lemma fancy_index_tabulate2 (f : nat -> nat -> Q) L C (s : Z) c :
  0 <= s < Z.of_nat L -> (c < C)%nat ->
  fancy_index (tabulate2 f L C) s c = Ok (f (Z.to_nat s) c).
Proof.
  intros Hs Hc. unfold fancy_index. rewrite length_tabulate2.
  destruct (Z.ltb_spec s 0) as [?|_]; [lia|].
  destruct (Z.ltb_spec s 0) as [?|_]; [lia|].
  destruct (Z.leb_spec (Z.of_nat L) s) as [?|_]; [lia|]. simpl.
  rewrite tabulate2_lookup by lia. simpl. rewrite lookup_map_seq.
  case_decide; [done | lia].
Qed.

Lemma In_pairs s c ss cs : In (s, c) (pairs ss cs) <-> In s ss /\ In c cs.
Proof.
  unfold pairs. rewrite in_flat_map. split.
  - intros (s' & Hs & Hin). apply in_map_iff in Hin as (c' & [= <- <-] & Hc). done.
  - intros [Hs Hc]. exists s. split; [done|]. apply in_map_iff. by exists c.
Qed.

Lemma at2_tabulate2 (f : nat -> nat -> Q) L C j c :
  (j < L)%nat ->
  at2 (tabulate2 f L C) j c = if decide (c < C)%nat then f j c else 0%Q.
Proof.
  intros Hj. unfold at2, get2. rewrite tabulate2_lookup by done. simpl.
  rewrite lookup_map_seq. by case_decide.
Qed.

Lemma segment_signal_outside segment t c :
  rectangular (shape1 segment) segment = true ->
  (shape1 segment <= c)%nat -> segment_signal segment t c = 0%Q.
Proof.
  intros Hrect Hc. unfold segment_signal.
  rewrite segment_row_tabulate, lookup_map_seq by done.
  case_decide; [lia | done].
Qed.

(** The worker around any method: the method runs on the detection block,
    and every pair it finds becomes a record with the absolute sample index
    and the value of the recording there. *)
Lemma worker_found env M margs margs' n recording k segment e nodes a b found :
  get_method_margin M margs = Z.of_nat n ->
  _recording_segments recording !! k = Some segment ->
  rectangular (shape1 segment) segment = true ->
  a <= b ->
  detect_peaks_of M env (detection_block segment n a b) margs = Ok (margs', found) ->
  (forall s c, In (s, c) found ->
     0 <= s < Z.of_nat (Z.to_nat (b - a) + 2 * n) /\ (c < shape1 segment)%nat) ->
  exists outs,
    _detect_peaks_chunk env M k a b
      (_init_worker_detect_peaks M recording margs (Z.of_nat e) nodes)
    = Ok (_init_worker_detect_peaks M recording margs' (Z.of_nat e) nodes,
          (map (rebased_peak segment k n a) found, outs)).
Proof.
  intros Hmargin Hseg Hrect Hab Hdetect Hrange. unfold detection_block in Hdetect.
  set (C := shape1 segment) in *. set (sig := segment_signal segment) in *.
  set (len := Z.to_nat (b - a)) in *.
  unfold _detect_peaks_chunk, _init_worker_detect_peaks.
  cbv beta iota zeta delta [ctx_recording ctx_method_args ctx_extra_margin
                              ctx_pipeline_nodes].
  rewrite Hseg, Hmargin, get_chunk_with_margin_tabulate by done.
  cbv beta iota zeta. fold C sig.
  set (m := Z.of_nat n + Z.of_nat e).
  replace (Z.to_nat (b + m - (a - m))) with (len + 2 * n + 2 * e)%nat by lia.
  set (traces := tabulate2 _ _ C).
  assert (Htd : (if Z.of_nat e >? 0
                 then py_slice (Z.of_nat e) (- Z.of_nat e) traces else traces)
                = tabulate2 (fun j c => sig (a - Z.of_nat n + Z.of_nat j) c)
                    (len + 2 * n) C).
  { destruct (Z.gtb_spec (Z.of_nat e) 0) as [He|He].
    - unfold traces. rewrite py_slice_center by lia.
      replace (len + 2 * n + 2 * e - 2 * e)%nat with (len + 2 * n)%nat by lia.
      apply tabulate2_ext. intros j c _ _. f_equal. lia.
    - unfold traces. replace (len + 2 * n + 2 * e)%nat with (len + 2 * n)%nat by lia.
      apply tabulate2_ext. intros j c _ _. f_equal. lia. }
  rewrite Htd, Hdetect. unfold mbind, result_bind. cbv beta iota.
  set (found' := if Z.of_nat e >? 0 then _ else found).
  assert (Hfound : found' = map (fun sc : Z * nat => (sc.1 + Z.of_nat e, sc.2)) found).
  { unfold found'. destruct (Z.gtb_spec (Z.of_nat e) 0) as [He|He]; [done|].
    rewrite <- (map_id found) at 1. apply map_ext. intros [s c]. simpl. f_equal. lia. }
  rewrite Hfound.
  rewrite (result_map_ok _ (fun sc : Z * nat => sig (a - m + sc.1) sc.2)).
  2: { intros [s c] Hin. apply in_map_iff in Hin as ([s0 c0] & [= <- <-] & Hin).
       apply Hrange in Hin as [Hs Hc]. simpl. unfold traces.
       rewrite fancy_index_tabulate2 by lia. do 2 f_equal. lia. }
  cbv beta iota.
  rewrite map_map, zip_with_map_same, map_map. simpl.
  assert (Hpeaks :
    map (fun x : Z * nat =>
        {| sample_ind := x.1 + Z.of_nat e + (a - m); channel_ind := x.2;
           amplitude := sig (a - m + (x.1 + Z.of_nat e)) x.2;
           segment_ind := k |}) found
    = map (rebased_peak segment k n a) found).
  { apply map_ext. intros [s c]. unfold rebased_peak. simpl. fold sig.
    replace (s + Z.of_nat e + (a - m)) with (a - Z.of_nat n + s) by lia.
    replace (a - m + (s + Z.of_nat e)) with (a - Z.of_nat n + s) by lia. done. }
  rewrite Hpeaks. eexists. reflexivity.
Qed.

(** The pairs that satisfy [rule] in the detection block, rebased, are the
    peaks of the chunk. *)
Lemma rebased_chunk_peaks (rule : signal -> Z -> nat -> bool) segment k n a b :
  rectangular (shape1 segment) segment = true ->
  (forall sig1 sig2 t1 t2 c,
    (forall d c', - Z.of_nat n <= d <= Z.of_nat n ->
                  sig1 (t1 + d) c' = sig2 (t2 + d) c') ->
    rule sig1 t1 c = rule sig2 t2 c) ->
  map (rebased_peak segment k n a)
    (map (fun sc : nat * nat => (Z.of_nat sc.1, sc.2))
       (List.filter (fun sc => rule (block_signal (detection_block segment n a b))
                                 (Z.of_nat sc.1) sc.2)
          (pairs (seq n (Z.to_nat (b - a))) (seq 0 (shape1 segment)))))
  = chunk_peaks (rule (segment_signal segment)) (segment_signal segment)
      k a (Z.to_nat (b - a)) (shape1 segment).
Proof.
  intros Hrect Hlocal. unfold chunk_peaks, detection_block.
  set (C := shape1 segment) in *. set (sig := segment_signal segment).
  set (len := Z.to_nat (b - a)).
  rewrite (pairs_shift n), filter_map_swap, !map_map. simpl.
  erewrite List.filter_ext_in.
  - apply map_ext. intros [j c]. unfold rebased_peak. simpl. fold sig.
    by replace (a - Z.of_nat n + Z.of_nat (j + n)) with (a + Z.of_nat j) by lia.
  - intros [j c] Hin. apply In_pairs in Hin as [Hj Hc].
    apply in_seq in Hj. apply in_seq in Hc. simpl.
    apply Hlocal. intros d c' Hd. unfold block_signal.
    destruct (Z.ltb_spec (Z.of_nat (j + n) + d) 0) as [?|_]; [lia|].
    rewrite at2_tabulate2 by lia. unfold sig.
    destruct (decide (c' < C)%nat) as [Hc'|Hc'].
    + f_equal. lia.
    + symmetry. apply segment_signal_outside; [done | lia].
Qed.

Lemma worker_closed_form env M margs n rule recording k segment e nodes a b :
  implements_rule env M margs n (shape1 segment) rule ->
  _recording_segments recording !! k = Some segment ->
  rectangular (shape1 segment) segment = true ->
  a <= b ->
  let ctx := _init_worker_detect_peaks M recording margs (Z.of_nat e) nodes in
  exists outs,
    _detect_peaks_chunk env M k a b ctx
    = Ok (ctx, (worker_peaks rule segment k n a b, outs)).
Proof.
  intros [Hmargin Hdetect Hlocal] Hseg Hrect Hab ctx.
  pose proof (Hdetect (detection_block segment n a b)
                (tabulate2_rectangular _ _ _)) as Hdet.
  unfold detection_block in Hdet at 3. rewrite length_tabulate2 in Hdet.
  destruct (worker_found env M margs margs n recording k segment e nodes a b _
              Hmargin Hseg Hrect Hab Hdet) as [outs Hw].
  { intros s c Hin. apply in_map_iff in Hin as ([j c0] & [= <- <-] & Hin).
    apply filter_In in Hin as [Hin _]. apply In_pairs in Hin as [Hj Hc].
    unfold interior in Hj. destruct (n =? 0)%nat; [done|].
    apply in_seq in Hj. apply in_seq in Hc. simpl. lia. }
  exists outs. unfold ctx. rewrite Hw. do 3 f_equal.
  unfold worker_peaks, interior. destruct (Nat.eqb_spec n 0) as [->|Hn]; [done|].
  replace (Z.to_nat (b - a) + 2 * n - 2 * n)%nat with (Z.to_nat (b - a)) by lia.
  by apply rebased_chunk_peaks.
Qed.

Lemma chunk_peaks_app rule sig k a l1 l2 C :
  chunk_peaks rule sig k a (l1 + l2) C
  = chunk_peaks rule sig k a l1 C
    ++ chunk_peaks rule sig k (a + Z.of_nat l1) l2 C.
Proof.
  unfold chunk_peaks, pairs. rewrite seq_app, flat_map_app, List.filter_app, map_app.
  f_equal. change (flat_map (fun s => map (pair s) (seq 0 C)) (seq (0 + l1) l2))
    with (pairs (seq l1 l2) (seq 0 C)).
  rewrite (pairs_shift l1), filter_map_swap, map_map. simpl.
  erewrite List.filter_ext.
  - apply map_ext. intros [j c]. simpl.
    by replace (a + Z.of_nat (j + l1)) with (a + Z.of_nat l1 + Z.of_nat j) by lia.
  - intros [j c]. simpl. f_equal. lia.
Qed.

Lemma worker_peaks_app rule segment k n a (l1 l2 : nat) :
  worker_peaks rule segment k n a (a + Z.of_nat (l1 + l2))
  = worker_peaks rule segment k n a (a + Z.of_nat l1)
    ++ worker_peaks rule segment k n (a + Z.of_nat l1)
         (a + Z.of_nat l1 + Z.of_nat l2).
Proof.
  unfold worker_peaks. destruct (n =? 0)%nat; [done|].
  replace (Z.to_nat (a + Z.of_nat (l1 + l2) - a)) with (l1 + l2)%nat by lia.
  replace (Z.to_nat (a + Z.of_nat l1 - a)) with l1 by lia.
  replace (Z.to_nat (a + Z.of_nat l1 + Z.of_nat l2 - (a + Z.of_nat l1)))
    with l2 by lia.
  apply chunk_peaks_app.
Qed.

Lemma worker_peaks_empty rule segment k n a : worker_peaks rule segment k n a a = [].
Proof.
  unfold worker_peaks. destruct (n =? 0)%nat; [done|].
  by rewrite Z.sub_diag.
Qed.


(** ** The OpenCL kernel in closed form *)

Section processor_kernel_closed_form.
Variable ess : nat.
Variable num_channels : nat.
Variable traces : list Q.
Variable neighbours_mask : list bool.
Variable abs_threholds : list Q.

Lemma cl_sweep_closed before after v pos nb sweep peak :
  cl_sweep (Z.of_nat ess) num_channels traces before after v pos nb sweep peak
  = peak && forallb (fun i => before v ((cl_value ess num_channels traces) pos (- Z.of_nat i) nb)
                              && after v ((cl_value ess num_channels traces) pos (Z.of_nat i) nb)) sweep.
Proof using Type.
  revert peak. induction sweep as [|i sweep IH]; intros peak; simpl.
  - by rewrite andb_true_r.
  - unfold cl_value. rewrite !Z.add_opp_r.
    destruct peak; simpl; [|done].
    destruct (before v _); simpl; [|done].
    destruct (after v _); simpl; [|done].
    rewrite IH. done.
Qed.

Lemma cl_neighbours_closed same before after sgn v pos chan ns peak :
  (sgn = 1 /\ same = Qgeb /\ before = Qgtb /\ after = Qgeb)
  \/ (sgn = -1 /\ same = Qleb /\ before = Qltb /\ after = Qleb) ->
  cl_neighbours (Z.of_nat ess) sgn num_channels traces neighbours_mask
    v pos chan ns peak
  = peak && forallb ((cl_neighbour_test ess num_channels traces neighbours_mask) same before after v pos chan) ns.
Proof using Type.
  intros Hsgn. revert peak. induction ns as [|nb ns IH]; intros peak; simpl.
  - by rewrite andb_true_r.
  - unfold cl_neighbour_test at 1.
    destruct (default false (neighbours_mask !! _)); simpl; [|apply IH].
    assert (Hidx : (Z.of_nat pos + Z.of_nat ess) * Z.of_nat num_channels
                   + Z.of_nat nb
                   = (Z.of_nat pos + Z.of_nat ess + 0) * Z.of_nat num_channels
                     + Z.of_nat nb) by lia.
    rewrite Hidx. fold ((cl_value ess num_channels traces) pos 0 nb). rewrite Nat2Z.id.
    destruct Hsgn as [(-> & -> & -> & ->)|(-> & -> & -> & ->)].
    + change (1 =? 1) with true. cbv iota.
      rewrite cl_sweep_closed. fold ((cl_window ess num_channels traces) Qgtb Qgeb v pos nb).
      destruct peak; [|done]. rewrite !andb_true_l.
      destruct (Qgeb v ((cl_value ess num_channels traces) pos 0 nb)); [|done].
      rewrite !andb_true_l. cbv iota. apply IH.
    + change (-1 =? 1) with false. change (-1 =? -1) with true. cbv iota.
      rewrite cl_sweep_closed. fold ((cl_window ess num_channels traces) Qltb Qleb v pos nb).
      destruct peak; [|done]. rewrite !andb_true_l.
      destruct (Qleb v ((cl_value ess num_channels traces) pos 0 nb)); [|done].
      rewrite !andb_true_l. cbv iota. apply IH.
Qed.

Lemma cl_chan_body_closed sg pos st chan :
  sg <> Both ->
  cl_chan_body (Z.of_nat ess) (sign_code sg) num_channels traces
    neighbours_mask abs_threholds pos st chan
  = ((cl_peak_test ess num_channels traces neighbours_mask abs_threholds) sg pos chan,
     if (cl_peak_test ess num_channels traces neighbours_mask abs_threholds) sg pos chan
     then cl_append st.2 (Z.of_nat pos + Z.of_nat ess, chan) else st.2).
Proof using Type.
  intros Hsg. destruct st as [peak d]. unfold cl_chan_body, cl_peak_test.
  assert (Hidx : (Z.of_nat pos + Z.of_nat ess) * Z.of_nat num_channels
                 + Z.of_nat chan
                 = (Z.of_nat pos + Z.of_nat ess + 0) * Z.of_nat num_channels
                   + Z.of_nat chan) by lia.
  rewrite Hidx. fold ((cl_value ess num_channels traces) pos 0 chan). cbv zeta.
  destruct sg; [| |done].
  - change (sign_code Pos =? 1) with true. cbv iota.
    destruct (Qgtb _ _); [|done].
    rewrite (cl_neighbours_closed Qgeb Qgtb Qgeb) by (left; done).
    rewrite !andb_true_l. by destruct (forallb _ _).
  - change (sign_code Neg =? 1) with false.
    change (sign_code Neg =? -1) with true. cbv iota.
    destruct (Qltb _ _); [|done].
    rewrite (cl_neighbours_closed Qleb Qltb Qleb) by (right; done).
    rewrite !andb_true_l. by destruct (forallb _ _).
Qed.

Lemma cl_channel_loop_closed sg pos chans st :
  sg <> Both ->
  (foldl (cl_chan_body (Z.of_nat ess) (sign_code sg) num_channels traces
            neighbours_mask abs_threholds pos) st chans).2
  = foldl cl_append st.2
      (map (pair (Z.of_nat pos + Z.of_nat ess))
         (List.filter ((cl_peak_test ess num_channels traces neighbours_mask abs_threholds) sg pos) chans)).
Proof using Type.
  intros Hsg. revert st. induction chans as [|c chans IH]; intros st; simpl; [done|].
  rewrite IH, cl_chan_body_closed by done. simpl.
  by destruct ((cl_peak_test ess num_channels traces neighbours_mask abs_threholds) sg pos c).
Qed.

Lemma work_item_body_closed sg (chunk_size : nat) d pos :
  sg <> Both -> (pos + 2 * ess < chunk_size)%nat ->
  work_item_body (Z.of_nat chunk_size) (Z.of_nat ess) (sign_code sg)
    num_channels traces neighbours_mask abs_threholds d pos
  = foldl cl_append d ((cl_items ess num_channels traces neighbours_mask abs_threholds) sg pos).
Proof using Type.
  intros Hsg Hpos. unfold work_item_body.
  destruct (Z.geb_spec (Z.of_nat pos) (Z.of_nat chunk_size - 2 * Z.of_nat ess));
    [lia|].
  by rewrite cl_channel_loop_closed.
Qed.

Lemma work_items_closed sg (chunk_size : nat) order d :
  sg <> Both ->
  Forall (fun pos => (pos + 2 * ess < chunk_size)%nat) order ->
  foldl (work_item_body (Z.of_nat chunk_size) (Z.of_nat ess) (sign_code sg)
           num_channels traces neighbours_mask abs_threholds) d order
  = foldl cl_append d (flat_map ((cl_items ess num_channels traces neighbours_mask abs_threholds) sg) order).
Proof using Type.
  intros Hsg Horder. revert d.
  induction Horder as [|pos order Hpos _ IH]; intros d; simpl; [done|].
  rewrite foldl_app, work_item_body_closed by done. apply IH.
Qed.

Lemma work_item_reset_closed order d :
  foldl work_item_reset d order
  = {| num_peaks := if existsb (Nat.eqb 0) order then 0 else num_peaks d;
       peaks := peaks d |}.
Proof using Type.
  revert d. induction order as [|pos order IH]; intros d; simpl.
  - by destruct d.
  - rewrite IH. unfold work_item_reset.
    destruct pos; simpl; [|done]. by destruct (existsb _ _).
Qed.

(** Appending to a buffer with room: the counter is the number of pairs,
    and the first [num_peaks] entries are the pairs in the order of their
    appends. *)
Lemma cl_append_spec items d :
  0 <= num_peaks d ->
  (Z.to_nat (num_peaks d) + length items <= length (peaks d))%nat ->
  let d' := foldl cl_append d items in
  num_peaks d' = num_peaks d + Z.of_nat (length items)
  /\ length (peaks d') = length (peaks d)
  /\ take (Z.to_nat (num_peaks d')) (peaks d')
     = take (Z.to_nat (num_peaks d)) (peaks d) ++ items.
Proof using Type.
  revert d. induction items as [|p items IH]; intros d Hn Hroom; simpl in *.
  - split; [lia|]. split; [done|]. by rewrite app_nil_r.
  - destruct (IH (cl_append d p)) as (H1 & H2 & H3); simpl.
    + lia.
    + rewrite length_insert. lia.
    + rewrite H3, H1, H2. simpl. rewrite length_insert.
      split; [lia|]. split; [done|].
      replace (Z.to_nat (num_peaks d + 1)) with (S (Z.to_nat (num_peaks d))) by lia.
      rewrite (take_S_r _ _ p) by (apply list_lookup_insert_eq; lia).
      rewrite take_insert_ge by lia. by rewrite <- app_assoc.
Qed.

Lemma length_cl_items order sg :
  (length (flat_map ((cl_items ess num_channels traces neighbours_mask abs_threholds) sg) order) <= length order * num_channels)%nat.
Proof using Type.
  induction order as [|pos order IH]; simpl; [done|].
  rewrite length_app. unfold cl_items at 1. rewrite length_map.
  pose proof (List.filter_length_le ((cl_peak_test ess num_channels traces neighbours_mask abs_threholds) sg pos) (seq 0 num_channels)) as H.
  rewrite length_seq in H. lia.
Qed.

(** One launch of the kernel on a buffer with room for
    [num_channels * chunk_size] pairs: the first [num_peaks] entries of
    the buffer are the pairs of the work-items, in the order in which the
    work-items ran. *)
Lemma run_kernel_closed sg (chunk_size : nat) order d :
  sg <> Both ->
  Forall (fun pos => (pos + 2 * ess < chunk_size)%nat) order ->
  existsb (Nat.eqb 0) order = true \/ num_peaks d = 0 ->
  (length order * num_channels <= length (peaks d))%nat ->
  let d' := run_kernel (Z.of_nat chunk_size) (Z.of_nat ess) (sign_code sg)
              num_channels traces neighbours_mask abs_threholds order d in
  py_slice 0 (num_peaks d') (peaks d') = flat_map ((cl_items ess num_channels traces neighbours_mask abs_threholds) sg) order
  /\ length (peaks d') = length (peaks d)
  /\ (order = [] -> num_peaks d' = 0).
Proof using Type.
  intros Hsg Horder Hreset Hroom. cbv zeta. unfold run_kernel.
  rewrite work_item_reset_closed, work_items_closed by done.
  set (d0 := {| num_peaks := _; peaks := peaks d |}).
  set (d' := foldl _ d0 _).
  assert (H0 : num_peaks d0 = 0).
  { change (num_peaks d0) with (if existsb (Nat.eqb 0) order then 0 else num_peaks d).
    destruct Hreset as [->| ->]; [done|]. by destruct (existsb _ _). }
  pose proof (length_cl_items order sg) as Hlen.
  destruct (cl_append_spec (flat_map ((cl_items ess num_channels traces neighbours_mask abs_threholds) sg) order) d0) as (H1 & H2 & H3).
  { lia. } { rewrite H0. simpl. lia. }
  fold d' in H1, H2, H3. rewrite H0 in H1, H3. simpl in H3.
  split; [|split].
  - unfold py_slice. change (0 <? 0) with false. cbv beta iota zeta.
    destruct (Z.ltb_spec (num_peaks d') 0) as [?|_]; [lia|].
    rewrite H2 in *. simpl in *.
    replace (Z.min 0 (Z.of_nat (length (peaks d)))) with 0 by lia.
    rewrite Z.sub_0_r. simpl. rewrite <- H3. f_equal. lia.
  - done.
  - intros ->. by rewrite H1.
Qed.

End processor_kernel_closed_form.

Lemma concat_map_seq_lookup {A} (f : nat -> nat -> A) s L C r c :
  (r < L)%nat -> (c < C)%nat ->
  concat (map (fun j => map (f j) (seq 0 C)) (seq s L)) !! (r * C + c)%nat
  = Some (f (s + r)%nat c).
Proof.
  revert s r. induction L as [|L IH]; intros s r Hr Hc; [lia|]. simpl.
  destruct r as [|r].
  - rewrite lookup_app_l by (rewrite length_map, length_seq; lia).
    rewrite Nat.add_0_r. simpl. rewrite lookup_map_seq. case_decide; [done | lia].
  - rewrite lookup_app_r by (rewrite length_map, length_seq; lia).
    rewrite length_map, length_seq.
    replace (S r * C + c - C)%nat with (r * C + c)%nat by lia.
    rewrite IH by lia. do 2 f_equal. lia.
Qed.

Lemma concat_tabulate2_lookup {A} (f : nat -> nat -> A) L C r c :
  (r < L)%nat -> (c < C)%nat ->
  concat (tabulate2 f L C) !! (r * C + c)%nat = Some (f r c).
Proof. intros. unfold tabulate2. by rewrite concat_map_seq_lookup. Qed.

Lemma cl_value_block (f : nat -> nat -> Q) N C n pos d nb :
  0 <= Z.of_nat pos + Z.of_nat n + d < Z.of_nat N -> (nb < C)%nat ->
  cl_value n C (concat (tabulate2 f N C)) pos d nb
  = block_signal (tabulate2 f N C) (Z.of_nat (pos + n) + d) nb.
Proof.
  intros Hd Hnb. unfold cl_value, traces_at, block_signal.
  destruct (Z.ltb_spec (Z.of_nat (pos + n) + d) 0) as [?|_]; [lia|].
  replace (Z.to_nat ((Z.of_nat pos + Z.of_nat n + d) * Z.of_nat C + Z.of_nat nb))
    with (Z.to_nat (Z.of_nat (pos + n) + d) * C + nb)%nat by nia.
  rewrite concat_tabulate2_lookup by lia. unfold at2.
  rewrite get2_tabulate2 by lia. done.
Qed.

Lemma cl_window_block before after (f : nat -> nat -> Q) N C n pos c nb :
  (pos + 2 * n < N)%nat -> (c < C)%nat -> (nb < C)%nat ->
  cl_window n C (concat (tabulate2 f N C)) before after
    (cl_value n C (concat (tabulate2 f N C)) pos 0 c) pos nb
  = window_extremum before after (block_signal (tabulate2 f N C)) n
      (Z.of_nat (pos + n)) c nb.
Proof.
  intros Hpos Hc Hnb. unfold cl_window, window_extremum.
  apply forallb_ext_in. intros i Hi. apply in_seq in Hi.
  rewrite !cl_value_block by lia. by rewrite Z.add_0_r, Z.add_opp_r.
Qed.

Lemma cl_neighbour_test_block same before after (f : nat -> nat -> Q)
    N C n neighbours pos c nb :
  rectangular C neighbours = true -> length neighbours = C ->
  same (block_signal (tabulate2 f N C) (Z.of_nat (pos + n)) c)
       (block_signal (tabulate2 f N C) (Z.of_nat (pos + n)) c) = true ->
  (pos + 2 * n < N)%nat -> (c < C)%nat -> (nb < C)%nat ->
  cl_neighbour_test n C (concat (tabulate2 f N C)) (concat neighbours)
    same before after (cl_value n C (concat (tabulate2 f N C)) pos 0 c) pos c nb
  = negb (mask_get neighbours c nb)
    || ((c =? nb)%nat
        || same (block_signal (tabulate2 f N C) (Z.of_nat (pos + n)) c)
                (block_signal (tabulate2 f N C) (Z.of_nat (pos + n)) nb))
       && window_extremum before after (block_signal (tabulate2 f N C)) n
            (Z.of_nat (pos + n)) c nb.
Proof.
  intros Hrect Hlen Hrefl Hpos Hc Hnb. unfold cl_neighbour_test.
  rewrite cl_window_block by done. rewrite !cl_value_block by lia.
  rewrite !Z.add_0_r.
  rewrite (rectangular_tabulate2 false C neighbours Hrect) at 1.
  rewrite Hlen, concat_tabulate2_lookup by done. simpl.
  fold (mask_get neighbours c nb).
  destruct (Nat.eqb_spec c nb) as [->|Hne]; [|done].
  by rewrite Hrefl.
Qed.

(** The test of the kernel is the rule of the locally-exclusive method. *)
Lemma cl_peak_test_rule sg (f : nat -> nat -> Q) N C n neighbours thr pos c :
  sg <> Both ->
  rectangular C neighbours = true -> length neighbours = C ->
  (pos + 2 * n < N)%nat -> (c < C)%nat ->
  cl_peak_test n C (concat (tabulate2 f N C)) (concat neighbours) thr sg pos c
  = locally_exclusive_peak sg (block_signal (tabulate2 f N C)) thr
      neighbours C n (Z.of_nat (pos + n)) c.
Proof.
  intros Hsg Hrect Hlen Hpos Hc. unfold cl_peak_test. cbv zeta.
  destruct sg; [| |done]; simpl;
    unfold locally_exclusive_pos, locally_exclusive_neg, spatial_extremum;
    fold (threshold_at thr c);
    rewrite (cl_value_block f N C n pos 0 c) by lia;
    rewrite Z.add_0_r; f_equal;
    apply forallb_ext_in; intros nb Hnb; apply in_seq in Hnb;
    rewrite <- (Z.add_0_r (Z.of_nat (pos + n))) at 1;
    rewrite <- (cl_value_block f N C n pos 0 c) by lia;
    rewrite cl_neighbour_test_block; try done; try lia.
  - unfold Qgeb. apply Qle_bool_iff. apply Qle_refl.
  - unfold Qleb. apply Qle_bool_iff. apply Qle_refl.
Qed.

(** ** The OpenCL executor *)

Lemma kernel_sign_of_code sg :
  sg <> Both -> kernel_sign_of (sign_name sg) = Ok (sign_code sg).
Proof. by destruct sg. Qed.

Lemma cl_items_rule sg (f : nat -> nat -> Q) N C n neighbours thr l :
  sg <> Both ->
  rectangular C neighbours = true -> length neighbours = C ->
  Forall (fun pos => (pos + 2 * n < N)%nat) l ->
  flat_map (cl_items n C (concat (tabulate2 f N C)) (concat neighbours) thr sg) l
  = map (fun sc : nat * nat => (Z.of_nat sc.1, sc.2))
      (List.filter (fun sc => locally_exclusive_peak sg
                                (block_signal (tabulate2 f N C)) thr neighbours
                                C n (Z.of_nat sc.1) sc.2)
         (pairs (map (fun pos => (pos + n)%nat) l) (seq 0 C))).
Proof.
  intros Hsg Hrect Hlen Hl. induction Hl as [|pos l Hpos _ IH]; [done|].
  simpl. unfold pairs in *. simpl. rewrite List.filter_app, map_app, IH. f_equal.
  unfold cl_items. rewrite filter_map_swap, map_map. simpl.
  erewrite List.filter_ext_in.
  - apply map_ext. intros c. f_equal. lia.
  - intros c Hc. apply in_seq in Hc. apply cl_peak_test_rule; try done. lia.
Qed.

Lemma opencl_detect_closed env sg thr n neighbours C ex (f : nat -> nat -> Q) N :
  sg <> Both -> HAVE_PYOPENCL env = true -> complete_schedule env ->
  cl_inv sg thr n neighbours ex ->
  rectangular C neighbours = true -> length neighbours = C ->
  (2 * n <= N)%nat ->
  exists ex',
    OpenCLDetectPeakExecutor_detect_peak env ex (tabulate2 f N C)
    = Ok (ex',
          map (fun sc : nat * nat => (Z.of_nat sc.1, sc.2))
            (List.filter (fun sc => locally_exclusive_peak sg
                                      (block_signal (tabulate2 f N C)) thr
                                      neighbours C n (Z.of_nat sc.1) sc.2)
               (pairs (map (fun pos => (pos + n)%nat)
                         (work_item_order env (N - 2 * n)))
                  (seq 0 C))))
    /\ cl_inv sg thr n neighbours ex'.
Proof.
  intros Hsg Hcl Hsched (Hsign & Hthr & Hess & Hmask & Hcompiled) Hrect Hlen HN.
  unfold OpenCLDetectPeakExecutor_detect_peak. rewrite length_tabulate2.
  cbv zeta.
  set (ex1 := Build_OpenCLDetectPeakExecutor _ _ _ _ _ _ _ _ _).
  assert (Hready : exists ex2,
    (if bool_decide (cl_chunk_size ex1 = Some N) then Ok ex1
     else create_buffers_and_compile env ex1 N) = Ok ex2
    /\ cl_chunk_size ex2 = Some N
    /\ cl_peak_sign ex2 = sign_name sg /\ cl_abs_threholds ex2 = thr
    /\ cl_exclude_sweep_size ex2 = Z.of_nat n
    /\ cl_neighbours_mask ex2 = neighbours
    /\ kernel_peak_sign ex2 = sign_code sg
    /\ global_size ex2 = Z.of_nat N - 2 * Z.of_nat n
    /\ length (peaks (dev ex2)) = (length neighbours * N)%nat
    /\ (global_size ex2 <= 0 -> num_peaks (dev ex2) = 0)).
  { case_bool_decide as Hcs.
    - exists ex1. simpl in Hcs. rewrite Hcs in Hcompiled.
      destruct Hcompiled as (H1 & H2 & H3 & H4). by repeat split.
    - unfold create_buffers_and_compile. rewrite Hcl. simpl.
      rewrite Hsign, kernel_sign_of_code by done. simpl.
      eexists. split; [reflexivity|]. simpl. rewrite length_replicate.
      repeat split; try done. by rewrite Hess. by rewrite Hmask. }
  destruct Hready as (ex2 & -> & Hcs & Hsign2 & Hthr2 & Hess2 & Hmask2 & Hcode
                        & Hglobal & Hroom & Hzero).
  unfold mbind, result_bind. cbv beta iota.
  rewrite Hcs, Hess2, Hmask2, Hthr2, Hcode, Hglobal, Hlen. simpl default.
  replace (Z.to_nat (Z.of_nat N - 2 * Z.of_nat n)) with (N - 2 * n)%nat by lia.
  set (order := work_item_order env (N - 2 * n)).
  pose proof (Hsched (N - 2 * n)%nat) as Hperm. fold order in Hperm.
  assert (Horder : Forall (fun pos => (pos + 2 * n < N)%nat) order).
  { apply Forall_forall. intros pos Hin.
    apply list_elem_of_In in Hin. eapply Permutation_in in Hin; [|exact Hperm].
    apply in_seq in Hin. lia. }
  destruct (run_kernel_closed n C (concat (tabulate2 f N C)) (concat neighbours)
              thr sg N order (dev ex2) Hsg Horder) as (Hout & Hcap & Hnone).
  { destruct (decide (N - 2 * n = 0)%nat) as [Hz|Hz].
    - right. apply Hzero. lia.
    - left. apply existsb_exists. exists 0%nat. split; [|done].
      eapply Permutation_in; [symmetry; exact Hperm|]. apply in_seq. lia. }
  { rewrite Hroom, (Permutation_length Hperm), length_seq, Hlen. nia. }
  rewrite Hout, (cl_items_rule sg f N C n neighbours thr order) by done.
  eexists. split; [reflexivity|].
  unfold cl_inv. simpl. repeat split; try done.
  - by rewrite Hcap.
  - intros Hle. apply Hnone.
    assert (Hg : (N - 2 * n = 0)%nat) by lia.
    unfold order in *. rewrite Hg in Hperm |- *.
    by apply Permutation_nil_r.
Qed.

(** ** Chunks with the OpenCL method *)

Lemma list_filter_Permutation {A} (P : A -> bool) l l' :
  Permutation l l' -> Permutation (List.filter P l) (List.filter P l').
Proof.
  induction 1 as [|x l l' _ IH|x y l|l l' l'' _ IH1 _ IH2]; simpl.
  - done.
  - destruct (P x); [by constructor | done].
  - destruct (P x), (P y); try done. constructor.
  - by etrans.
Qed.

Lemma pairs_Permutation ss ss' cs :
  Permutation ss ss' -> Permutation (pairs ss cs) (pairs ss' cs).
Proof. intros H. unfold pairs. by apply Permutation_flat_map. Qed.

Lemma NoDup_list_filter {A} (P : A -> bool) l :
  NoDup l -> NoDup (List.filter P l).
Proof.
  induction 1 as [|x l Hx _ IH]; simpl; [constructor|].
  destruct (P x); [|done]. constructor; [|done].
  rewrite list_elem_of_In, filter_In, <- list_elem_of_In. tauto.
Qed.

Lemma NoDup_pairs ss cs : NoDup ss -> NoDup cs -> NoDup (pairs ss cs).
Proof.
  intros Hss Hcs. unfold pairs. induction Hss as [|s ss Hs _ IH]; simpl; [constructor|].
  apply NoDup_app. split; [|split; [|done]].
  - rewrite map_fmap. apply (NoDup_fmap_2 _); first [done | by intros c c' [= ->]].
  - intros [s' c] Hin Hin'. apply list_elem_of_In in Hin, Hin'.
    apply in_map_iff in Hin as (c0 & [= <- <-] & _).
    apply In_pairs in Hin' as [Hin' _].
    by apply list_elem_of_In in Hin'.
Qed.



(** The worker with the OpenCL method: the peaks of the chunk, in the
    order of the schedule. *)
Lemma opencl_worker_closed_form env sg thr neighbours n executor recording k
    segment e nodes a b :
  sg <> Both -> HAVE_PYOPENCL env = true -> complete_schedule env ->
  cl_inv sg thr n neighbours executor ->
  rectangular (shape1 segment) neighbours = true ->
  length neighbours = shape1 segment ->
  _recording_segments recording !! k = Some segment ->
  rectangular (shape1 segment) segment = true ->
  a <= b ->
  exists executor' peaks outs,
    _detect_peaks_chunk env LocallyExclusiveOpenCL k a b
      (_init_worker_detect_peaks LocallyExclusiveOpenCL recording executor
         (Z.of_nat e) nodes)
    = Ok (_init_worker_detect_peaks LocallyExclusiveOpenCL recording executor'
            (Z.of_nat e) nodes, (peaks, outs))
    /\ cl_inv sg thr n neighbours executor'
    /\ Permutation peaks
         (chunk_peaks
            (locally_exclusive_peak sg (segment_signal segment) thr neighbours
               (shape1 segment) n)
            (segment_signal segment) k a (Z.to_nat (b - a)) (shape1 segment)).
Proof.
  intros Hsg Hcl Hsched Hinv Hnrect Hnlen Hseg Hrect Hab.
  set (C := shape1 segment) in *. set (len := Z.to_nat (b - a)).
  destruct (opencl_detect_closed env sg thr n neighbours C executor
              (fun j c => segment_signal segment (a - Z.of_nat n + Z.of_nat j) c)
              (len + 2 * n) Hsg Hcl Hsched Hinv Hnrect Hnlen)
    as (executor' & Hdet & Hinv'); [lia|].

  replace (len + 2 * n - 2 * n)%nat with len in Hdet by lia.
  pose proof (Hsched len) as Hperm.
  set (order := work_item_order env len) in *.
  assert (Hmargin : get_method_margin LocallyExclusiveOpenCL executor = Z.of_nat n).
  { by destruct Hinv as (_ & _ & Hess & _). }
  destruct (worker_found env LocallyExclusiveOpenCL executor executor' n recording
              k segment e nodes a b _ Hmargin Hseg Hrect Hab Hdet) as [outs Hw].
  { intros s c Hin. apply in_map_iff in Hin as ([j c0] & [= <- <-] & Hin).
    apply filter_In in Hin as [Hin _]. apply In_pairs in Hin as [Hj Hc].
    apply in_map_iff in Hj as (pos & <- & Hpos).
    eapply Permutation_in in Hpos; [|exact Hperm].
    apply in_seq in Hpos. apply in_seq in Hc. simpl. fold C len. lia. }
  eexists executor', _, outs. split; [exact Hw|]. split; [done|].
  subst order. subst C len.
  rewrite <- (rebased_chunk_peaks
                (fun sig => locally_exclusive_peak sg sig thr neighbours
                              (shape1 segment) n)
                segment k n a b Hrect)
    by (intros; by apply locally_exclusive_peak_local).
  do 2 apply Permutation_map. apply list_filter_Permutation, pairs_Permutation.
  rewrite (seq_shift_map n). by apply Permutation_map.
Qed.


Lemma opencl_init_inv env sg thr n neighbours executor :
  OpenCLDetectPeakExecutor_init env thr (Z.of_nat n) neighbours (sign_name sg)
  = Ok executor ->
  HAVE_PYOPENCL env = true /\ cl_inv sg thr n neighbours executor.
Proof.
  unfold OpenCLDetectPeakExecutor_init.
  destruct (HAVE_PYOPENCL env); simpl; [|done].
  intros [= <-]. split; [done|]. by repeat split.
Qed.

(** On a block of at least [2 * n] samples, with a window of at least one
    sample and a peak sign that the kernel knows, the OpenCL method
    returns the pairs of the CPU locally-exclusive method, in the order of
    the schedule. *)
Lemma opencl_agrees_with_cpu env sg thr neighbours n C traces executor :
  sg <> Both -> (1 <= n)%nat -> (2 * n <= length traces)%nat ->
  HAVE_NUMBA env = true -> complete_schedule env ->
  OpenCLDetectPeakExecutor_init env thr (Z.of_nat n) neighbours (sign_name sg)
  = Ok executor ->
  rectangular C traces = true -> length thr = C ->
  rectangular C neighbours = true -> length neighbours = C ->
  exists executor' gpu cpu,
    detect_peaks_of LocallyExclusiveOpenCL env traces executor
    = Ok (executor', gpu)
    /\ detect_peaks_of LocallyExclusive env traces
         (sign_name sg, thr, Z.of_nat n, neighbours)
       = Ok ((sign_name sg, thr, Z.of_nat n, neighbours), cpu)
    /\ Permutation gpu cpu.
Proof.
  intros Hsg Hn HN Hnumba Hsched Hinit Hrect Hthr Hnrect Hnlen.
  apply opencl_init_inv in Hinit as [Hcl Hinv].
  pose proof (rectangular_tabulate2 0%Q C traces Hrect) as Htab.
  destruct (opencl_detect_closed env sg thr n neighbours C executor
              (get2 0%Q traces) (length traces) Hsg Hcl Hsched Hinv Hnrect Hnlen HN)
    as (executor' & Hdet & _).
  rewrite <- Htab in Hdet.
  eexists executor', _, _. split; [exact Hdet|]. split.
  - simpl. rewrite Hnumba.
    by rewrite (locally_exclusive_closed_form sg traces thr neighbours n C).
  - apply Permutation_map, list_filter_Permutation, pairs_Permutation.
    unfold interior. destruct (Nat.eqb_spec n 0) as [?|_]; [lia|].
    rewrite (seq_shift_map n). apply Permutation_map, Hsched.
Qed.



(** The detection method applied to the bare segment, with no padding,
    does not reach the last sample, which the worker reports on its
    zero-padded chunk. *)
Lemma unpadded_method_skips_boundary :
  DetectPeakByChannel.detect_peaks
    [[0; 0]; [9; 0]; [0; 0]; [0; 0]; [0; 8]; [0; 0]; [0; 0]; [7; 0]]%Q
    "pos" [5; 5]%Q 1
  = Ok [(1, 0%nat); (4, 1%nat)]
  /\ match _detect_peaks_chunk (example_env in_order) ByChannel 0 0 8
             (_init_worker_detect_peaks ByChannel example_recording
                ("pos"%string, [5; 5]%Q, 1) 0 None) with
     | Ok (_, (peaks, _)) => map peak_key peaks
     | Raise _ => []
     end = [(1, 0%nat); (4, 1%nat); (7, 0%nat)].
Proof. split; vm_compute; reflexivity. Qed.

(** With an empty exclusion window the kernel reports every threshold
    crossing that dominates its neighbours, while the CPU method, whose
    slice [traces[0:-0]] is empty, reports nothing. *)
Lemma opencl_differs_at_zero_window :
  let env := example_env in_order in
  match OpenCLDetectPeakExecutor_init env [5; 5]%Q 0 [[true; false]; [false; true]]
          "pos" with
  | Ok executor =>
      match OpenCLDetectPeakExecutor_detect_peak env executor [[9; 0]]%Q with
      | Ok (_, found) => found
      | Raise _ => []
      end
  | Raise _ => []
  end = [(0, 0%nat)]
  /\ DetectPeakLocallyExclusive.detect_peaks true [[9; 0]]%Q "pos" [5; 5]%Q 0
       [[true; false]; [false; true]] = Ok [].
Proof. split; vm_compute; reflexivity. Qed.

(** * Further properties of the detection methods *)

(** ** Comparisons under negation and under a positive gain *)

Lemma Qle_bool_ext a b c d :
  ((a <= b)%Q <-> (c <= d)%Q) -> Qle_bool a b = Qle_bool c d.
Proof.
  intros H. destruct (Qle_bool a b) eqn:E1, (Qle_bool c d) eqn:E2; try done.
  - apply Qle_bool_iff, H, Qle_bool_iff in E1. congruence.
  - apply Qle_bool_iff, H, Qle_bool_iff in E2. congruence.
Qed.

Lemma Qle_bool_opp x y : Qle_bool (- x) (- y) = Qle_bool y x.
Proof.
  apply Qle_bool_ext. split; intros H.
  - apply Qopp_le_compat in H. by rewrite !Qopp_involutive in H.
  - by apply Qopp_le_compat.
Qed.

Lemma Qle_bool_opp_l x y : Qle_bool (- x) y = Qle_bool (- y) x.
Proof.
  apply Qle_bool_ext. split; intros H.
  - apply Qopp_le_compat in H. by rewrite Qopp_involutive in H.
  - apply Qopp_le_compat in H. by rewrite Qopp_involutive in H.
Qed.

Lemma Qle_bool_scale k x y :
  (0 < k)%Q -> Qle_bool (k * x) (k * y) = Qle_bool x y.
Proof. intros Hk. apply Qle_bool_ext. by apply Qmult_le_l. Qed.

Lemma Qle_bool_scale_opp_r k x y :
  (0 < k)%Q -> Qle_bool (k * x) (- (k * y)) = Qle_bool x (- y).
Proof.
  intros Hk. rewrite <- (Qle_bool_scale k x (- y)) by done.
  apply Qle_bool_ext.
  assert (E : (k * - y == - (k * y))%Q) by ring. by rewrite E.
Qed.

Lemma Qle_bool_scale_opp_l k x y :
  (0 < k)%Q -> Qle_bool (- (k * y)) (k * x) = Qle_bool (- y) x.
Proof.
  intros Hk. rewrite <- (Qle_bool_scale k (- y) x) by done.
  apply Qle_bool_ext.
  assert (E : (k * - y == - (k * y))%Q) by ring. by rewrite E.
Qed.

(** ** The rules under a map of the values *)

Lemma window_extremum_transfer before after before' after' (f : Q -> Q)
    (sig sig' : signal) n t c nb :
  (forall x y, before' (f x) (f y) = before x y) ->
  (forall x y, after' (f x) (f y) = after x y) ->
  (forall d, - Z.of_nat n <= d <= Z.of_nat n ->
     sig' (t + d) c = f (sig (t + d) c) /\ sig' (t + d) nb = f (sig (t + d) nb)) ->
  window_extremum before' after' sig' n t c nb
  = window_extremum before after sig n t c nb.
Proof.
  intros Hb Ha Hsig. unfold window_extremum. apply forallb_ext_in.
  intros i Hi. apply in_seq in Hi.
  destruct (Hsig 0) as [H0 _]; [lia|]. rewrite !Z.add_0_r in H0.
  destruct (Hsig (- Z.of_nat i)) as [_ Hm]; [lia|].
  destruct (Hsig (Z.of_nat i)) as [_ Hp]; [lia|].
  rewrite Z.add_opp_r in Hm. by rewrite H0, Hm, Hp, Hb, Ha.
Qed.

Lemma spatial_extremum_transfer same before after same' before' after'
    (f : Q -> Q) (sig sig' : signal) neighbours C n t c :
  (forall x y, same' (f x) (f y) = same x y) ->
  (forall x y, before' (f x) (f y) = before x y) ->
  (forall x y, after' (f x) (f y) = after x y) ->
  (forall d c', - Z.of_nat n <= d <= Z.of_nat n -> (c' < C)%nat ->
     sig' (t + d) c' = f (sig (t + d) c')) ->
  (c < C)%nat ->
  spatial_extremum same' before' after' sig' neighbours C n t c
  = spatial_extremum same before after sig neighbours C n t c.
Proof.
  intros Hs Hb Ha Hsig Hc. unfold spatial_extremum. apply forallb_ext_in.
  intros nb Hnb. apply in_seq in Hnb.
  rewrite (window_extremum_transfer before after before' after' f sig sig')
    by (try done; intros d Hd; split; apply Hsig; lia).
  pose proof (Hsig 0 c) as H0. pose proof (Hsig 0 nb) as H0'.
  rewrite !Z.add_0_r in H0, H0'. by rewrite H0, H0', Hs by lia.
Qed.

Lemma block_map_rectangular f C traces :
  rectangular C traces = true -> rectangular C (block_map f traces) = true.
Proof.
  unfold rectangular, block_map. rewrite !forallb_forall. intros H row Hrow.
  apply in_map_iff in Hrow as (row' & <- & Hrow'). rewrite length_map.
  by apply H.
Qed.

Lemma block_map_length f traces : length (block_map f traces) = length traces.
Proof. apply length_map. Qed.

(** Inside the block the signal of [f(traces)] is [f] of the signal. *)
Lemma block_signal_map f C traces t c :
  rectangular C traces = true ->
  0 <= t < Z.of_nat (length traces) -> (c < C)%nat ->
  block_signal (block_map f traces) t c = f (block_signal traces t c).
Proof.
  intros Hrect Ht Hc. unfold block_signal.
  destruct (Z.ltb_spec t 0) as [?|_]; [lia|].
  unfold at2, get2, block_map.
  destruct (lookup_lt_is_Some_2 traces (Z.to_nat t)) as [row Hrow]; [lia|].
  rewrite map_fmap, list_lookup_fmap, Hrow. simpl.
  pose proof (rectangular_lookup C traces _ row Hrect Hrow) as Hlen.
  destruct (lookup_lt_is_Some_2 row c) as [x Hx]; [lia|].
  by rewrite map_fmap, list_lookup_fmap, Hx.
Qed.

(** The two closed forms, for any predicate that agrees on the interior. *)
Lemma closed_form_ext (P Q : Z -> nat -> bool) n N C :
  (forall j c, (1 <= n)%nat -> (n <= j < N - n)%nat -> (c < C)%nat ->
     P (Z.of_nat j) c = Q (Z.of_nat j) c) ->
  map (fun sc : nat * nat => (Z.of_nat sc.1, sc.2))
    (List.filter (fun sc => P (Z.of_nat sc.1) sc.2)
       (pairs (interior n N) (seq 0 C)))
  = map (fun sc : nat * nat => (Z.of_nat sc.1, sc.2))
      (List.filter (fun sc => Q (Z.of_nat sc.1) sc.2)
         (pairs (interior n N) (seq 0 C))).
Proof.
  intros H. f_equal. apply List.filter_ext_in. intros [j c] Hin.
  apply In_pairs in Hin as [Hj Hc]. apply In_interior in Hj as [Hn Hj].
  apply in_seq in Hc. simpl. apply H; lia.
Qed.

Lemma Qgtb_opp x y : Qgtb (- x) (- y) = Qltb x y.
Proof. unfold Qgtb, Qltb. by rewrite Qle_bool_opp. Qed.

Lemma Qltb_opp x y : Qltb (- x) (- y) = Qgtb x y.
Proof. unfold Qgtb, Qltb. by rewrite Qle_bool_opp. Qed.

Lemma Qgeb_opp x y : Qgeb (- x) (- y) = Qleb x y.
Proof. unfold Qgeb, Qleb. by rewrite Qle_bool_opp. Qed.

Lemma Qleb_opp x y : Qleb (- x) (- y) = Qgeb x y.
Proof. unfold Qgeb, Qleb. by rewrite Qle_bool_opp. Qed.

Lemma Qgtb_opp_l x y : Qgtb (- x) y = Qltb x (- y).
Proof. unfold Qgtb, Qltb. by rewrite Qle_bool_opp_l. Qed.

Lemma by_channel_peak_negated sg (sig sig' : signal) thr n t c :
  (forall d, - Z.of_nat n <= d <= Z.of_nat n ->
     sig' (t + d) c = Qopp (sig (t + d) c)) ->
  by_channel_peak (flip sg) sig' thr n t c = by_channel_peak sg sig thr n t c.
Proof.
  intros Hsig.
  assert (H0 : sig' t c = Qopp (sig t c)).
  { specialize (Hsig 0). rewrite !Z.add_0_r in Hsig. apply Hsig. lia. }
  assert (Hpos : by_channel_pos sig' thr n t c = by_channel_neg sig thr n t c).
  { unfold by_channel_pos, by_channel_neg.
    rewrite (window_extremum_transfer Qltb Qleb Qgtb Qgeb Qopp sig sig');
      [ | apply Qgtb_opp | apply Qgeb_opp | by intros d Hd; split; apply Hsig].
    by rewrite H0, Qgtb_opp_l. }
  assert (Hneg : by_channel_neg sig' thr n t c = by_channel_pos sig thr n t c).
  { unfold by_channel_pos, by_channel_neg.
    rewrite (window_extremum_transfer Qgtb Qgeb Qltb Qleb Qopp sig sig');
      [ | apply Qltb_opp | apply Qleb_opp | by intros d Hd; split; apply Hsig].
    by rewrite H0, Qltb_opp. }
  destruct sg; simpl; rewrite ?Hpos, ?Hneg; [done | done | apply orb_comm].
Qed.

Lemma locally_exclusive_peak_negated sg (sig sig' : signal) thr neighbours C n t c :
  (forall d c', - Z.of_nat n <= d <= Z.of_nat n -> (c' < C)%nat ->
     sig' (t + d) c' = Qopp (sig (t + d) c')) ->
  (c < C)%nat ->
  locally_exclusive_peak (flip sg) sig' thr neighbours C n t c
  = locally_exclusive_peak sg sig thr neighbours C n t c.
Proof.
  intros Hsig Hc.
  assert (H0 : sig' t c = Qopp (sig t c)).
  { specialize (Hsig 0 c). rewrite !Z.add_0_r in Hsig. apply Hsig; lia. }
  assert (Hpos : locally_exclusive_pos sig' thr neighbours C n t c
                 = locally_exclusive_neg sig thr neighbours C n t c).
  { unfold locally_exclusive_pos, locally_exclusive_neg.
    rewrite (spatial_extremum_transfer Qleb Qltb Qleb Qgeb Qgtb Qgeb Qopp sig sig');
      [ | apply Qgeb_opp | apply Qgtb_opp | apply Qgeb_opp | done | done].
    by rewrite H0, Qgtb_opp_l. }
  assert (Hneg : locally_exclusive_neg sig' thr neighbours C n t c
                 = locally_exclusive_pos sig thr neighbours C n t c).
  { unfold locally_exclusive_pos, locally_exclusive_neg.
    rewrite (spatial_extremum_transfer Qgeb Qgtb Qgeb Qleb Qltb Qleb Qopp sig sig');
      [ | apply Qleb_opp | apply Qltb_opp | apply Qleb_opp | done | done].
    by rewrite H0, Qltb_opp. }
  destruct sg; simpl; rewrite ?Hpos, ?Hneg; [done | done | apply orb_comm].
Qed.

(** X1. Polarity duality.  Detecting the peaks of one polarity on the
    negated traces is detecting the peaks of the opposite polarity on the
    traces, with the same thresholds and the same window: the two calls
    return the same list, for the by-channel method and for the
    locally-exclusive method; with ['both'] negating the traces changes
    nothing. *)
Theorem negated_traces_swap_polarity (sg : sign) (traces : block)
    (thr : list Q) (neighbours : mask) (n C : nat) :
  rectangular C traces = true -> length thr = C ->
  DetectPeakByChannel.detect_peaks (block_map Qopp traces)
    (sign_name (flip sg)) thr (Z.of_nat n)
  = DetectPeakByChannel.detect_peaks traces (sign_name sg) thr (Z.of_nat n)
  /\ DetectPeakLocallyExclusive.detect_peaks true (block_map Qopp traces)
       (sign_name (flip sg)) thr (Z.of_nat n) neighbours
     = DetectPeakLocallyExclusive.detect_peaks true traces (sign_name sg) thr
         (Z.of_nat n) neighbours.
Proof.
  intros Hrect Hthr.
  pose proof (block_map_rectangular Qopp C traces Hrect) as Hrect'.
  rewrite (by_channel_closed_form (flip sg) _ thr n C Hrect' Hthr),
    (by_channel_closed_form sg traces thr n C Hrect Hthr),
    (locally_exclusive_closed_form (flip sg) _ thr neighbours n C Hrect' Hthr),
    (locally_exclusive_closed_form sg traces thr neighbours n C Hrect Hthr),
    !block_map_length.
  split; f_equal; apply closed_form_ext; intros j c Hn Hj Hc.
  - apply by_channel_peak_negated. intros d Hd.
    apply (block_signal_map Qopp C); [done | lia | done].
  - apply locally_exclusive_peak_negated; [|done]. intros d c' Hd Hc'.
    apply (block_signal_map Qopp C); [done | lia | done].
Qed.

Lemma negated_traces_swap_polarity_witness :
  DetectPeakByChannel.detect_peaks
    (block_map Qopp [[0; 0]; [9; 0]; [0; 0]; [0; -8]; [0; 0]]%Q) "neg"
    [5; 5]%Q 1
  = DetectPeakByChannel.detect_peaks
      [[0; 0]; [9; 0]; [0; 0]; [0; -8]; [0; 0]]%Q "pos" [5; 5]%Q 1
  /\ DetectPeakLocallyExclusive.detect_peaks true
       (block_map Qopp [[0; 0]; [9; 0]; [0; 0]; [0; -8]; [0; 0]]%Q) "neg"
       [5; 5]%Q 1 [[true; true]; [true; true]]
     = DetectPeakLocallyExclusive.detect_peaks true
         [[0; 0]; [9; 0]; [0; 0]; [0; -8]; [0; 0]]%Q "pos" [5; 5]%Q 1
         [[true; true]; [true; true]].
Proof.
  exact (negated_traces_swap_polarity Pos
           [[0; 0]; [9; 0]; [0; 0]; [0; -8]; [0; 0]]%Q [5; 5]%Q
           [[true; true]; [true; true]] 1 2 eq_refl eq_refl).
Defined.

Lemma threshold_at_map f thr c :
  (c < length thr)%nat -> threshold_at (map f thr) c = f (threshold_at thr c).
Proof.
  intros Hc. unfold threshold_at.
  destruct (lookup_lt_is_Some_2 thr c Hc) as [x Hx].
  by rewrite map_fmap, list_lookup_fmap, Hx.
Qed.

Section positive_gain.
Variable k : Q.
Hypothesis k_pos : (0 < k)%Q.

Lemma Qgtb_scale x y : Qgtb (k * x) (k * y) = Qgtb x y.
Proof using k_pos. unfold Qgtb. by rewrite Qle_bool_scale. Qed.

Lemma Qltb_scale x y : Qltb (k * x) (k * y) = Qltb x y.
Proof using k_pos. unfold Qltb. by rewrite Qle_bool_scale. Qed.

Lemma Qgeb_scale x y : Qgeb (k * x) (k * y) = Qgeb x y.
Proof using k_pos. unfold Qgeb. by rewrite Qle_bool_scale. Qed.

Lemma Qleb_scale x y : Qleb (k * x) (k * y) = Qleb x y.
Proof using k_pos. unfold Qleb. by rewrite Qle_bool_scale. Qed.

Lemma Qltb_scale_opp x y : Qltb (k * x) (- (k * y)) = Qltb x (- y).
Proof using k_pos. unfold Qltb. by rewrite Qle_bool_scale_opp_l. Qed.

Lemma by_channel_peak_scaled sg (sig sig' : signal) thr n t c :
  (c < length thr)%nat ->
  (forall d, - Z.of_nat n <= d <= Z.of_nat n ->
     sig' (t + d) c = Qmult k (sig (t + d) c)) ->
  by_channel_peak sg sig' (map (Qmult k) thr) n t c
  = by_channel_peak sg sig thr n t c.
Proof using k_pos.
  intros Hc Hsig.
  assert (H0 : sig' t c = Qmult k (sig t c)).
  { specialize (Hsig 0). rewrite !Z.add_0_r in Hsig. apply Hsig. lia. }
  assert (Hpos : by_channel_pos sig' (map (Qmult k) thr) n t c
                 = by_channel_pos sig thr n t c).
  { unfold by_channel_pos.
    rewrite (window_extremum_transfer Qgtb Qgeb Qgtb Qgeb (Qmult k) sig sig');
      [ | apply Qgtb_scale | apply Qgeb_scale
        | by intros d Hd; split; apply Hsig].
    by rewrite H0, threshold_at_map, Qgtb_scale. }
  assert (Hneg : by_channel_neg sig' (map (Qmult k) thr) n t c
                 = by_channel_neg sig thr n t c).
  { unfold by_channel_neg.
    rewrite (window_extremum_transfer Qltb Qleb Qltb Qleb (Qmult k) sig sig');
      [ | apply Qltb_scale | apply Qleb_scale
        | by intros d Hd; split; apply Hsig].
    by rewrite H0, threshold_at_map, Qltb_scale_opp. }
  destruct sg; simpl; by rewrite ?Hpos, ?Hneg.
Qed.

Lemma locally_exclusive_peak_scaled sg (sig sig' : signal) thr neighbours
    C n t c :
  (c < length thr)%nat -> (c < C)%nat ->
  (forall d c', - Z.of_nat n <= d <= Z.of_nat n -> (c' < C)%nat ->
     sig' (t + d) c' = Qmult k (sig (t + d) c')) ->
  locally_exclusive_peak sg sig' (map (Qmult k) thr) neighbours C n t c
  = locally_exclusive_peak sg sig thr neighbours C n t c.
Proof using k_pos.
  intros Hthr Hc Hsig.
  assert (H0 : sig' t c = Qmult k (sig t c)).
  { specialize (Hsig 0 c). rewrite !Z.add_0_r in Hsig. apply Hsig; lia. }
  assert (Hpos : locally_exclusive_pos sig' (map (Qmult k) thr) neighbours C n t c
                 = locally_exclusive_pos sig thr neighbours C n t c).
  { unfold locally_exclusive_pos.
    rewrite (spatial_extremum_transfer Qgeb Qgtb Qgeb Qgeb Qgtb Qgeb (Qmult k)
               sig sig');
      [ | apply Qgeb_scale | apply Qgtb_scale | apply Qgeb_scale | done | done].
    by rewrite H0, threshold_at_map, Qgtb_scale. }
  assert (Hneg : locally_exclusive_neg sig' (map (Qmult k) thr) neighbours C n t c
                 = locally_exclusive_neg sig thr neighbours C n t c).
  { unfold locally_exclusive_neg.
    rewrite (spatial_extremum_transfer Qleb Qltb Qleb Qleb Qltb Qleb (Qmult k)
               sig sig');
      [ | apply Qleb_scale | apply Qltb_scale | apply Qleb_scale | done | done].
    by rewrite H0, threshold_at_map, Qltb_scale_opp. }
  destruct sg; simpl; by rewrite ?Hpos, ?Hneg.
Qed.

End positive_gain.

(** X2. Gain invariance.  Multiplying the traces and the thresholds by
    the same positive gain does not change the peaks: both methods return
    the same list on [k * traces] with [k * abs_threholds] as on [traces]
    with [abs_threholds]. *)
Theorem positive_gain_invariance (k : Q) (sg : sign) (traces : block)
    (thr : list Q) (neighbours : mask) (n C : nat) :
  (0 < k)%Q -> rectangular C traces = true -> length thr = C ->
  DetectPeakByChannel.detect_peaks (block_map (Qmult k) traces)
    (sign_name sg) (map (Qmult k) thr) (Z.of_nat n)
  = DetectPeakByChannel.detect_peaks traces (sign_name sg) thr (Z.of_nat n)
  /\ DetectPeakLocallyExclusive.detect_peaks true (block_map (Qmult k) traces)
       (sign_name sg) (map (Qmult k) thr) (Z.of_nat n) neighbours
     = DetectPeakLocallyExclusive.detect_peaks true traces (sign_name sg) thr
         (Z.of_nat n) neighbours.
Proof.
  intros Hk Hrect Hthr.
  pose proof (block_map_rectangular (Qmult k) C traces Hrect) as Hrect'.
  assert (Hthr' : length (map (Qmult k) thr) = C) by by rewrite length_map.
  rewrite (by_channel_closed_form sg _ _ n C Hrect' Hthr'),
    (by_channel_closed_form sg traces thr n C Hrect Hthr),
    (locally_exclusive_closed_form sg _ _ neighbours n C Hrect' Hthr'),
    (locally_exclusive_closed_form sg traces thr neighbours n C Hrect Hthr),
    !block_map_length.
  split; f_equal; apply closed_form_ext; intros j c Hn Hj Hc.
  - apply by_channel_peak_scaled; [done | lia |]. intros d Hd.
    apply (block_signal_map (Qmult k) C); [done | lia | done].
  - apply locally_exclusive_peak_scaled; [done | lia | done |].
    intros d c' Hd Hc'.
    apply (block_signal_map (Qmult k) C); [done | lia | done].
Qed.

Lemma positive_gain_invariance_witness :
  DetectPeakByChannel.detect_peaks
    (block_map (Qmult 3) [[0; 0]; [9; 0]; [0; 0]; [0; -8]; [0; 0]]%Q) "both"
    (map (Qmult 3) [5; 5]%Q) 1
  = DetectPeakByChannel.detect_peaks
      [[0; 0]; [9; 0]; [0; 0]; [0; -8]; [0; 0]]%Q "both" [5; 5]%Q 1
  /\ DetectPeakLocallyExclusive.detect_peaks true
       (block_map (Qmult 3) [[0; 0]; [9; 0]; [0; 0]; [0; -8]; [0; 0]]%Q) "both"
       (map (Qmult 3) [5; 5]%Q) 1 [[true; true]; [true; true]]
     = DetectPeakLocallyExclusive.detect_peaks true
         [[0; 0]; [9; 0]; [0; 0]; [0; -8]; [0; 0]]%Q "both" [5; 5]%Q 1
         [[true; true]; [true; true]].
Proof.
  exact (positive_gain_invariance 3 Both
           [[0; 0]; [9; 0]; [0; 0]; [0; -8]; [0; 0]]%Q [5; 5]%Q
           [[true; true]; [true; true]] 1 2 eq_refl eq_refl eq_refl).
Defined.

(** ** Thresholds, short blocks, unknown signs *)

Lemma threshold_at_le thr thr' c :
  Forall2 Qle thr thr' -> (threshold_at thr c <= threshold_at thr' c)%Q.
Proof.
  intros H. unfold threshold_at.
  destruct (thr !! c) as [x|] eqn:Hx.
  - destruct (Forall2_lookup_l _ _ _ _ _ H Hx) as (y & -> & Hxy). done.
  - rewrite lookup_ge_None_2; [apply Qle_refl|].
    rewrite <- (Forall2_length _ _ _ H). by apply lookup_ge_None_1.
Qed.

Lemma Qgtb_threshold_mono x t t' :
  (t <= t')%Q -> Qgtb x t' = true -> Qgtb x t = true.
Proof. rewrite !Qgtb_lt. intros Hle Hlt. by eapply Qle_lt_trans. Qed.

Lemma Qltb_threshold_mono x t t' :
  (t <= t')%Q -> Qltb x (- t') = true -> Qltb x (- t) = true.
Proof.
  rewrite !Qltb_lt. intros Hle Hlt. eapply Qlt_le_trans; [done|].
  by apply Qopp_le_compat.
Qed.

Lemma by_channel_peak_threshold_mono sg sig thr thr' n t c :
  Forall2 Qle thr thr' ->
  by_channel_peak sg sig thr' n t c = true ->
  by_channel_peak sg sig thr n t c = true.
Proof.
  intros Hle. pose proof (threshold_at_le thr thr' c Hle) as Hc.
  assert (Hpos : by_channel_pos sig thr' n t c = true ->
                 by_channel_pos sig thr n t c = true).
  { unfold by_channel_pos. rewrite !andb_true_iff. intros [H1 H2].
    split; [by eapply Qgtb_threshold_mono | done]. }
  assert (Hneg : by_channel_neg sig thr' n t c = true ->
                 by_channel_neg sig thr n t c = true).
  { unfold by_channel_neg. rewrite !andb_true_iff. intros [H1 H2].
    split; [by eapply Qltb_threshold_mono | done]. }
  destruct sg; simpl; [done | done |].
  rewrite !orb_true_iff. tauto.
Qed.

Lemma locally_exclusive_peak_threshold_mono sg sig thr thr' neighbours C n t c :
  Forall2 Qle thr thr' ->
  locally_exclusive_peak sg sig thr' neighbours C n t c = true ->
  locally_exclusive_peak sg sig thr neighbours C n t c = true.
Proof.
  intros Hle. pose proof (threshold_at_le thr thr' c Hle) as Hc.
  assert (Hpos : locally_exclusive_pos sig thr' neighbours C n t c = true ->
                 locally_exclusive_pos sig thr neighbours C n t c = true).
  { unfold locally_exclusive_pos. rewrite !andb_true_iff. intros [H1 H2].
    split; [by eapply Qgtb_threshold_mono | done]. }
  assert (Hneg : locally_exclusive_neg sig thr' neighbours C n t c = true ->
                 locally_exclusive_neg sig thr neighbours C n t c = true).
  { unfold locally_exclusive_neg. rewrite !andb_true_iff. intros [H1 H2].
    split; [by eapply Qltb_threshold_mono | done]. }
  destruct sg; simpl; [done | done |].
  rewrite !orb_true_iff. tauto.
Qed.

Lemma closed_form_incl (P Q : Z -> nat -> bool) n N C :
  (forall s c, P s c = true -> Q s c = true) ->
  incl
    (map (fun sc : nat * nat => (Z.of_nat sc.1, sc.2))
       (List.filter (fun sc => P (Z.of_nat sc.1) sc.2)
          (pairs (interior n N) (seq 0 C))))
    (map (fun sc : nat * nat => (Z.of_nat sc.1, sc.2))
       (List.filter (fun sc => Q (Z.of_nat sc.1) sc.2)
          (pairs (interior n N) (seq 0 C)))).
Proof.
  intros H [s c]. rewrite !In_closed_form. intros (Hs & Hc & HP).
  split; [done|]. split; [done|]. by apply H.
Qed.

(** X3. Raising the thresholds never adds a peak: with thresholds that
    are channel by channel at least as large, each method returns a
    sublist of what it returns with the smaller thresholds. *)
Theorem higher_thresholds_fewer_peaks (sg : sign) (traces : block)
    (thr thr' : list Q) (neighbours : mask) (n C : nat) :
  rectangular C traces = true -> length thr = C -> Forall2 Qle thr thr' ->
  (exists low high,
     DetectPeakByChannel.detect_peaks traces (sign_name sg) thr (Z.of_nat n)
     = Ok low
     /\ DetectPeakByChannel.detect_peaks traces (sign_name sg) thr' (Z.of_nat n)
        = Ok high
     /\ incl high low)
  /\ (exists low high,
        DetectPeakLocallyExclusive.detect_peaks true traces (sign_name sg) thr
          (Z.of_nat n) neighbours = Ok low
        /\ DetectPeakLocallyExclusive.detect_peaks true traces (sign_name sg)
             thr' (Z.of_nat n) neighbours = Ok high
        /\ incl high low).
Proof.
  intros Hrect Hthr Hle.
  assert (Hthr' : length thr' = C) by (by rewrite <- (Forall2_length _ _ _ Hle)).
  split; eexists _, _.
  - rewrite (by_channel_closed_form sg traces thr n C Hrect Hthr),
      (by_channel_closed_form sg traces thr' n C Hrect Hthr').
    split; [done|]. split; [done|]. apply closed_form_incl.
    intros s c. by apply by_channel_peak_threshold_mono.
  - rewrite (locally_exclusive_closed_form sg traces thr neighbours n C Hrect Hthr),
      (locally_exclusive_closed_form sg traces thr' neighbours n C Hrect Hthr').
    split; [done|]. split; [done|]. apply closed_form_incl.
    intros s c. by apply locally_exclusive_peak_threshold_mono.
Qed.

Lemma higher_thresholds_fewer_peaks_witness :
  let traces := [[0; 0]; [9; 0]; [0; 0]; [0; 8]; [0; 0]]%Q in
  let nm := [[true; true]; [true; true]] in
  (exists low high,
     DetectPeakByChannel.detect_peaks traces "pos" [5; 5]%Q 1 = Ok low
     /\ DetectPeakByChannel.detect_peaks traces "pos" [5; 17 # 2]%Q 1 = Ok high
     /\ incl high low)
  /\ (exists low high,
        DetectPeakLocallyExclusive.detect_peaks true traces "pos" [5; 5]%Q 1 nm
        = Ok low
        /\ DetectPeakLocallyExclusive.detect_peaks true traces "pos"
             [5; 17 # 2]%Q 1 nm = Ok high
        /\ incl high low).
Proof.
  intros traces nm.
  apply (higher_thresholds_fewer_peaks Pos traces [5; 5]%Q [5; 17 # 2]%Q nm 1 2);
    [reflexivity | reflexivity |].
  repeat constructor; discriminate.
Defined.

(** X4. A block too short to hold a sample with a full window on both
    sides (at most [2 * exclude_sweep_size] samples, the empty block
    included) yields no peak and no error. *)
Theorem short_block_no_peaks (sg : sign) (traces : block) (thr : list Q)
    (neighbours : mask) (n C : nat) :
  rectangular C traces = true -> length thr = C ->
  (length traces <= 2 * n)%nat ->
  DetectPeakByChannel.detect_peaks traces (sign_name sg) thr (Z.of_nat n) = Ok []
  /\ DetectPeakLocallyExclusive.detect_peaks true traces (sign_name sg) thr
       (Z.of_nat n) neighbours = Ok [].
Proof.
  intros Hrect Hthr Hlen.
  rewrite (by_channel_closed_form sg traces thr n C Hrect Hthr),
    (locally_exclusive_closed_form sg traces thr neighbours n C Hrect Hthr).
  assert (Hint : interior n (length traces) = []).
  { unfold interior. destruct (n =? 0)%nat; [done|].
    by replace (length traces - 2 * n)%nat with 0%nat by lia. }
  by rewrite Hint.
Qed.

Lemma short_block_no_peaks_witness :
  DetectPeakByChannel.detect_peaks [[9; 0]; [0; 9]]%Q "pos" [5; 5]%Q 1 = Ok []
  /\ DetectPeakLocallyExclusive.detect_peaks true [[9; 0]; [0; 9]]%Q "pos"
       [5; 5]%Q 1 [[true; true]; [true; true]] = Ok [].
Proof.
  apply (short_block_no_peaks Pos [[9; 0]; [0; 9]]%Q [5; 5]%Q
           [[true; true]; [true; true]] 1 2); [reflexivity | reflexivity |].
  simpl. lia.
Defined.

Lemma str_in_false s l : ~ In s l -> str_in s l = false.
Proof.
  intros H. unfold str_in. apply not_true_iff_false. intros Hex.
  apply existsb_exists in Hex as (x & Hx & Heq). apply String.eqb_eq in Heq.
  by subst.
Qed.

(** X5. Called with a [peak_sign] that is none of ['pos'], ['neg'],
    ['both'], that is past [check_params], [detect_peaks] of both CPU
    methods fails on the unbound [peak_mask] whatever the traces are. *)
Theorem unknown_sign_unbound_mask (traces : block) (peak_sign : string)
    (thr : list Q) (ess : Z) (neighbours : mask) :
  ~ In peak_sign ["pos"; "neg"; "both"]%string ->
  DetectPeakByChannel.detect_peaks traces peak_sign thr ess
  = Raise UnboundLocalError
  /\ DetectPeakLocallyExclusive.detect_peaks true traces peak_sign thr ess
       neighbours = Raise UnboundLocalError.
Proof.
  intros Hsign.
  assert (H1 : str_in peak_sign ["pos"; "both"]%string = false).
  { apply str_in_false. simpl in *. tauto. }
  assert (H2 : str_in peak_sign ["neg"; "both"]%string = false).
  { apply str_in_false. simpl in *. tauto. }
  unfold DetectPeakByChannel.detect_peaks, DetectPeakLocallyExclusive.detect_peaks.
  cbv zeta. rewrite H1, H2. done.
Qed.

Lemma unknown_sign_unbound_mask_witness :
  DetectPeakByChannel.detect_peaks [[9; 0]]%Q "up" [5; 5]%Q 1
  = Raise UnboundLocalError
  /\ DetectPeakLocallyExclusive.detect_peaks true [[9; 0]]%Q "up" [5; 5]%Q 1
       [[true; true]; [true; true]] = Raise UnboundLocalError.
Proof.
  apply unknown_sign_unbound_mask. simpl.
  intros [H|[H|[H|[]]]]; discriminate H.
Defined.

(** ** The locally-exclusive method against the by-channel method *)

Lemma spatial_extremum_self same before after sig neighbours C n t c :
  (c < C)%nat -> mask_get neighbours c c = true ->
  spatial_extremum same before after sig neighbours C n t c = true ->
  window_extremum before after sig n t c c = true.
Proof.
  intros Hc Hself H. rewrite spatial_extremum_spec in H.
  apply window_extremum_spec. by apply (H c Hc Hself).
Qed.

Lemma locally_exclusive_peak_by_channel sg sig thr neighbours C n t c :
  (c < C)%nat -> mask_get neighbours c c = true ->
  locally_exclusive_peak sg sig thr neighbours C n t c = true ->
  by_channel_peak sg sig thr n t c = true.
Proof.
  intros Hc Hself.
  assert (Hpos : locally_exclusive_pos sig thr neighbours C n t c = true ->
                 by_channel_pos sig thr n t c = true).
  { unfold locally_exclusive_pos, by_channel_pos. rewrite !andb_true_iff.
    intros [H1 H2]. split; [done|]. by eapply spatial_extremum_self. }
  assert (Hneg : locally_exclusive_neg sig thr neighbours C n t c = true ->
                 by_channel_neg sig thr n t c = true).
  { unfold locally_exclusive_neg, by_channel_neg. rewrite !andb_true_iff.
    intros [H1 H2]. split; [done|]. by eapply spatial_extremum_self. }
  destruct sg; simpl; [done | done |].
  rewrite !orb_true_iff. tauto.
Qed.

(** X6. When every channel is its own neighbour in the mask, every peak
    of the locally-exclusive method is a peak of the by-channel method run
    with the same sign, thresholds and window. *)
Theorem locally_exclusive_within_by_channel (sg : sign) (traces : block)
    (thr : list Q) (neighbours : mask) (n C : nat) :
  rectangular C traces = true -> length thr = C ->
  (forall c, (c < C)%nat -> mask_get neighbours c c = true) ->
  exists local channel,
    DetectPeakLocallyExclusive.detect_peaks true traces (sign_name sg) thr
      (Z.of_nat n) neighbours = Ok local
    /\ DetectPeakByChannel.detect_peaks traces (sign_name sg) thr (Z.of_nat n)
       = Ok channel
    /\ incl local channel.
Proof.
  intros Hrect Hthr Hself. eexists _, _.
  rewrite (by_channel_closed_form sg traces thr n C Hrect Hthr),
    (locally_exclusive_closed_form sg traces thr neighbours n C Hrect Hthr).
  split; [done|]. split; [done|].
  intros [s c]. rewrite !In_closed_form. intros (Hs & Hc & HP).
  split; [done|]. split; [done|].
  eapply locally_exclusive_peak_by_channel; [exact Hc | by apply Hself | exact HP].
Qed.

Lemma locally_exclusive_within_by_channel_witness :
  let traces := [[0; 0]; [9; 8]; [0; 0]; [0; 8]; [0; 0]]%Q in
  exists local channel,
    DetectPeakLocallyExclusive.detect_peaks true traces "pos" [5; 5]%Q 1
      [[true; true]; [true; true]] = Ok local
    /\ DetectPeakByChannel.detect_peaks traces "pos" [5; 5]%Q 1 = Ok channel
    /\ incl local channel.
Proof.
  intros traces.
  apply (locally_exclusive_within_by_channel Pos traces [5; 5]%Q
           [[true; true]; [true; true]] 1 2); [reflexivity | reflexivity |].
  intros [|[|c]] Hc; [reflexivity | reflexivity | lia].
Defined.

Lemma spatial_extremum_identity same before after sig neighbours C n t c :
  (c < C)%nat ->
  (forall nb, (nb < C)%nat -> mask_get neighbours c nb = (c =? nb)%nat) ->
  spatial_extremum same before after sig neighbours C n t c
  = window_extremum before after sig n t c c.
Proof.
  intros Hc Hid. apply eq_true_iff_eq.
  rewrite spatial_extremum_spec, window_extremum_spec. split.
  - intros H. apply (H c Hc). rewrite Hid by done. apply Nat.eqb_refl.
  - intros H nb Hnb Hmask. rewrite Hid in Hmask by done.
    apply Nat.eqb_eq in Hmask as <-. split; [done | congruence].
Qed.

(** X7. With a mask in which each channel has no neighbour but itself,
    the locally-exclusive method returns exactly the list of the
    by-channel method. *)
Theorem identity_mask_is_by_channel (sg : sign) (traces : block)
    (thr : list Q) (neighbours : mask) (n C : nat) :
  rectangular C traces = true -> length thr = C ->
  (forall c nb, (c < C)%nat -> (nb < C)%nat ->
     mask_get neighbours c nb = (c =? nb)%nat) ->
  DetectPeakLocallyExclusive.detect_peaks true traces (sign_name sg) thr
    (Z.of_nat n) neighbours
  = DetectPeakByChannel.detect_peaks traces (sign_name sg) thr (Z.of_nat n).
Proof.
  intros Hrect Hthr Hid.
  rewrite (by_channel_closed_form sg traces thr n C Hrect Hthr),
    (locally_exclusive_closed_form sg traces thr neighbours n C Hrect Hthr).
  f_equal. apply closed_form_ext. intros j c _ _ Hc.
  unfold locally_exclusive_peak, locally_exclusive_pos, locally_exclusive_neg,
    by_channel_peak, by_channel_pos, by_channel_neg.
  by rewrite !spatial_extremum_identity by (try done; intros; by apply Hid).
Qed.

Lemma identity_mask_is_by_channel_witness :
  let traces := [[0; 0]; [9; 8]; [0; 0]; [0; 8]; [0; 0]]%Q in
  DetectPeakLocallyExclusive.detect_peaks true traces "both" [5; 5]%Q 1
    [[true; false]; [false; true]]
  = DetectPeakByChannel.detect_peaks traces "both" [5; 5]%Q 1.
Proof.
  intros traces.
  apply (identity_mask_is_by_channel Both traces [5; 5]%Q
           [[true; false]; [false; true]] 1 2); [reflexivity | reflexivity |].
  intros [|[|c]] [|[|nb]] Hc Hnb; try reflexivity; lia.
Defined.

Lemma spatial_extremum_no_neighbour same before after sig neighbours C n t c :
  (forall nb, (nb < C)%nat -> mask_get neighbours c nb = false) ->
  spatial_extremum same before after sig neighbours C n t c = true.
Proof.
  intros Hnone. apply spatial_extremum_spec. intros nb Hnb Hmask.
  rewrite Hnone in Hmask by done. discriminate.
Qed.

(** The threshold test alone. *)
Lemma threshold_only_peak sg sig thr neighbours C n t c :
  (forall nb, (nb < C)%nat -> mask_get neighbours c nb = false) ->
  locally_exclusive_peak sg sig thr neighbours C n t c
  = match sg with
    | Pos => Qgtb (sig t c) (threshold_at thr c)
    | Neg => Qltb (sig t c) (- threshold_at thr c)%Q
    | Both => Qltb (sig t c) (- threshold_at thr c)%Q
              || Qgtb (sig t c) (threshold_at thr c)
    end.
Proof.
  intros Hnone.
  unfold locally_exclusive_peak, locally_exclusive_pos, locally_exclusive_neg.
  rewrite !spatial_extremum_no_neighbour by done.
  destruct sg; by rewrite ?andb_true_r.
Qed.

Lemma crosses_spec sg x t :
  match sg with
  | Pos => Qgtb x t
  | Neg => Qltb x (- t)%Q
  | Both => Qltb x (- t)%Q || Qgtb x t
  end = true <-> crosses sg x t.
Proof.
  destruct sg; simpl; rewrite ?orb_true_iff, ?Qgtb_lt, ?Qltb_lt; done.
Qed.

(** X8. With a mask that declares no neighbour at all, not even the
    channel itself, the locally-exclusive method applies no exclusion in
    time either: it reports every sample of the interior that is beyond
    the threshold. *)
Theorem empty_mask_reports_every_crossing (sg : sign) (traces : block)
    (thr : list Q) (neighbours : mask) (n C : nat) :
  rectangular C traces = true -> length thr = C -> (1 <= n)%nat ->
  (forall c nb, (c < C)%nat -> (nb < C)%nat -> mask_get neighbours c nb = false) ->
  exists found,
    DetectPeakLocallyExclusive.detect_peaks true traces (sign_name sg) thr
      (Z.of_nat n) neighbours = Ok found
    /\ forall (j c : nat),
         In (Z.of_nat j, c) found
         <-> (n <= j < length traces - n)%nat /\ (c < C)%nat
             /\ crosses sg (at2 traces j c) (threshold_at thr c).
Proof.
  intros Hrect Hthr Hn Hnone. eexists.
  rewrite (locally_exclusive_closed_form sg traces thr neighbours n C Hrect Hthr).
  split; [done|]. intros j c. rewrite In_closed_form. split.
  - intros ((j' & Hj' & Hin) & Hc & HP). apply Nat2Z.inj in Hj' as <-.
    apply In_interior in Hin as [_ Hj].
    rewrite threshold_only_peak in HP by (intros; by apply Hnone).
    apply crosses_spec in HP. rewrite block_signal_nat in HP. done.
  - intros (Hj & Hc & Hx). split; [|split; [done|]].
    + exists j. split; [done|]. by apply In_interior.
    + rewrite threshold_only_peak by (intros; by apply Hnone).
      apply crosses_spec. by rewrite block_signal_nat.
Qed.

Lemma empty_mask_reports_every_crossing_witness :
  let traces := [[0; 0]; [9; 0]; [9; 0]; [7; 0]; [0; 0]]%Q in
  exists found,
    DetectPeakLocallyExclusive.detect_peaks true traces "pos" [5; 5]%Q 1
      [[false; false]; [false; false]] = Ok found
    /\ forall (j c : nat),
         In (Z.of_nat j, c) found
         <-> (1 <= j < length traces - 1)%nat /\ (c < 2)%nat
             /\ crosses Pos (at2 traces j c) (threshold_at [5; 5]%Q c).
Proof.
  intros traces.
  apply (empty_mask_reports_every_crossing Pos traces [5; 5]%Q
           [[false; false]; [false; false]] 1 2);
    [reflexivity | reflexivity | lia |].
  intros [|[|c]] [|[|nb]] Hc Hnb; try reflexivity; lia.
Defined.

(** ** Exclusion between neighbouring channels *)

Lemma locally_exclusive_pos_apart sig thr neighbours C n (s s' : Z) c c' :
  (c < C)%nat -> (c' < C)%nat ->
  mask_get neighbours c c' = true -> mask_get neighbours c' c = true ->
  locally_exclusive_pos sig thr neighbours C n s c = true ->
  locally_exclusive_pos sig thr neighbours C n s' c' = true ->
  s < s' -> s' - s <= Z.of_nat n -> False.
Proof.
  unfold locally_exclusive_pos. rewrite !andb_true_iff, !spatial_extremum_spec.
  intros Hc Hc' Hm Hm' [_ H] [_ H'] Hlt Hle.
  destruct (H c' Hc' Hm) as [Hw _]. destruct (H' c Hc Hm') as [Hw' _].
  destruct (Hw (Z.to_nat (s' - s))) as [_ Ha]; [lia|].
  destruct (Hw' (Z.to_nat (s' - s))) as [Hb _]; [lia|].
  replace (s + Z.of_nat (Z.to_nat (s' - s))) with s' in Ha by lia.
  replace (s' - Z.of_nat (Z.to_nat (s' - s))) with s in Hb by lia.
  eapply Qgtb_Qgeb_absurd; eassumption.
Qed.

Lemma locally_exclusive_neg_apart sig thr neighbours C n (s s' : Z) c c' :
  (c < C)%nat -> (c' < C)%nat ->
  mask_get neighbours c c' = true -> mask_get neighbours c' c = true ->
  locally_exclusive_neg sig thr neighbours C n s c = true ->
  locally_exclusive_neg sig thr neighbours C n s' c' = true ->
  s < s' -> s' - s <= Z.of_nat n -> False.
Proof.
  unfold locally_exclusive_neg. rewrite !andb_true_iff, !spatial_extremum_spec.
  intros Hc Hc' Hm Hm' [_ H] [_ H'] Hlt Hle.
  destruct (H c' Hc' Hm) as [Hw _]. destruct (H' c Hc Hm') as [Hw' _].
  destruct (Hw (Z.to_nat (s' - s))) as [_ Ha]; [lia|].
  destruct (Hw' (Z.to_nat (s' - s))) as [Hb _]; [lia|].
  replace (s + Z.of_nat (Z.to_nat (s' - s))) with s' in Ha by lia.
  replace (s' - Z.of_nat (Z.to_nat (s' - s))) with s in Hb by lia.
  eapply Qltb_Qleb_absurd; eassumption.
Qed.

Lemma locally_exclusive_same_sample sg sig thr neighbours C n (s : Z) c c' :
  sg <> Both -> (c < C)%nat -> (c' < C)%nat -> c <> c' ->
  mask_get neighbours c c' = true -> mask_get neighbours c' c = true ->
  locally_exclusive_peak sg sig thr neighbours C n s c = true ->
  locally_exclusive_peak sg sig thr neighbours C n s c' = true ->
  (sig s c == sig s c')%Q.
Proof.
  intros Hsg Hc Hc' Hne Hm Hm'.
  destruct sg; [| |done]; simpl;
    unfold locally_exclusive_pos, locally_exclusive_neg;
    rewrite !andb_true_iff, !spatial_extremum_spec; intros [_ H] [_ H'];
    destruct (H c' Hc' Hm) as [_ Hs]; destruct (H' c Hc Hm') as [_ Hs'];
    specialize (Hs ltac:(congruence)); specialize (Hs' ltac:(congruence)).
  - apply Qgeb_le in Hs, Hs'. by apply Qle_antisym.
  - apply Qleb_le in Hs, Hs'. by apply Qle_antisym.
Qed.

(** X9. Local exclusivity.  With [peak_sign] ['pos'] or ['neg'], two
    distinct peaks of the locally-exclusive method on channels that the
    mask declares neighbours of each other are more than
    [exclude_sweep_size] samples apart, unless they sit on two different
    channels at the very same sample with exactly equal values. *)
Theorem neighbouring_peaks_exclude_each_other (sg : sign) (traces : block)
    (thr : list Q) (neighbours : mask) (n C : nat) (found : list (Z * nat))
    (s s' : Z) (c c' : nat) :
  sg <> Both -> rectangular C traces = true -> length thr = C ->
  DetectPeakLocallyExclusive.detect_peaks true traces (sign_name sg) thr
    (Z.of_nat n) neighbours = Ok found ->
  In (s, c) found -> In (s', c') found -> (s, c) <> (s', c') ->
  mask_get neighbours c c' = true -> mask_get neighbours c' c = true ->
  Z.abs (s - s') <= Z.of_nat n ->
  s = s' /\ c <> c'
  /\ (at2 traces (Z.to_nat s) c == at2 traces (Z.to_nat s) c')%Q.
Proof.
  intros Hsg Hrect Hthr Hdet Hin Hin' Hne Hm Hm' Hclose.
  rewrite (locally_exclusive_closed_form sg traces thr neighbours n C Hrect Hthr)
    in Hdet.
  injection Hdet as <-.
  apply In_closed_form in Hin as ((j & -> & _) & Hc & HP).
  apply In_closed_form in Hin' as ((j' & -> & _) & Hc' & HP').
  destruct (Z.lt_trichotomy (Z.of_nat j) (Z.of_nat j')) as [Hlt|[Heq|Hgt]].
  - exfalso. destruct sg; [| |done]; simpl in HP, HP'.
    + eapply (locally_exclusive_pos_apart _ _ _ _ _ _ _ c c'); eauto; lia.
    + eapply (locally_exclusive_neg_apart _ _ _ _ _ _ _ c c'); eauto; lia.
  - apply Nat2Z.inj in Heq as <-.
    assert (Hcc : c <> c') by congruence.
    split; [done|]. split; [done|]. rewrite Nat2Z.id.
    rewrite <- !block_signal_nat.
    by eapply (locally_exclusive_same_sample sg _ thr neighbours C n).
  - exfalso. destruct sg; [| |done]; simpl in HP, HP'.
    + eapply (locally_exclusive_pos_apart _ _ _ _ _ _ _ c' c); eauto; lia.
    + eapply (locally_exclusive_neg_apart _ _ _ _ _ _ _ c' c); eauto; lia.
Qed.

Lemma neighbouring_peaks_exclude_each_other_witness :
  let traces := [[0; 0]; [9; 9]; [0; 0]]%Q in
  1 = 1 /\ 0%nat <> 1%nat
  /\ (at2 traces (Z.to_nat 1) 0 == at2 traces (Z.to_nat 1) 1)%Q.
Proof.
  intros traces.
  apply (neighbouring_peaks_exclude_each_other Pos traces [5; 5]%Q
           [[true; true]; [true; true]] 1 2 [(1, 0%nat); (1, 1%nat)] 1 1 0 1);
    [discriminate | reflexivity | reflexivity | reflexivity
     | simpl; tauto | simpl; tauto | discriminate
     | reflexivity | reflexivity | simpl; lia].
Defined.

(** ** The records of the worker *)

Lemma segment_signal_inside segment t c :
  0 <= t < Z.of_nat (length segment) ->
  segment_signal segment t c = at2 segment (Z.to_nat t) c.
Proof.
  intros Ht. unfold segment_signal, segment_row, at2, get2.
  destruct (Z.leb_spec 0 t) as [_|?]; [|lia].
  destruct (Z.ltb_spec t (Z.of_nat (length segment))) as [_|?]; [|lia]. simpl.
  destruct (lookup_lt_is_Some_2 segment (Z.to_nat t)) as [row ->]; [lia|]. done.
Qed.

Lemma In_chunk_peaks rule sig k a len C p :
  In p (chunk_peaks rule sig k a len C)
  <-> exists j c, (j < len)%nat /\ (c < C)%nat
        /\ rule (a + Z.of_nat j) c = true
        /\ p = {| sample_ind := a + Z.of_nat j; channel_ind := c;
                  amplitude := sig (a + Z.of_nat j) c; segment_ind := k |}.
Proof.
  unfold chunk_peaks. rewrite in_map_iff. split.
  - intros ([j c] & <- & Hin). apply filter_In in Hin as [Hin HP].
    apply In_pairs in Hin as [Hj Hc]. apply in_seq in Hj. apply in_seq in Hc.
    exists j, c. simpl in *. repeat split; try done; lia.
  - intros (j & c & Hj & Hc & HP & ->). exists (j, c). split; [done|].
    apply filter_In. split; [|done]. apply In_pairs.
    split; apply in_seq; lia.
Qed.

Lemma by_channel_peak_crosses sg sig thr n t c :
  by_channel_peak sg sig thr n t c = true ->
  crosses sg (sig t c) (threshold_at thr c).
Proof.
  intros H. apply crosses_spec.
  destruct sg; simpl in *; unfold by_channel_pos, by_channel_neg in *;
    rewrite ?orb_true_iff, ?andb_true_iff in *; tauto.
Qed.

Lemma locally_exclusive_peak_crosses sg sig thr neighbours C n t c :
  locally_exclusive_peak sg sig thr neighbours C n t c = true ->
  crosses sg (sig t c) (threshold_at thr c).
Proof.
  intros H. apply crosses_spec.
  destruct sg; simpl in *;
    unfold locally_exclusive_pos, locally_exclusive_neg in *;
    rewrite ?orb_true_iff, ?andb_true_iff in *; tauto.
Qed.

Lemma chunk_peaks_records sg segment thr (rule : Z -> nat -> bool) k a len :
  0 <= a -> a + Z.of_nat len <= Z.of_nat (length segment) ->
  (forall t c, rule t c = true ->
     crosses sg (segment_signal segment t c) (threshold_at thr c)) ->
  Forall (peak_record_ok sg segment thr k a (a + Z.of_nat len))
    (chunk_peaks rule (segment_signal segment) k a len (shape1 segment)).
Proof.
  intros Ha Hb Hrule. apply Forall_forall. intros p Hp.
  apply list_elem_of_In, In_chunk_peaks in Hp as (j & c & Hj & Hc & HP & ->).
  unfold peak_record_ok. simpl.
  split; [lia|]. split; [done|]. split; [done|].
  rewrite <- segment_signal_inside by lia. split; [done|]. by apply Hrule.
Qed.

Lemma worker_peaks_records sg segment thr (rule : signal -> Z -> nat -> bool)
    k n a b :
  0 <= a <= b -> b <= Z.of_nat (length segment) ->
  (forall t c, rule (segment_signal segment) t c = true ->
     crosses sg (segment_signal segment t c) (threshold_at thr c)) ->
  Forall (peak_record_ok sg segment thr k a b) (worker_peaks rule segment k n a b).
Proof.
  intros Ha Hb Hrule. unfold worker_peaks. destruct (n =? 0)%nat; [constructor|].
  replace b with (a + Z.of_nat (Z.to_nat (b - a))) at 1 by lia.
  apply chunk_peaks_records; [lia | lia | done].
Qed.

(** X10. The records of a chunk.  For a chunk [a, b) inside a segment,
    every peak record that the worker returns has its absolute sample
    index in [a, b), a channel of the segment, the index of the segment,
    as amplitude the value of the recording at that sample and channel,
    and that amplitude is beyond the threshold of the channel in the
    direction of [peak_sign]; this for the by-channel, the
    locally-exclusive and, for ['pos'] and ['neg'], the OpenCL method. *)
Theorem worker_records (env : Env) (recording : Recording) (k : nat)
    (segment : block) (sg : sign) (thr : list Q) (neighbours : mask)
    (n e : nat) (nodes : option (list PipelineNode)) (a b : Z) :
  _recording_segments recording !! k = Some segment ->
  rectangular (shape1 segment) segment = true ->
  length thr = shape1 segment ->
  0 <= a <= b -> b <= Z.of_nat (length segment) ->
  (exists ctx' peaks outs,
     _detect_peaks_chunk env ByChannel k a b
       (_init_worker_detect_peaks ByChannel recording
          (sign_name sg, thr, Z.of_nat n) (Z.of_nat e) nodes)
     = Ok (ctx', (peaks, outs))
     /\ Forall (peak_record_ok sg segment thr k a b) peaks)
  /\ (HAVE_NUMBA env = true ->
      exists ctx' peaks outs,
        _detect_peaks_chunk env LocallyExclusive k a b
          (_init_worker_detect_peaks LocallyExclusive recording
             (sign_name sg, thr, Z.of_nat n, neighbours) (Z.of_nat e) nodes)
        = Ok (ctx', (peaks, outs))
        /\ Forall (peak_record_ok sg segment thr k a b) peaks)
  /\ (forall executor,
      OpenCLDetectPeakExecutor_init env thr (Z.of_nat n) neighbours
        (sign_name sg) = Ok executor ->
      complete_schedule env -> sg <> Both ->
      length neighbours = shape1 segment ->
      rectangular (shape1 segment) neighbours = true ->
      exists ctx' peaks outs,
        _detect_peaks_chunk env LocallyExclusiveOpenCL k a b
          (_init_worker_detect_peaks LocallyExclusiveOpenCL recording executor
             (Z.of_nat e) nodes)
        = Ok (ctx', (peaks, outs))
        /\ Forall (peak_record_ok sg segment thr k a b) peaks).
Proof.
  intros Hseg Hrect Hthr Hab Hb. split; [|split].
  - destruct (worker_closed_form env ByChannel _ n _ recording k segment e nodes
                a b (by_channel_implements env sg thr n _ Hthr) Hseg Hrect)
      as [outs Hw]; [lia|].
    eexists _, _, outs. split; [exact Hw|].
    apply worker_peaks_records; [done | done |].
    intros t c. apply by_channel_peak_crosses.
  - intros Hnumba.
    destruct (worker_closed_form env LocallyExclusive _ n _ recording k segment e
                nodes a b
                (locally_exclusive_implements env sg thr neighbours n _ Hnumba Hthr)
                Hseg Hrect) as [outs Hw]; [lia|].
    eexists _, _, outs. split; [exact Hw|].
    apply worker_peaks_records; [done | done |].
    intros t c. apply locally_exclusive_peak_crosses.
  - intros executor Hinit Hsched Hsg Hnlen Hnrect.
    apply opencl_init_inv in Hinit as [Hcl Hinv].
    destruct (opencl_worker_closed_form env sg thr neighbours n executor recording
                k segment e nodes a b Hsg Hcl Hsched Hinv Hnrect Hnlen Hseg Hrect)
      as (executor' & peaks & outs & Hw & _ & Hperm); [lia|].
    eexists _, peaks, outs. split; [exact Hw|].
    eapply Permutation_Forall; [symmetry; exact Hperm|].
    replace b with (a + Z.of_nat (Z.to_nat (b - a))) at 1 by lia.
    apply chunk_peaks_records; [lia | lia |].
    intros t c. apply locally_exclusive_peak_crosses.
Qed.

Lemma worker_records_witness :
  let env := example_env reversed in
  let segment := [[0; 0]; [9; 0]; [0; 0]; [0; 0]; [0; 8]; [0; 0]; [0; 0]; [7; 0]]%Q in
  let nm := [[true; false]; [false; true]] in
  (exists ctx' peaks outs,
     _detect_peaks_chunk env ByChannel 0 3 8
       (_init_worker_detect_peaks ByChannel example_recording
          ("pos"%string, [5; 5]%Q, 1) 0 None)
     = Ok (ctx', (peaks, outs))
     /\ Forall (peak_record_ok Pos segment [5; 5]%Q 0 3 8) peaks)
  /\ (exists ctx' peaks outs,
        _detect_peaks_chunk env LocallyExclusive 0 3 8
          (_init_worker_detect_peaks LocallyExclusive example_recording
             ("pos"%string, [5; 5]%Q, 1, nm) 0 None)
        = Ok (ctx', (peaks, outs))
        /\ Forall (peak_record_ok Pos segment [5; 5]%Q 0 3 8) peaks)
  /\ (forall executor,
      OpenCLDetectPeakExecutor_init env [5; 5]%Q 1 nm "pos" = Ok executor ->
      exists ctx' peaks outs,
        _detect_peaks_chunk env LocallyExclusiveOpenCL 0 3 8
          (_init_worker_detect_peaks LocallyExclusiveOpenCL example_recording
             executor 0 None)
        = Ok (ctx', (peaks, outs))
        /\ Forall (peak_record_ok Pos segment [5; 5]%Q 0 3 8) peaks).
Proof.
  intros env segment nm.
  assert (Hsched : complete_schedule env).
  { intros g. simpl. unfold reversed. symmetry. apply Permutation_rev. }
  destruct (worker_records env example_recording 0 segment Pos [5; 5]%Q nm 1 0
              None 3 8 eq_refl eq_refl eq_refl) as (H1 & H2 & H3);
    [lia | simpl; lia |].
  split; [exact H1|]. split; [exact (H2 eq_refl)|].
  intros executor Hinit.
  exact (H3 executor Hinit Hsched ltac:(discriminate) eq_refl eq_refl).
Defined.

(** X11. The extra margin that the pipeline nodes ask for, and the nodes
    themselves, do not change the peaks of a chunk: the worker of a CPU
    method returns the same peak records with any extra margin and any
    list of nodes as with none. *)
Theorem extra_margin_keeps_peaks (env : Env) (recording : Recording) (k : nat)
    (segment : block) (sg : sign) (thr : list Q) (neighbours : mask)
    (n e : nat) (nodes : option (list PipelineNode)) (a b : Z) :
  _recording_segments recording !! k = Some segment ->
  rectangular (shape1 segment) segment = true ->
  length thr = shape1 segment -> a <= b ->
  (exists ctx ctx' peaks outs0 outs,
     _detect_peaks_chunk env ByChannel k a b
       (_init_worker_detect_peaks ByChannel recording
          (sign_name sg, thr, Z.of_nat n) 0 None)
     = Ok (ctx, (peaks, outs0))
     /\ _detect_peaks_chunk env ByChannel k a b
          (_init_worker_detect_peaks ByChannel recording
             (sign_name sg, thr, Z.of_nat n) (Z.of_nat e) nodes)
        = Ok (ctx', (peaks, outs)))
  /\ (HAVE_NUMBA env = true ->
      exists ctx ctx' peaks outs0 outs,
        _detect_peaks_chunk env LocallyExclusive k a b
          (_init_worker_detect_peaks LocallyExclusive recording
             (sign_name sg, thr, Z.of_nat n, neighbours) 0 None)
        = Ok (ctx, (peaks, outs0))
        /\ _detect_peaks_chunk env LocallyExclusive k a b
             (_init_worker_detect_peaks LocallyExclusive recording
                (sign_name sg, thr, Z.of_nat n, neighbours) (Z.of_nat e) nodes)
           = Ok (ctx', (peaks, outs))).
Proof.
  intros Hseg Hrect Hthr Hab.
  assert (cpu : forall M margs rule,
    implements_rule env M margs n (shape1 segment) rule ->
    exists ctx ctx' peaks outs0 outs,
      _detect_peaks_chunk env M k a b
        (_init_worker_detect_peaks M recording margs 0 None)
      = Ok (ctx, (peaks, outs0))
      /\ _detect_peaks_chunk env M k a b
           (_init_worker_detect_peaks M recording margs (Z.of_nat e) nodes)
         = Ok (ctx', (peaks, outs))).
  { intros M margs rule Himpl.
    destruct (worker_closed_form env M margs n rule recording k segment 0 None
                a b Himpl Hseg Hrect Hab) as [outs0 H0].
    destruct (worker_closed_form env M margs n rule recording k segment e nodes
                a b Himpl Hseg Hrect Hab) as [outs H1].
    change (Z.of_nat 0) with 0 in H0.
    eexists _, _, _, outs0, outs. split; [exact H0 | exact H1]. }
  split.
  - eapply cpu. by apply by_channel_implements.
  - intros Hnumba. eapply cpu. by apply locally_exclusive_implements.
Qed.

Lemma extra_margin_keeps_peaks_witness :
  let env := example_env in_order in
  let nodes := Some [{| get_trace_margin := 2 |}] in
  (exists ctx ctx' peaks outs0 outs,
     _detect_peaks_chunk env ByChannel 0 3 8
       (_init_worker_detect_peaks ByChannel example_recording
          ("pos"%string, [5; 5]%Q, 1) 0 None)
     = Ok (ctx, (peaks, outs0))
     /\ _detect_peaks_chunk env ByChannel 0 3 8
          (_init_worker_detect_peaks ByChannel example_recording
             ("pos"%string, [5; 5]%Q, 1) 2 nodes)
        = Ok (ctx', (peaks, outs)))
  /\ (exists ctx ctx' peaks outs0 outs,
        _detect_peaks_chunk env LocallyExclusive 0 3 8
          (_init_worker_detect_peaks LocallyExclusive example_recording
             ("pos"%string, [5; 5]%Q, 1, [[true; false]; [false; true]]) 0 None)
        = Ok (ctx, (peaks, outs0))
        /\ _detect_peaks_chunk env LocallyExclusive 0 3 8
             (_init_worker_detect_peaks LocallyExclusive example_recording
                ("pos"%string, [5; 5]%Q, 1, [[true; false]; [false; true]]) 2
                nodes)
           = Ok (ctx', (peaks, outs))).
Proof.
  intros env nodes.
  destruct (extra_margin_keeps_peaks env example_recording 0
              [[0; 0]; [9; 0]; [0; 0]; [0; 0]; [0; 8]; [0; 0]; [0; 0]; [7; 0]]%Q
              Pos [5; 5]%Q [[true; false]; [false; true]] 1 2 nodes 3 8
              eq_refl eq_refl eq_refl) as [H1 H2]; [lia|].
  split; [exact H1 | exact (H2 eq_refl)].
Defined.

(** ** The OpenCL executor between two chunks *)

(** X12. The OpenCL executor carries nothing over from one block to the
    next: after it has processed a first block, of the same size or not,
    it returns for a second block the list that a fresh executor returns
    for it, the schedule being the same. *)
Theorem opencl_executor_keeps_no_history (env : Env) (sg : sign)
    (thr : list Q) (neighbours : mask) (n C : nat) (traces1 traces2 : block)
    (executor : OpenCLDetectPeakExecutor) :
  sg <> Both -> complete_schedule env ->
  OpenCLDetectPeakExecutor_init env thr (Z.of_nat n) neighbours (sign_name sg)
  = Ok executor ->
  rectangular C neighbours = true -> length neighbours = C ->
  rectangular C traces1 = true -> rectangular C traces2 = true ->
  (2 * n <= length traces1)%nat -> (2 * n <= length traces2)%nat ->
  exists executor1 found1 executor2 found2 executor2',
    OpenCLDetectPeakExecutor_detect_peak env executor traces1
    = Ok (executor1, found1)
    /\ OpenCLDetectPeakExecutor_detect_peak env executor1 traces2
       = Ok (executor2, found2)
    /\ OpenCLDetectPeakExecutor_detect_peak env executor traces2
       = Ok (executor2', found2).
Proof.
  intros Hsg Hsched Hinit Hnrect Hnlen Hrect1 Hrect2 HN1 HN2.
  apply opencl_init_inv in Hinit as [Hcl Hinv].
  pose proof (rectangular_tabulate2 0%Q C traces1 Hrect1) as Htab1.
  pose proof (rectangular_tabulate2 0%Q C traces2 Hrect2) as Htab2.
  destruct (opencl_detect_closed env sg thr n neighbours C executor
              (get2 0%Q traces1) (length traces1) Hsg Hcl Hsched Hinv Hnrect
              Hnlen HN1) as (executor1 & Hdet1 & Hinv1).
  destruct (opencl_detect_closed env sg thr n neighbours C executor1
              (get2 0%Q traces2) (length traces2) Hsg Hcl Hsched Hinv1 Hnrect
              Hnlen HN2) as (executor2 & Hdet2 & _).
  destruct (opencl_detect_closed env sg thr n neighbours C executor
              (get2 0%Q traces2) (length traces2) Hsg Hcl Hsched Hinv Hnrect
              Hnlen HN2) as (executor2' & Hdet2' & _).
  rewrite <- Htab1 in Hdet1. rewrite <- Htab2 in Hdet2, Hdet2'.
  eexists executor1, _, executor2, _, executor2'.
  split; [exact Hdet1|]. split; [exact Hdet2 | exact Hdet2'].
Qed.

Lemma opencl_executor_keeps_no_history_witness :
  let env := example_env reversed in
  let executor :=
    {| cl_chunk_size := None; cl_abs_threholds := [5; 5]%Q;
       cl_exclude_sweep_size := 1;
       cl_neighbours_mask := [[true; false]; [false; true]];
       cl_peak_sign := "pos"; cl_x := 0; kernel_peak_sign := 0;
       global_size := 0; dev := {| num_peaks := 0; peaks := [] |} |} in
  exists executor1 found1 executor2 found2 executor2',
    OpenCLDetectPeakExecutor_detect_peak env executor
      [[0; 0]; [9; 0]; [0; 0]; [0; 8]; [0; 0]]%Q = Ok (executor1, found1)
    /\ OpenCLDetectPeakExecutor_detect_peak env executor1
         [[0; 0]; [0; 0]; [0; 0]; [0; 0]; [0; 0]]%Q = Ok (executor2, found2)
    /\ OpenCLDetectPeakExecutor_detect_peak env executor
         [[0; 0]; [0; 0]; [0; 0]; [0; 0]; [0; 0]]%Q = Ok (executor2', found2).
Proof.
  intros env executor.
  assert (Hsched : complete_schedule env).
  { intros g. simpl. unfold reversed. symmetry. apply Permutation_rev. }
  apply (opencl_executor_keeps_no_history env Pos [5; 5]%Q
           [[true; false]; [false; true]] 1 2);
    [discriminate | exact Hsched | reflexivity | reflexivity | reflexivity
     | reflexivity | reflexivity | simpl; lia | simpl; lia].
Defined.

(** * The driver *)

(** ** The chunks of several segments *)

Lemma run_chunks_continue env M margs n rule recording k segment e nodes rest
    lens a :
  implements_rule env M margs n (shape1 segment) rule ->
  _recording_segments recording !! k = Some segment ->
  rectangular (shape1 segment) segment = true ->
  let ctx := _init_worker_detect_peaks M recording margs (Z.of_nat e) nodes in
  exists outs,
    length outs = length lens
    /\ concat (map fst outs)
       = worker_peaks rule segment k n a (a + Z.of_nat (sum_list lens))
    /\ run_chunks env M ctx (chunks_from k a lens ++ rest)
       = (let '(m, r) := run_chunks env M ctx rest in
          ((length lens + m)%nat, outs' ← r; Ok (outs ++ outs'))).
Proof.
  intros Himpl Hseg Hrect ctx. revert a.
  induction lens as [|len lens IH]; intros a.
  - exists []. split; [done|]. split.
    + simpl. by rewrite Z.add_0_r, worker_peaks_empty.
    + simpl. destruct (run_chunks env M ctx rest) as [m [r|err]]; done.
  - destruct (worker_closed_form env M margs n rule recording k segment e nodes
                a (a + Z.of_nat len) Himpl Hseg Hrect) as [out1 Hw]; [lia|].
    destruct (IH (a + Z.of_nat len)) as (outs & Hlen & Hcat & Hrun).
    exists ((worker_peaks rule segment k n a (a + Z.of_nat len), out1) :: outs).
    split; [simpl; by rewrite Hlen|]. split.
    + simpl. rewrite Hcat, worker_peaks_app. done.
    + fold ctx in Hw. simpl. rewrite Hw, Hrun.
      destruct (run_chunks env M ctx rest) as [m [r|err]]; done.
Qed.

Lemma length_chunks_from k a lens : length (chunks_from k a lens) = length lens.
Proof. revert a. induction lens as [|len lens IH]; intros a; simpl; [done|]. by rewrite IH. Qed.

(** The worker over the chunks of the segments [k, k + 1, ...]. *)
Lemma run_chunks_segments env M margs n rule recording e nodes :
  forall segments lengths k,
  (forall i segment, segments !! i = Some segment ->
     _recording_segments recording !! (k + i)%nat = Some segment
     /\ rectangular (shape1 segment) segment = true
     /\ implements_rule env M margs n (shape1 segment) rule) ->
  Forall2 (fun segment lens => sum_list lens = length segment) segments lengths ->
  let ctx := _init_worker_detect_peaks M recording margs (Z.of_nat e) nodes in
  exists outs,
    run_chunks env M ctx (chunks_of_segments k lengths)
    = (length (chunks_of_segments k lengths), Ok outs)
    /\ length outs = length (chunks_of_segments k lengths)
    /\ concat (map fst outs) = recording_peaks rule n k segments.
Proof.
  intros segments lengths k Hsegs Hcov ctx. revert k Hsegs.
  induction Hcov as [|segment lens segments lengths Hsum _ IH]; intros k Hsegs.
  - exists []. done.
  - destruct (Hsegs 0%nat segment eq_refl) as (Hseg & Hrect & Himpl).
    rewrite Nat.add_0_r in Hseg.
    destruct (IH (S k)) as (outs' & Hrun' & Hlen' & Hcat').
    { intros i seg Hi. specialize (Hsegs (S i) seg Hi).
      by replace (S k + i)%nat with (k + S i)%nat by lia. }
    destruct (run_chunks_continue env M margs n rule recording k segment e nodes
                (chunks_of_segments (S k) lengths) lens 0 Himpl Hseg Hrect)
      as (outs & Hlen & Hcat & Hrun).
    fold ctx in Hrun. rewrite Hrun' in Hrun.
    exists (outs ++ outs'). simpl. rewrite Hrun.
    rewrite !length_app, length_chunks_from. unfold chunk_output in *.
    split; [done|]. split; [lia|].
    rewrite map_app, concat_app, Hcat, Hcat', Hsum. done.
Qed.

(** ** The driver in closed form for the CPU methods *)

Lemma np_concatenate_cons {A} (l : list (list A)) :
  l <> [] -> np_concatenate l = Ok (concat l).
Proof. by destruct l. Qed.

Lemma driver_closed_form env recording method M kw margs n rule lengths :
  detect_peak_methods method = Some M ->
  check_params M env recording kw = Ok margs ->
  Forall (fun segment =>
      rectangular (shape1 segment) segment = true
      /\ implements_rule env M margs n (shape1 segment) rule)
    (_recording_segments recording) ->
  executor_chunks env recording = chunks_of_segments 0 lengths ->
  covers recording lengths ->
  chunks_of_segments 0 lengths <> [] ->
  detect_peaks env recording method None kw
  = (length (chunks_of_segments 0 lengths),
     Ok (recording_peaks rule n 0 (_recording_segments recording), None)).
Proof.
  intros Hmethod Hcheck Hsegs Hchunks Hcov Hne.
  unfold detect_peaks. rewrite Hmethod, Hcheck.
  unfold mbind, result_bind. cbv beta iota. rewrite Hchunks.
  destruct (run_chunks_segments env M margs n rule recording 0 None
              (_recording_segments recording) lengths 0%nat)
    as (outs & Hrun & Hlen & Hcat).
  { intros i segment Hi. split; [done|].
    rewrite Forall_forall in Hsegs. apply Hsegs.
    by eapply list_elem_of_lookup_2. }
  { exact Hcov. }
  change (Z.of_nat 0) with 0 in Hrun. rewrite Hrun. cbv beta iota.
  rewrite np_concatenate_cons.
  - by rewrite Hcat.
  - intros Hnil. apply Hne. apply nil_length_inv.
    rewrite <- Hlen. apply (f_equal length) in Hnil.
    by rewrite length_map in Hnil.
Qed.

Lemma str_in_sign_name sg :
  str_in (sign_name sg) ["both"; "neg"; "pos"]%string = true.
Proof. by destruct sg. Qed.

Lemma by_channel_check_params_ok env recording kw sg :
  peak_sign kw = sign_name sg ->
  ByChannel_check_params env recording kw
  = Ok (sign_name sg,
        map (fun x => x * detect_threshold kw)%Q
          match noise_levels kw with
          | None => get_noise_levels env recording
          | Some noise => noise
          end,
        py_int (exclude_sweep_ms kw * sampling_frequency recording / 1000)%Q).
Proof.
  intros Hsg. unfold ByChannel_check_params.
  by rewrite Hsg, str_in_sign_name.
Qed.

(** ** Order of the records *)

Lemma list_filter_sorted {A} (R : relation A) (P : A -> bool) l :
  StronglySorted R l -> StronglySorted R (List.filter P l).
Proof.
  induction 1 as [|x l _ IH Hf]; simpl; [constructor|].
  destruct (P x); [|done]. constructor; [done|].
  rewrite Forall_forall in Hf |- *. intros y Hy.
  apply Hf. apply list_elem_of_In in Hy. apply filter_In in Hy as [Hy _].
  by apply list_elem_of_In.
Qed.

Lemma seq_sorted s L : StronglySorted lt (seq s L).
Proof.
  revert s. induction L as [|L IH]; intros s; simpl; constructor; [done|].
  apply Forall_forall. intros x Hx. apply list_elem_of_In, in_seq in Hx. lia.
Qed.

Lemma pairs_sorted s L C : StronglySorted pair_lt (pairs (seq s L) (seq 0 C)).
Proof.
  revert s. induction L as [|L IH]; intros s; [constructor|].
  unfold pairs in *. simpl. apply StronglySorted_app_2.
  - intros p q Hp Hq. apply list_elem_of_In, in_map_iff in Hp as (c & <- & _).
    destruct q as [j c']. apply list_elem_of_In, (In_pairs j c') in Hq as [Hj _].
    apply in_seq in Hj. left. simpl. lia.
  - rewrite map_fmap. eapply StronglySorted_fmap; [|apply seq_sorted].
    intros c c' Hc. right. simpl. done.
  - apply IH.
Qed.

Lemma chunk_peaks_sorted rule sig k a len C :
  StronglySorted record_lt (chunk_peaks rule sig k a len C).
Proof.
  unfold chunk_peaks. rewrite map_fmap.
  eapply StronglySorted_fmap; [|apply list_filter_sorted, pairs_sorted].
  intros [j c] [j' c'] [Hlt|[Heq Hlt]]; right; (split; [done|]);
    [left | right]; simpl in *; lia.
Qed.

Lemma recording_peaks_sorted rule n segments k :
  StronglySorted record_lt (recording_peaks rule n k segments)
  /\ Forall (fun p => k <= segment_ind p)%nat (recording_peaks rule n k segments).
Proof.
  revert k. induction segments as [|segment segments IH]; intros k; simpl.
  - split; constructor.
  - destruct (IH (S k)) as [Hs Hf].
    assert (Hk : Forall (fun p => segment_ind p = k)
                   (worker_peaks rule segment k n 0 (Z.of_nat (length segment)))).
    { unfold worker_peaks. destruct (n =? 0)%nat; [constructor|].
      apply Forall_forall. intros p Hp.
      apply list_elem_of_In, In_chunk_peaks in Hp as (j & c & _ & _ & _ & ->).
      done. }
    split.
    + apply StronglySorted_app_2.
      * intros p q Hp Hq. rewrite Forall_forall in Hk, Hf.
        apply Hk in Hp. apply Hf in Hq. left. lia.
      * unfold worker_peaks. destruct (n =? 0)%nat; [constructor|].
        apply chunk_peaks_sorted.
      * done.
    + apply Forall_app. split.
      * eapply Forall_impl; [exact Hk|]. simpl. lia.
      * eapply Forall_impl; [exact Hf|]. simpl. lia.
Qed.

Lemma by_channel_driver_closed_form env recording sg kw lengths :
  let noise := match noise_levels kw with
               | None => get_noise_levels env recording
               | Some noise => noise
               end in
  let thr := map (fun x => x * detect_threshold kw)%Q noise in
  let ess := py_int (exclude_sweep_ms kw * sampling_frequency recording / 1000)%Q in
  peak_sign kw = sign_name sg -> 0 <= ess ->
  segments_of_width recording (length noise) ->
  executor_chunks env recording = chunks_of_segments 0 lengths ->
  covers recording lengths ->
  chunks_of_segments 0 lengths <> [] ->
  detect_peaks env recording "by_channel" None kw
  = (length (chunks_of_segments 0 lengths),
     Ok (recording_peaks (fun sig => by_channel_peak sg sig thr (Z.to_nat ess))
           (Z.to_nat ess) 0 (_recording_segments recording), None)).
Proof.
  intros noise thr ess Hsg Hess Hwidth Hchunks Hcov Hne.
  apply (driver_closed_form env recording "by_channel" ByChannel kw
           (sign_name sg, thr, Z.of_nat (Z.to_nat ess))); try done.
  - change (check_params ByChannel) with ByChannel_check_params.
    rewrite (by_channel_check_params_ok env recording kw sg Hsg).
    fold noise thr ess. by rewrite Z2Nat.id.
  - eapply Forall_impl; [exact Hwidth|]. intros segment [Hrect Hshape].
    rewrite Hshape. split; [done|]. apply by_channel_implements.
    unfold thr. by rewrite length_map.
Qed.

Lemma locally_exclusive_driver_closed_form env recording sg kw lengths :
  let noise := match noise_levels kw with
               | None => get_noise_levels env recording
               | Some noise => noise
               end in
  let thr := map (fun x => x * detect_threshold kw)%Q noise in
  let ess := py_int (exclude_sweep_ms kw * sampling_frequency recording / 1000)%Q in
  let neighbours :=
    np_lt_scalar (get_channel_distances env recording) (local_radius_um kw) in
  HAVE_NUMBA env = true ->
  peak_sign kw = sign_name sg -> 0 <= ess ->
  segments_of_width recording (length noise) ->
  executor_chunks env recording = chunks_of_segments 0 lengths ->
  covers recording lengths ->
  chunks_of_segments 0 lengths <> [] ->
  detect_peaks env recording "locally_exclusive" None kw
  = (length (chunks_of_segments 0 lengths),
     Ok (recording_peaks
           (fun sig => locally_exclusive_peak sg sig thr neighbours
                         (length noise) (Z.to_nat ess))
           (Z.to_nat ess) 0 (_recording_segments recording), None)).
Proof.
  intros noise thr ess neighbours Hnumba Hsg Hess Hwidth Hchunks Hcov Hne.
  apply (driver_closed_form env recording "locally_exclusive" LocallyExclusive kw
           (sign_name sg, thr, Z.of_nat (Z.to_nat ess), neighbours)); try done.
  - change (check_params LocallyExclusive) with LocallyExclusive_check_params.
    unfold LocallyExclusive_check_params. rewrite Hnumba. simpl negb. cbv iota.
    rewrite (by_channel_check_params_ok env recording kw sg Hsg).
    fold noise thr ess. by rewrite Z2Nat.id.
  - eapply Forall_impl; [exact Hwidth|]. intros segment [Hrect Hshape].
    rewrite Hshape. split; [done|]. apply locally_exclusive_implements; [done|].
    unfold thr. by rewrite length_map.
Qed.

(** X13. The result of [detect_peaks] does not depend on how the executor
    cuts the recording.  For a recording of one or several segments, two
    executors that each cut every segment into consecutive chunks (of any
    lengths, at least one chunk in all) make the driver return the same
    array of peaks with the by-channel method and with the
    locally-exclusive method. *)
Theorem chunking_does_not_change_peaks (env env' : Env) (recording : Recording)
    (sg : sign) (kw : method_kwargs) (lengths lengths' : list (list nat)) :
  let noise := match noise_levels kw with
               | None => get_noise_levels env recording
               | Some noise => noise
               end in
  peak_sign kw = sign_name sg ->
  0 <= py_int (exclude_sweep_ms kw * sampling_frequency recording / 1000)%Q ->
  segments_of_width recording (length noise) ->
  get_noise_levels env' recording = get_noise_levels env recording ->
  get_channel_distances env' recording = get_channel_distances env recording ->
  executor_chunks env recording = chunks_of_segments 0 lengths ->
  executor_chunks env' recording = chunks_of_segments 0 lengths' ->
  covers recording lengths -> covers recording lengths' ->
  chunks_of_segments 0 lengths <> [] -> chunks_of_segments 0 lengths' <> [] ->
  (exists peaks,
     detect_peaks env recording "by_channel" None kw
     = (length (chunks_of_segments 0 lengths), Ok (peaks, None))
     /\ detect_peaks env' recording "by_channel" None kw
        = (length (chunks_of_segments 0 lengths'), Ok (peaks, None)))
  /\ (HAVE_NUMBA env = true -> HAVE_NUMBA env' = true ->
      exists peaks,
        detect_peaks env recording "locally_exclusive" None kw
        = (length (chunks_of_segments 0 lengths), Ok (peaks, None))
        /\ detect_peaks env' recording "locally_exclusive" None kw
           = (length (chunks_of_segments 0 lengths'), Ok (peaks, None))).
Proof.
  intros noise Hsg Hess Hwidth Hnoise Hdist Hchunks Hchunks' Hcov Hcov' Hne Hne'.
  assert (Hwidth' : segments_of_width recording
            (length match noise_levels kw with
                    | None => get_noise_levels env' recording
                    | Some noise => noise
                    end)) by (by rewrite Hnoise).
  split.
  - eexists. split.
    + by apply (by_channel_driver_closed_form env recording sg kw lengths).
    + rewrite (by_channel_driver_closed_form env' recording sg kw lengths')
        by done.
      by rewrite Hnoise.
  - intros Hnumba Hnumba'. eexists. split.
    + by apply (locally_exclusive_driver_closed_form env recording sg kw lengths).
    + rewrite (locally_exclusive_driver_closed_form env' recording sg kw lengths')
        by done.
      by rewrite Hnoise, Hdist.
Qed.

(** X14. The array that [detect_peaks] returns for a CPU method is
    sorted: by segment, within a segment by sample index, and at one
    sample by channel index, with no (segment, sample, channel) twice. *)
Theorem driver_output_sorted (env : Env) (recording : Recording)
    (sg : sign) (kw : method_kwargs) (lengths : list (list nat)) :
  let noise := match noise_levels kw with
               | None => get_noise_levels env recording
               | Some noise => noise
               end in
  peak_sign kw = sign_name sg ->
  0 <= py_int (exclude_sweep_ms kw * sampling_frequency recording / 1000)%Q ->
  segments_of_width recording (length noise) ->
  executor_chunks env recording = chunks_of_segments 0 lengths ->
  covers recording lengths ->
  chunks_of_segments 0 lengths <> [] ->
  (exists calls peaks,
     detect_peaks env recording "by_channel" None kw = (calls, Ok (peaks, None))
     /\ StronglySorted record_lt peaks)
  /\ (HAVE_NUMBA env = true ->
      exists calls peaks,
        detect_peaks env recording "locally_exclusive" None kw
        = (calls, Ok (peaks, None))
        /\ StronglySorted record_lt peaks).
Proof.
  intros noise Hsg Hess Hwidth Hchunks Hcov Hne. split.
  - eexists _, _. split.
    + by apply (by_channel_driver_closed_form env recording sg kw lengths).
    + apply recording_peaks_sorted.
  - intros Hnumba. eexists _, _. split.
    + by apply (locally_exclusive_driver_closed_form env recording sg kw lengths).
    + apply recording_peaks_sorted.
Qed.

Lemma chunking_does_not_change_peaks_witness :
  let env := cutting [[4; 4]; [2]]%nat in
  let env' := cutting [[1; 0; 7]; [1; 1]]%nat in
  let kw := example_kwargs "both" in
  (exists peaks,
     detect_peaks env two_segments "by_channel" None kw = (3%nat, Ok (peaks, None))
     /\ detect_peaks env' two_segments "by_channel" None kw
        = (5%nat, Ok (peaks, None)))
  /\ (exists peaks,
        detect_peaks env two_segments "locally_exclusive" None kw
        = (3%nat, Ok (peaks, None))
        /\ detect_peaks env' two_segments "locally_exclusive" None kw
           = (5%nat, Ok (peaks, None))).
Proof.
  intros env env' kw.
  destruct (chunking_does_not_change_peaks env env' two_segments Both kw
              [[4; 4]; [2]]%nat [[1; 0; 7]; [1; 1]]%nat) as [H1 H2];
    try reflexivity; try discriminate.
  - repeat constructor.
  - repeat constructor.
  - repeat constructor.
  - split; [exact H1 | exact (H2 eq_refl eq_refl)].
Defined.

Lemma driver_output_sorted_witness :
  let env := cutting [[4; 4]; [2]]%nat in
  let kw := example_kwargs "both" in
  (exists calls peaks,
     detect_peaks env two_segments "by_channel" None kw = (calls, Ok (peaks, None))
     /\ StronglySorted record_lt peaks)
  /\ (exists calls peaks,
        detect_peaks env two_segments "locally_exclusive" None kw
        = (calls, Ok (peaks, None))
        /\ StronglySorted record_lt peaks).
Proof.
  intros env kw.
  destruct (driver_output_sorted env two_segments Both kw [[4; 4]; [2]]%nat)
    as [H1 H2]; try reflexivity; try discriminate.
  - repeat constructor.
  - repeat constructor.
  - split; [exact H1 | exact (H2 eq_refl)].
Defined.

(** ** Errors of the driver *)

(** X15. When the executor has no chunk to process, [detect_peaks]
    without pipeline nodes never returns an array: past a setup that
    succeeds, [np.concatenate] fails on the empty list of outputs with a
    [ValueError], and no worker is called. *)
Theorem no_chunk_no_array (env : Env) (recording : Recording) (method : string)
    (kw : method_kwargs) :
  executor_chunks env recording = [] ->
  (exists e, detect_peaks env recording method None kw = (0%nat, Raise e))
  /\ (forall M margs,
        detect_peak_methods method = Some M ->
        check_params M env recording kw = Ok margs ->
        detect_peaks env recording method None kw = (0%nat, Raise ValueError)).
Proof.
  intros Hchunks. unfold detect_peaks. split.
  - destruct (detect_peak_methods method) as [M|]; [|by eexists].
    destruct (check_params M env recording kw) as [margs|e].
    + unfold mbind, result_bind. cbv beta iota. rewrite Hchunks.
      by eexists.
    + by eexists.
  - intros M margs -> ->. unfold mbind, result_bind. cbv beta iota.
    by rewrite Hchunks.
Qed.

Lemma no_chunk_no_array_witness :
  let env := cutting [] in
  let recording := {| sampling_frequency := 10000; _recording_segments := [] |} in
  (exists e, detect_peaks env recording "by_channel" None (example_kwargs "pos")
             = (0%nat, Raise e))
  /\ (forall M margs,
        detect_peak_methods "by_channel" = Some M ->
        check_params M env recording (example_kwargs "pos") = Ok margs ->
        detect_peaks env recording "by_channel" None (example_kwargs "pos")
        = (0%nat, Raise ValueError)).
Proof.
  intros env recording.
  exact (no_chunk_no_array env recording "by_channel" (example_kwargs "pos")
           eq_refl).
Defined.

Lemma detect_peak_methods_unknown method :
  ~ In method ["by_channel"; "locally_exclusive"; "locally_exclusive_cl"]%string ->
  detect_peak_methods method = None.
Proof.
  intros H. unfold detect_peak_methods.
  destruct (List.find _ _) as [M|] eqn:E; [|done].
  apply find_some in E as [HM Heq]. apply String.eqb_eq in Heq.
  exfalso. apply H. rewrite <- Heq.
  destruct HM as [<-|[<-|[<-|[]]]]; simpl; auto.
Qed.

(** X16. A method name that is not one of the three registered names
    fails the first assertion of [detect_peaks], before the parameters
    are looked at and before any worker runs. *)
Theorem unknown_method_fails_first (env : Env) (recording : Recording)
    (method : string) (nodes : option (list PipelineNode)) (kw : method_kwargs) :
  ~ In method ["by_channel"; "locally_exclusive"; "locally_exclusive_cl"]%string ->
  detect_peaks env recording method nodes kw = (0%nat, Raise AssertionError).
Proof.
  intros H. unfold detect_peaks. by rewrite detect_peak_methods_unknown.
Qed.

Lemma unknown_method_fails_first_witness :
  detect_peaks (example_env in_order) example_recording "by_chanel" None
    (example_kwargs "pos") = (0%nat, Raise AssertionError).
Proof.
  apply unknown_method_fails_first. simpl.
  intros [H|[H|[H|[]]]]; discriminate H.
Defined.



(** ** Pipeline nodes *)

Lemma driver_closed_form_nodes env recording method M kw margs n e rule lengths
    nodes :
  detect_peak_methods method = Some M ->
  check_params M env recording kw = Ok margs ->
  check_graph env nodes = Ok tt ->
  py_max (map get_trace_margin nodes) = Ok (Z.of_nat e) ->
  Forall (fun segment =>
      rectangular (shape1 segment) segment = true
      /\ implements_rule env M margs n (shape1 segment) rule)
    (_recording_segments recording) ->
  executor_chunks env recording = chunks_of_segments 0 lengths ->
  covers recording lengths ->
  chunks_of_segments 0 lengths <> [] ->
  exists outs,
    detect_peaks env recording method (Some nodes) kw
    = (length (chunks_of_segments 0 lengths),
       Ok (recording_peaks rule n 0 (_recording_segments recording), Some outs)).
Proof.
  intros Hmethod Hcheck Hgraph Hmax Hsegs Hchunks Hcov Hne.
  unfold detect_peaks. rewrite Hmethod, Hcheck, Hgraph.
  unfold mbind, result_bind. cbv beta iota. rewrite Hmax. cbv beta iota.
  rewrite Hchunks.
  destruct (run_chunks_segments env M margs n rule recording e (Some nodes)
              (_recording_segments recording) lengths 0%nat)
    as (outs & Hrun & Hlen & Hcat).
  { intros i segment Hi. split; [done|].
    rewrite Forall_forall in Hsegs. apply Hsegs.
    by eapply list_elem_of_lookup_2. }
  { exact Hcov. }
  rewrite Hrun. cbv beta iota.
  destruct outs as [|out outs].
  - exfalso. apply Hne. apply nil_length_inv. by rewrite <- Hlen.
  - unfold zip_outputs. rewrite Hcat. by eexists.
Qed.

(** X18. Pipeline nodes do not change the peaks.  Called with a list of
    pipeline nodes that passes [check_graph] and whose largest trace
    margin is not negative, [detect_peaks] returns as first array the
    array of peaks that it returns without nodes, for the by-channel and
    for the locally-exclusive method. *)
Theorem pipeline_nodes_keep_peaks (env : Env) (recording : Recording)
    (sg : sign) (kw : method_kwargs) (lengths : list (list nat))
    (nodes : list PipelineNode) (e : nat) :
  let noise := match noise_levels kw with
               | None => get_noise_levels env recording
               | Some noise => noise
               end in
  peak_sign kw = sign_name sg ->
  0 <= py_int (exclude_sweep_ms kw * sampling_frequency recording / 1000)%Q ->
  segments_of_width recording (length noise) ->
  executor_chunks env recording = chunks_of_segments 0 lengths ->
  covers recording lengths ->
  chunks_of_segments 0 lengths <> [] ->
  check_graph env nodes = Ok tt ->
  py_max (map get_trace_margin nodes) = Ok (Z.of_nat e) ->
  (exists calls peaks outs,
     detect_peaks env recording "by_channel" None kw = (calls, Ok (peaks, None))
     /\ detect_peaks env recording "by_channel" (Some nodes) kw
        = (calls, Ok (peaks, Some outs)))
  /\ (HAVE_NUMBA env = true ->
      exists calls peaks outs,
        detect_peaks env recording "locally_exclusive" None kw
        = (calls, Ok (peaks, None))
        /\ detect_peaks env recording "locally_exclusive" (Some nodes) kw
           = (calls, Ok (peaks, Some outs))).
Proof.
  intros noise Hsg Hess Hwidth Hchunks Hcov Hne Hgraph Hmax.
  set (ess := py_int (exclude_sweep_ms kw * sampling_frequency recording / 1000)%Q)
    in *.
  set (thr := map (fun x => x * detect_threshold kw)%Q noise).
  split.
  - destruct (driver_closed_form_nodes env recording "by_channel" ByChannel kw
                (sign_name sg, thr, Z.of_nat (Z.to_nat ess)) (Z.to_nat ess) e
                (fun sig => by_channel_peak sg sig thr (Z.to_nat ess))
                lengths nodes) as [outs Hrun]; try done.
    { change (check_params ByChannel) with ByChannel_check_params.
      rewrite (by_channel_check_params_ok env recording kw sg Hsg).
      fold noise thr ess. by rewrite Z2Nat.id. }
    { eapply Forall_impl; [exact Hwidth|]. intros segment [Hrect Hshape].
      rewrite Hshape. split; [done|]. apply by_channel_implements.
      unfold thr. by rewrite length_map. }
    eexists _, _, outs. split; [|exact Hrun].
    by apply (by_channel_driver_closed_form env recording sg kw lengths).
  - intros Hnumba.
    set (neighbours :=
           np_lt_scalar (get_channel_distances env recording) (local_radius_um kw)).
    destruct (driver_closed_form_nodes env recording "locally_exclusive"
                LocallyExclusive kw
                (sign_name sg, thr, Z.of_nat (Z.to_nat ess), neighbours)
                (Z.to_nat ess) e
                (fun sig => locally_exclusive_peak sg sig thr neighbours
                              (length noise) (Z.to_nat ess))
                lengths nodes) as [outs Hrun]; try done.
    { change (check_params LocallyExclusive) with LocallyExclusive_check_params.
      unfold LocallyExclusive_check_params. rewrite Hnumba. simpl negb. cbv iota.
      rewrite (by_channel_check_params_ok env recording kw sg Hsg).
      fold noise thr ess. by rewrite Z2Nat.id. }
    { eapply Forall_impl; [exact Hwidth|]. intros segment [Hrect Hshape].
      rewrite Hshape. split; [done|].
      apply locally_exclusive_implements; [done|].
      unfold thr. by rewrite length_map. }
    eexists _, _, outs. split; [|exact Hrun].
    by apply (locally_exclusive_driver_closed_form env recording sg kw lengths).
Qed.

Lemma pipeline_nodes_keep_peaks_witness :
  let env := cutting [[4; 4]; [2]]%nat in
  let kw := example_kwargs "both" in
  let nodes := [{| get_trace_margin := 2 |}; {| get_trace_margin := 0 |}] in
  (exists calls peaks outs,
     detect_peaks env two_segments "by_channel" None kw = (calls, Ok (peaks, None))
     /\ detect_peaks env two_segments "by_channel" (Some nodes) kw
        = (calls, Ok (peaks, Some outs)))
  /\ (exists calls peaks outs,
        detect_peaks env two_segments "locally_exclusive" None kw
        = (calls, Ok (peaks, None))
        /\ detect_peaks env two_segments "locally_exclusive" (Some nodes) kw
           = (calls, Ok (peaks, Some outs))).
Proof.
  intros env kw nodes.
  destruct (pipeline_nodes_keep_peaks env two_segments Both kw [[4; 4]; [2]]%nat
              nodes 2) as [H1 H2]; try reflexivity; try discriminate.
  - repeat constructor.
  - repeat constructor.
  - split; [exact H1 | exact (H2 eq_refl)].
Defined.

(** ** The output of the OpenCL method *)

(** X19. For ['pos'] and ['neg'], whatever the order in which the
    work-items run, the OpenCL method returns no (sample, channel) pair
    twice, and every pair it returns has its sample index in the interior
    [exclude_sweep_size, N - exclude_sweep_size) of the block and its
    channel index below the number of channels. *)
Theorem opencl_output_in_range_once (env : Env) (sg : sign) (thr : list Q)
    (neighbours : mask) (n C : nat) (traces : block)
    (executor : OpenCLDetectPeakExecutor) :
  sg <> Both -> complete_schedule env ->
  OpenCLDetectPeakExecutor_init env thr (Z.of_nat n) neighbours (sign_name sg)
  = Ok executor ->
  rectangular C neighbours = true -> length neighbours = C ->
  rectangular C traces = true -> (2 * n <= length traces)%nat ->
  exists executor' found,
    OpenCLDetectPeakExecutor_detect_peak env executor traces
    = Ok (executor', found)
    /\ NoDup found
    /\ Forall (fun sc : Z * nat =>
         Z.of_nat n <= sc.1 < Z.of_nat (length traces) - Z.of_nat n
         /\ (sc.2 < C)%nat) found.
Proof.
  intros Hsg Hsched Hinit Hnrect Hnlen Hrect HN.
  apply opencl_init_inv in Hinit as [Hcl Hinv].
  pose proof (rectangular_tabulate2 0%Q C traces Hrect) as Htab.
  destruct (opencl_detect_closed env sg thr n neighbours C executor
              (get2 0%Q traces) (length traces) Hsg Hcl Hsched Hinv Hnrect
              Hnlen HN) as (executor' & Hdet & _).
  rewrite <- Htab in Hdet. eexists executor', _. split; [exact Hdet|].
  pose proof (Hsched (length traces - 2 * n)%nat) as Hperm.
  split.
  - rewrite map_fmap. apply NoDup_fmap_2.
    + intros [j c] [j' c'] [= Hj ->]. f_equal. lia.
    + apply NoDup_list_filter, NoDup_pairs; [|apply NoDup_seq].
      rewrite map_fmap. apply NoDup_fmap_2; [intros x y; lia|].
      eapply NoDup_Permutation_proper; [exact Hperm | apply NoDup_seq].
  - apply Forall_forall. intros [s c] Hin.
    apply list_elem_of_In, in_map_iff in Hin as ([j c0] & [= <- <-] & Hin).
    apply filter_In in Hin as [Hin _]. apply In_pairs in Hin as [Hj Hc].
    apply in_map_iff in Hj as (pos & <- & Hpos).
    eapply Permutation_in in Hpos; [|exact Hperm].
    apply in_seq in Hpos. apply in_seq in Hc. simpl. lia.
Qed.

Lemma opencl_output_in_range_once_witness :
  let env := example_env reversed in
  let traces := [[9; 0]; [9; 0]; [0; 0]; [0; 8]; [0; 9]]%Q in
  let executor :=
    {| cl_chunk_size := None; cl_abs_threholds := [5; 5]%Q;
       cl_exclude_sweep_size := 1;
       cl_neighbours_mask := [[true; false]; [false; true]];
       cl_peak_sign := "pos"; cl_x := 0; kernel_peak_sign := 0;
       global_size := 0; dev := {| num_peaks := 0; peaks := [] |} |} in
  exists executor' found,
    OpenCLDetectPeakExecutor_detect_peak env executor traces
    = Ok (executor', found)
    /\ NoDup found
    /\ Forall (fun sc : Z * nat =>
         Z.of_nat 1 <= sc.1 < Z.of_nat (length traces) - Z.of_nat 1
         /\ (sc.2 < 2)%nat) found.
Proof.
  intros env traces executor.
  assert (Hsched : complete_schedule env).
  { intros g. simpl. unfold reversed. symmetry. apply Permutation_rev. }
  apply (opencl_output_in_range_once env Pos [5; 5]%Q
           [[true; false]; [false; true]] 1 2 traces executor);
    [discriminate | exact Hsched | reflexivity | reflexivity | reflexivity
     | reflexivity | simpl; lia].
Defined.






(** ** The driver with the OpenCL method *)





